(** * go-claude-code: process transport and streaming protocol layer

    A shallow embedding of the Go package [pkg] (parser, transport,
    client, query) and the properties its specification states about it.

    Go strings and byte slices holding text are [string] (a list of
    8-bit characters); the stderr buffer is a [list byte]; Go [int]s are
    [Z]; a Go [(T, error)] return is a [result T]; a buffered channel is
    a record with its buffer, capacity and closed flag; the standard
    library's [encoding/json] is taken as a parameter through the
    [Unmarshaler] class, one instance per target type. *)

From Stdlib Require Import ZArith String Ascii List DecimalString DecimalZ DecimalPos.
From Stdlib.Strings Require Import Byte.
From stdpp Require Import base option gmap list strings relations.

Open Scope string_scope.
Open Scope list_scope.
Open Scope Z_scope.

(* ===================================================================== *)
(** * Part I. Definitions *)
(* ===================================================================== *)

(** ** Go runtime: results, formatted output, channels *)

(** Go's [error] values as this package builds them (errors.go).  An
    [errorString] is what [fmt.Errorf], [errors.New] and the standard
    library return; the other constructors are the package's own error
    structs with their embedded [ClaudeSDKError] fields written out. *)
Inductive error : Type :=
| errorString (s : string)
| CLIConnectionError (Message : string) (Cause : error)
| CLINotFoundError (Message : string) (SearchPaths : list string)
| ProcessError (Message : string) (ExitCode : Z) (Stdout Stderr : string)
| CLIJSONDecodeError (Message : string) (Cause : error) (RawData : string)
| MessageParseError (Message : string) (Cause : error)
    (MessageType : string) (RawMessage : string).

Inductive result (A : Type) : Type :=
| Ok (a : A)
| Err (e : error).
Arguments Ok {A} a.
Arguments Err {A} e.

(** [fmt.Sprintf("%d", n)] *)
Definition Sprintf_d (n : Z) : string := NilZero.string_of_int (Z.to_int n).

Definition Errorf (msg : string) : error := errorString msg.

Definition NewCLIConnectionError (message : string) (cause : error) : error :=
  CLIConnectionError message cause.

Definition NewProcessError (exitCode : Z) (stdout stderr : string) : error :=
  let message := "Claude Code CLI exited with code " +:+ Sprintf_d exitCode in
  let message :=
    if negb (String.eqb stderr "") then
      message +:+ String "010" "stderr: " +:+ stderr
    else message in
  ProcessError message exitCode stdout stderr.

Definition NewCLIJSONDecodeError (rawData : string) (cause : error) : error :=
  CLIJSONDecodeError ("Failed to decode JSON from CLI output: " +:+ rawData)
                     cause rawData.

Definition NewMessageParseError (messageType rawMessage : string)
    (cause : error) : error :=
  MessageParseError ("Failed to parse message of type '" +:+ messageType +:+ "'")
                    cause messageType rawMessage.

(** A Go channel [make(chan A, cap)]: the queued elements (oldest first),
    the capacity and whether [close] was called on it. *)
Record chan (A : Type) : Type := mkChan {
  chan_buf : list A;
  chan_cap : nat;
  chan_closed : bool
}.
Arguments mkChan {A} _ _ _.
Arguments chan_buf {A} _.
Arguments chan_cap {A} _.
Arguments chan_closed {A} _.

Definition make_chan {A : Type} (cap : nat) : chan A := mkChan [] cap false.

(** What a channel operation does when it is attempted. *)
Inductive attempt (A : Type) : Type :=
| Done (a : A)        (* the operation completed *)
| WouldBlock          (* the goroutine stays parked *)
| Panic.              (* run-time panic *)
Arguments Done {A} a.
Arguments WouldBlock {A}.
Arguments Panic {A}.

(** [ch <- x] *)
Definition chan_send {A : Type} (ch : chan A) (x : A) : attempt (chan A) :=
  if chan_closed ch then Panic
  else if (length (chan_buf ch) <? chan_cap ch)%nat
       then Done (mkChan (chan_buf ch ++ [x]) (chan_cap ch) false)
       else WouldBlock.

(** [x, ok := <-ch]: the value (or nothing, with [ok = false], on a closed
    and drained channel) and the channel afterwards. *)
Definition chan_recv {A : Type} (ch : chan A) : attempt (option A * chan A) :=
  match chan_buf ch with
  | x :: rest => Done (Some x, mkChan rest (chan_cap ch) (chan_closed ch))
  | [] => if chan_closed ch then Done (None, ch) else WouldBlock
  end.

(** [close(ch)] *)
Definition chan_close {A : Type} (ch : chan A) : attempt (chan A) :=
  if chan_closed ch then Panic
  else Done (mkChan (chan_buf ch) (chan_cap ch) true).

(** Whether a send would proceed at once (a [select] case is ready).  A
    send on a closed channel is ready too: it proceeds, and panics. *)
Definition send_ready {A : Type} (ch : chan A) : bool :=
  chan_closed ch || (length (chan_buf ch) <? chan_cap ch)%nat.

(** ** Data model (types.go) *)

(** The dynamically typed values ([interface{}]) and [float64] numbers
    that [encoding/json] produces are carried around, never inspected. *)
Class GoValues : Type := {
  any : Type;
  float64 : Type
}.

Section Model.
Context `{GoValues}.

Definition MessageRole : Type := string.
Definition MessageRoleUser : MessageRole := "user".
Definition MessageRoleAssistant : MessageRole := "assistant".
Definition MessageRoleSystem : MessageRole := "system".

Record UserMessage : Type := mkUserMessage {
  UserMessage_Role : MessageRole;
  UserMessage_Content : string
}.

Record TextBlock : Type := mkTextBlock {
  TextBlock_Type : string;
  TextBlock_Text : string
}.

Record ToolUseBlock : Type := mkToolUseBlock {
  ToolUseBlock_Type : string;
  ToolUseBlock_ID : string;
  ToolUseBlock_Name : string;
  ToolUseBlock_Input : gmap string any
}.

Record ToolResultBlock : Type := mkToolResultBlock {
  ToolResultBlock_Type : string;
  ToolResultBlock_ToolUseID : string;
  ToolResultBlock_IsError : bool;
  ToolResultBlock_Content : any
}.

(** A value of interface type [ContentBlock], by its dynamic type. *)
Inductive ContentBlock : Type :=
| BlockText (b : TextBlock)
| BlockToolUse (b : ToolUseBlock)
| BlockToolResult (b : ToolResultBlock).

Record AssistantMessage : Type := mkAssistantMessage {
  AssistantMessage_Role : MessageRole;
  AssistantMessage_Content : list ContentBlock
}.

Definition SystemMessageSubtype : Type := string.

Record SystemMessage : Type := mkSystemMessage {
  SystemMessage_Role : MessageRole;
  SystemMessage_Subtype : SystemMessageSubtype;
  SystemMessage_Data : any
}.

Record ResultUsage : Type := mkResultUsage {
  InputTokens : Z;
  OutputTokens : Z;
  BackgroundTokens : Z;
  CacheCreationTokens : Z;
  CacheReadTokens : Z
}.

Record ResultCost : Type := mkResultCost {
  InputTokenCost : float64;
  OutputTokenCost : float64;
  BackgroundTokenCost : float64;
  CacheCreationCost : float64;
  CacheReadCost : float64;
  TotalCost : float64
}.

Record ResultMessageData : Type := mkResultMessageData {
  Usage : ResultUsage;
  Cost : ResultCost;
  SessionID : string;
  InterruptRequested : bool
}.

Record ResultMessage : Type := mkResultMessage {
  ResultMessage_Role : MessageRole;
  ResultMessage_Data : ResultMessageData
}.

(** A value of interface type [Message], by its dynamic type.  The
    parser hands out assistant messages by pointer ([*AssistantMessage])
    and the others by value; a type switch tells the two apart. *)
Inductive Message : Type :=
| MsgUser (m : UserMessage)
| MsgAssistantPtr (m : AssistantMessage)
| MsgAssistant (m : AssistantMessage)
| MsgSystem (m : SystemMessage)
| MsgResult (m : ResultMessage).

Definition GetType (m : Message) : string :=
  match m with
  | MsgUser _ => "user"
  | MsgAssistantPtr _ | MsgAssistant _ => "assistant"
  | MsgSystem _ => "system"
  | MsgResult _ => "result"
  end.

Definition GetRole (m : Message) : MessageRole :=
  match m with
  | MsgUser u => UserMessage_Role u
  | MsgAssistantPtr a | MsgAssistant a => AssistantMessage_Role a
  | MsgSystem s => SystemMessage_Role s
  | MsgResult _ => MessageRoleSystem
  end.

Record InputMessage : Type := mkInputMessage {
  InputMessage_Type : string;
  InputMessage_Message : Message;
  InputMessage_ParentToolUseID : string;
  InputMessage_SessionID : string
}.

Definition ControlRequestType : Type := string.
Definition ControlRequestTypeInterrupt : ControlRequestType := "interrupt".

Record ControlRequest : Type := mkControlRequest {
  ControlRequest_Type : string;
  ControlRequest_RequestID : string;
  ControlRequest_Subtype : ControlRequestType
}.

Record ControlResponse : Type := mkControlResponse {
  ControlResponse_Type : string;
  ControlResponse_RequestID : string;
  ControlResponse_Success : bool;
  ControlResponse_Error : string
}.

(** [json.RawMessage] is the undecoded text of a JSON value. *)
Definition RawMessage : Type := string.

Record StreamMessage : Type := mkStreamMessage {
  StreamMessage_Type : string;
  StreamMessage_Message : RawMessage
}.

(** The anonymous structs the code decodes into to peek at one field. *)
Record typeCheck : Type := mkTypeCheck { typeCheck_Type : string }.
Record subtypeBase : Type := mkSubtypeBase { base_Subtype : string }.

(** The auxiliary struct of [AssistantMessage.UnmarshalJSON]: the
    content blocks undecoded, the other fields through the alias.  The
    method decodes into a pointer to it, [aux], which JSON [null] sets to
    [nil]: the target is an [option assistantAux]. *)
Record assistantAux : Type := mkAssistantAux {
  aux_Content : list RawMessage;
  aux_Role : MessageRole
}.

(** ** encoding/json, as the package uses it *)

(** [checkValid] is the syntax check [json.Unmarshal] starts with;
    [valueBytes] is the text of the top-level value, surrounding white
    space removed, which is what a custom [UnmarshalJSON] method is
    handed. *)
Class JSONSyntax : Type := {
  checkValid : string → option error;
  valueBytes : string → string
}.

(** [json.Unmarshal(data, &v)] for a zero [v] of type [T].  Whatever the
    target, input that is not well-formed JSON is refused with the
    syntax error. *)
Class Unmarshaler `{JSONSyntax} (T : Type) : Type := {
  Unmarshal : string → result T;
  Unmarshal_invalid : ∀ data e, checkValid data = Some e → Unmarshal data = Err e
}.

(** [json.Marshal(v)] *)
Class Marshaler (T : Type) : Type := {
  Marshal : T → result string
}.

(** The decoders and encoders the package calls. *)
Class EncodingJSON `{JSONSyntax} : Type := {
  json_typeCheck :: Unmarshaler typeCheck;
  json_subtypeBase :: Unmarshaler subtypeBase;
  json_StreamMessage :: Unmarshaler StreamMessage;
  json_ControlResponse :: Unmarshaler ControlResponse;
  json_UserMessage :: Unmarshaler UserMessage;
  json_SystemMessage :: Unmarshaler SystemMessage;
  json_ResultMessage :: Unmarshaler ResultMessage;
  json_assistantAux :: Unmarshaler (option assistantAux);
  json_TextBlock :: Unmarshaler TextBlock;
  json_ToolUseBlock :: Unmarshaler ToolUseBlock;
  json_ToolResultBlock :: Unmarshaler ToolResultBlock;
  json_InputMessage :: Marshaler InputMessage;
  json_ControlRequest :: Marshaler ControlRequest
}.

End Model.

(** ** The codec (types.go, parser.go) *)

Section Codec.
Context `{GoValues, JSONSyntax, !EncodingJSON}.

(** One iteration of the loop of [AssistantMessage.UnmarshalJSON]: the
    block decoded from [raw], or nothing when the iteration leaves
    [block] nil (or leaves through [continue]). *)
Definition decodeBlock (raw : RawMessage) : option ContentBlock :=
  match Unmarshal (T := typeCheck) raw with
  | Err _ => None
  | Ok tc =>
      if String.eqb (typeCheck_Type tc) "text" then
        match Unmarshal (T := TextBlock) raw with
        | Ok tb => Some (BlockText tb)
        | Err _ => None
        end
      else if String.eqb (typeCheck_Type tc) "tool_use" then
        match Unmarshal (T := ToolUseBlock) raw with
        | Ok tub => Some (BlockToolUse tub)
        | Err _ => None
        end
      else if String.eqb (typeCheck_Type tc) "tool_result" then
        match Unmarshal (T := ToolResultBlock) raw with
        | Ok trb => Some (BlockToolResult trb)
        | Err _ => None
        end
      else None
  end.

(** The loop itself: [m.Content] starts empty and grows by [append]. *)
Definition decodeBlocks (raws : list RawMessage) : list ContentBlock :=
  fold_left
    (fun content raw =>
       match decodeBlock raw with
       | Some block => content ++ [block]
       | None => content
       end)
    raws [].

(** With [aux] left [nil], reading [aux.Content] is a nil dereference. *)
Definition AssistantMessage_UnmarshalJSON (data : string)
    : attempt (result AssistantMessage) :=
  match Unmarshal (T := option assistantAux) data with
  | Err e => Done (Err e)
  | Ok None => Panic
  | Ok (Some aux) =>
      Done (Ok {| AssistantMessage_Role := aux_Role aux;
                  AssistantMessage_Content :=
                    decodeBlocks (aux_Content aux) |})
  end.

(** [json.Unmarshal(data, &msg)] for [msg : AssistantMessage]: the
    syntax check, then the type's own [UnmarshalJSON]. *)
Definition Unmarshal_AssistantMessage (data : string)
    : attempt (result AssistantMessage) :=
  match checkValid data with
  | Some e => Done (Err e)
  | None => AssistantMessage_UnmarshalJSON (valueBytes data)
  end.

Definition parseStreamMessage (data : string) : result StreamMessage :=
  match Unmarshal (T := StreamMessage) data with
  | Err e => Err (NewCLIJSONDecodeError data e)
  | Ok msg => Ok msg
  end.

Definition parseControlResponse (data : string) : result ControlResponse :=
  match Unmarshal (T := ControlResponse) data with
  | Err e => Err (NewCLIJSONDecodeError data e)
  | Ok resp => Ok resp
  end.

(** [parseMessage] returns [(nil, nil)] for a payload it skips: [Ok None]. *)
Definition parseMessage (msgType : string) (data : RawMessage)
    : attempt (result (option Message)) :=
  if (String.length data =? 0)%nat || String.eqb data "null"
     || String.eqb data "{}" then Done (Ok None)
  else if String.eqb msgType "user" then
    match Unmarshal (T := UserMessage) data with
    | Err e => Done (Err (NewMessageParseError msgType data e))
    | Ok msg => Done (Ok (Some (MsgUser msg)))
    end
  else if String.eqb msgType "assistant" then
    match Unmarshal_AssistantMessage data with
    | Done (Err e) => Done (Err (NewMessageParseError msgType data e))
    | Done (Ok msg) => Done (Ok (Some (MsgAssistantPtr msg)))
    | WouldBlock => WouldBlock
    | Panic => Panic
    end
  else if String.eqb msgType "system" then
    match Unmarshal (T := subtypeBase) data with
    | Err e => Done (Err (NewMessageParseError msgType data e))
    | Ok base =>
        if String.eqb (base_Subtype base) "result" then
          match Unmarshal (T := ResultMessage) data with
          | Err e => Done (Err (NewMessageParseError msgType data e))
          | Ok msg => Done (Ok (Some (MsgResult msg)))
          end
        else
          match Unmarshal (T := SystemMessage) data with
          | Err e => Done (Err (NewMessageParseError msgType data e))
          | Ok msg => Done (Ok (Some (MsgSystem msg)))
          end
    end
  else
    Done (Err (NewMessageParseError msgType data
                 (Errorf ("unknown message type: " +:+ msgType)))).

Definition isControlResponse (data : string) : bool :=
  match Unmarshal (T := typeCheck) data with
  | Err _ => false
  | Ok check => String.eqb (typeCheck_Type check) "control_response"
  end.

End Codec.

(** ** The transport (transport.go) *)

Definition maxBufferSize : Z := 1024 * 1024.
Definition maxStderrSize : Z := 10 * 1024 * 1024.

Record ClaudeCodeOptions : Type := mkOptions {
  AllowedTools : list string;
  MaxThinkingTokens : Z;
  SystemPrompt : string;
  AppendSystemPrompt : string;
  PermissionMode : string;
  ContinueConversation : bool;
  Resume : string;
  MaxTurns : Z;
  DisallowedTools : list string;
  Model : string;
  Cwd : string;
  MaxTokens : Z;
  Options_SessionID : string
}.

(** The zero value [&ClaudeCodeOptions{}]. *)
Definition emptyOptions : ClaudeCodeOptions :=
  mkOptions [] 0 "" "" "" false "" 0 [] "" "" 0 "".

(** [sync.Once] *)
Inductive once : Type :=
| OnceIdle        (* [Do] was never called *)
| OnceRunning     (* a call of [Do] is inside the function *)
| OnceDone.       (* the function returned *)

(** The child process, as [exec.Cmd] sees it. *)
Inductive process : Type :=
| ProcRunning
| ProcKilled                 (* signalled, not yet reaped *)
| ProcExited (waited : bool). (* gone; [waited] once [Wait] reaped it *)

Record Cmd : Type := mkCmd {
  Cmd_Path : string;
  Cmd_Args : list string;
  Cmd_Env : list string;       (* appended to [os.Environ()] *)
  Cmd_Dir : string;
  Cmd_Process : process
}.

(** The write end of the child's standard input. *)
Record stdinPipe : Type := mkStdin {
  stdin_closed : bool;
  stdin_written : string
}.

Section Transport.
Context `{GoValues, JSONSyntax, !EncodingJSON}.

Record transport : Type := mkTransport {
  cmd : Cmd;
  stdin : stdinPipe;
  stdout_closed : bool;
  stderr_closed : bool;
  stderrBuf : list byte;
  messages : chan Message;
  errors : chan error;
  done : bool;                                  (* [close(t.done)] happened *)
  closeOnce : once;
  requestID : Z;
  controlResp : gmap string (chan ControlResponse);
  isStreaming : bool
}.

Definition set_cmd (f : Cmd → Cmd) (t : transport) : transport :=
  mkTransport (f (cmd t)) (stdin t) (stdout_closed t) (stderr_closed t)
    (stderrBuf t) (messages t) (errors t) (done t) (closeOnce t)
    (requestID t) (controlResp t) (isStreaming t).
Definition set_stdin (f : stdinPipe → stdinPipe) (t : transport) : transport :=
  mkTransport (cmd t) (f (stdin t)) (stdout_closed t) (stderr_closed t)
    (stderrBuf t) (messages t) (errors t) (done t) (closeOnce t)
    (requestID t) (controlResp t) (isStreaming t).
Definition set_stdout_closed (b : bool) (t : transport) : transport :=
  mkTransport (cmd t) (stdin t) b (stderr_closed t)
    (stderrBuf t) (messages t) (errors t) (done t) (closeOnce t)
    (requestID t) (controlResp t) (isStreaming t).
Definition set_stderr_closed (b : bool) (t : transport) : transport :=
  mkTransport (cmd t) (stdin t) (stdout_closed t) b
    (stderrBuf t) (messages t) (errors t) (done t) (closeOnce t)
    (requestID t) (controlResp t) (isStreaming t).
Definition set_stderrBuf (b : list byte) (t : transport) : transport :=
  mkTransport (cmd t) (stdin t) (stdout_closed t) (stderr_closed t)
    b (messages t) (errors t) (done t) (closeOnce t)
    (requestID t) (controlResp t) (isStreaming t).
Definition set_messages (c : chan Message) (t : transport) : transport :=
  mkTransport (cmd t) (stdin t) (stdout_closed t) (stderr_closed t)
    (stderrBuf t) c (errors t) (done t) (closeOnce t)
    (requestID t) (controlResp t) (isStreaming t).
Definition set_errors (c : chan error) (t : transport) : transport :=
  mkTransport (cmd t) (stdin t) (stdout_closed t) (stderr_closed t)
    (stderrBuf t) (messages t) c (done t) (closeOnce t)
    (requestID t) (controlResp t) (isStreaming t).
Definition set_done (b : bool) (t : transport) : transport :=
  mkTransport (cmd t) (stdin t) (stdout_closed t) (stderr_closed t)
    (stderrBuf t) (messages t) (errors t) b (closeOnce t)
    (requestID t) (controlResp t) (isStreaming t).
Definition set_closeOnce (o : once) (t : transport) : transport :=
  mkTransport (cmd t) (stdin t) (stdout_closed t) (stderr_closed t)
    (stderrBuf t) (messages t) (errors t) (done t) o
    (requestID t) (controlResp t) (isStreaming t).
Definition set_requestID (n : Z) (t : transport) : transport :=
  mkTransport (cmd t) (stdin t) (stdout_closed t) (stderr_closed t)
    (stderrBuf t) (messages t) (errors t) (done t) (closeOnce t)
    n (controlResp t) (isStreaming t).
Definition set_controlResp (m : gmap string (chan ControlResponse))
    (t : transport) : transport :=
  mkTransport (cmd t) (stdin t) (stdout_closed t) (stderr_closed t)
    (stderrBuf t) (messages t) (errors t) (done t) (closeOnce t)
    (requestID t) m (isStreaming t).

(** *** Spawning *)

(** What the operating system answers while a transport is set up. *)
Record launch : Type := mkLaunch {
  findCLI : result string;
  StdinPipe_err : option error;
  StdoutPipe_err : option error;
  StderrPipe_err : option error;
  Start_err : option error
}.

Definition optionArgs (options : ClaudeCodeOptions) : list string :=
  (if negb (String.eqb (Model options) "")
   then ["--model"; Model options] else [])
  ++ (if 0 <? MaxTokens options
      then ["--max-tokens"; Sprintf_d (MaxTokens options)] else [])
  ++ (if 0 <? MaxThinkingTokens options
      then ["--max-thinking-tokens"; Sprintf_d (MaxThinkingTokens options)]
      else [])
  ++ (if negb (String.eqb (SystemPrompt options) "")
      then ["--system-prompt"; SystemPrompt options] else [])
  ++ (if negb (String.eqb (AppendSystemPrompt options) "")
      then ["--append-system-prompt"; AppendSystemPrompt options] else [])
  ++ (if (0 <? length (AllowedTools options))%nat
      then ["--allowed-tools"; String.concat "," (AllowedTools options)]
      else [])
  ++ (if (0 <? length (DisallowedTools options))%nat
      then ["--disallowed-tools"; String.concat "," (DisallowedTools options)]
      else [])
  ++ (if negb (String.eqb (PermissionMode options) "")
      then ["--permission-mode"; PermissionMode options] else [])
  ++ (if ContinueConversation options then ["--continue-conversation"] else [])
  ++ (if negb (String.eqb (Resume options) "")
      then ["--resume"; Resume options] else [])
  ++ (if 0 <? MaxTurns options
      then ["--max-turns"; Sprintf_d (MaxTurns options)] else []).

(** The part [newTransport] and [newTransportForQuery] share, from the
    pipes on.  The two background readers it starts are [readStderr]
    and [readMessages] below. *)
Definition startTransport (os : launch) (cliPath : string)
    (args : list string) (entrypoint : string)
    (options : ClaudeCodeOptions) (streaming : bool) : result transport :=
  match StdinPipe_err os with
  | Some e => Err (NewCLIConnectionError "Failed to create stdin pipe" e)
  | None =>
  match StdoutPipe_err os with
  | Some e => Err (NewCLIConnectionError "Failed to create stdout pipe" e)
  | None =>
  match StderrPipe_err os with
  | Some e => Err (NewCLIConnectionError "Failed to create stderr pipe" e)
  | None =>
  match Start_err os with
  | Some e => Err (NewCLIConnectionError "Failed to start Claude Code CLI" e)
  | None =>
      Ok {| cmd := mkCmd cliPath args [entrypoint] (Cwd options) ProcRunning;
            stdin := mkStdin false "";
            stdout_closed := false;
            stderr_closed := false;
            stderrBuf := [];
            messages := make_chan 100;
            errors := make_chan 10;
            done := false;
            closeOnce := OnceIdle;
            requestID := 0;
            controlResp := ∅;
            isStreaming := streaming |}
  end end end end.

Definition newTransport (os : launch) (options : ClaudeCodeOptions)
    (streaming : bool) : result transport :=
  match findCLI os with
  | Err e => Err e
  | Ok cliPath =>
      let args := ["--output-format"; "stream-json"; "--verbose"]
                  ++ optionArgs options
                  ++ (if streaming then ["--input-format"; "stream-json"]
                      else []) in
      startTransport os cliPath args "CLAUDE_CODE_ENTRYPOINT=sdk-go"
                     options streaming
  end.

Definition newTransportForQuery (os : launch) (options : ClaudeCodeOptions)
    (prompt : string) : result transport :=
  match findCLI os with
  | Err e => Err e
  | Ok cliPath =>
      let args := ["--output-format"; "stream-json"; "--verbose"]
                  ++ ["--print"; prompt]
                  ++ optionArgs options in
      startTransport os cliPath args "CLAUDE_CODE_ENTRYPOINT=sdk-go-query"
                     options false
  end.

(** *** Writing to the child *)

(** [t.stdin.Write(data)]: refused once the pipe is closed on this side
    or the child is gone. *)
Definition stdin_Write (data : string) (t : transport) : result transport :=
  if stdin_closed (stdin t) then
    Err (errorString "write |1: file already closed")
  else
    match Cmd_Process (cmd t) with
    | ProcRunning =>
        Ok (set_stdin (fun p => mkStdin false (stdin_written p +:+ data)) t)
    | _ => Err (errorString "write |1: broken pipe")
    end.

Definition newline : string := String "010" "".

Definition sendMessage (message : Message)
    (parentToolUseID sessionID : string) (t : transport)
    : option error * transport :=
  let input := mkInputMessage "user" message parentToolUseID sessionID in
  match Marshal input with
  | Err e => (Some e, t)
  | Ok data =>
      match stdin_Write data t with
      | Err e => (Some (NewCLIConnectionError "Failed to send message" e), t)
      | Ok t1 =>
          match stdin_Write newline t1 with
          | Err e =>
              (Some (NewCLIConnectionError "Failed to send newline" e), t1)
          | Ok t2 => (None, t2)
          end
      end
  end.

(** The pipe [StdinPipe] returns closes at most once and repeats the
    first answer, so [t.stdin.Close()] has nothing to report twice. *)
Definition closeStdin (t : transport) : option error * transport :=
  (None, set_stdin (fun p => mkStdin true (stdin_written p)) t).

(** *** Selecting

    A [select] runs one of its ready cases, any of them; [pick] is the
    scheduler's preference and decides when several are ready.  With no
    ready case the goroutine stays parked. *)
Definition choose {A : Type} `{EqDecision A} (pick : A) (ready : list A)
    : option A :=
  if decide (pick ∈ ready) then Some pick else head ready.

(** [select { case ch <- x: ...; case <-t.done: return }]: the channel
    after the send, or [None] when the [done] case ran. *)
Definition select_send {A : Type} (pick_done : bool) (ch : chan A) (x : A)
    (t : transport) : attempt (option (chan A)) :=
  let send := match chan_send ch x with
              | Done ch' => Done (Some ch')
              | WouldBlock => WouldBlock
              | Panic => Panic
              end in
  match send_ready ch, done t with
  | true, true => if pick_done then Done None else send
  | true, false => send
  | false, true => Done None
  | false, false => WouldBlock
  end.

(** *** Control requests *)

Inductive select_case : Type := CaseCtxDone | CaseResp | CaseTimeAfter.

#[export] Instance select_case_eq_dec : EqDecision select_case.
Proof. solve_decision. Defined.

(** [5 * time.Second], in nanoseconds as [time.Duration] counts. *)
Definition interruptTimeout : Z := 5 * 1000000000.

(** What surrounds a call of [sendInterrupt] while it waits in its
    [select]: what the other goroutines did to the transport meanwhile
    ([during]), whether the caller's context is done and with which
    error, how long the call has been waiting, and the scheduler's pick. *)
Record waiting : Type := mkWaiting {
  during : transport → transport;
  ctx_err : option error;
  elapsed : Z;
  pick : select_case
}.

Definition requestID_string (counter now : Z) : string :=
  "req_" +:+ Sprintf_d counter +:+ "_" +:+ Sprintf_d now.

(** The cases of the final [select] that are ready in state [t]. *)
Definition interrupt_ready (w : waiting) (requestID : string) (t : transport)
    : list select_case :=
  (match ctx_err w with Some _ => [CaseCtxDone] | None => [] end)
  ++ (match controlResp t !! requestID with
      | Some respChan =>
          match chan_buf respChan with [] => [] | _ :: _ => [CaseResp] end
      | None => []
      end)
  ++ (if interruptTimeout <=? elapsed w then [CaseTimeAfter] else []).

(** [now] is [time.Now().UnixNano()].  The deferred function runs on
    every path that follows the registration: [deregister]. *)
Definition sendInterrupt (now : Z) (w : waiting) (t : transport)
    : attempt (option error * transport) :=
  let counter := requestID t + 1 in
  let t := set_requestID counter t in
  let requestID := requestID_string counter now in
  let request :=
    mkControlRequest "control_request" requestID ControlRequestTypeInterrupt in
  match Marshal request with
  | Err e => Done (Some e, t)
  | Ok data =>
      let respChan : chan ControlResponse := make_chan 1 in
      let t := set_controlResp (<[requestID := respChan]> (controlResp t)) t in
      let deregister (t : transport) :=
        set_controlResp (delete requestID (controlResp t)) t in
      match stdin_Write data t with
      | Err e =>
          Done (Some (NewCLIConnectionError "Failed to send interrupt" e),
                deregister t)
      | Ok t =>
      match stdin_Write newline t with
      | Err e =>
          Done (Some (NewCLIConnectionError "Failed to send newline" e),
                deregister t)
      | Ok t =>
          let t := during w t in
          match choose (pick w) (interrupt_ready w requestID t) with
          | None => WouldBlock
          | Some CaseCtxDone =>
              match ctx_err w with
              | Some e => Done (Some e, deregister t)
              | None => WouldBlock
              end
          | Some CaseResp =>
              match controlResp t !! requestID with
              | Some respChan =>
                  match chan_recv respChan with
                  | Done (Some resp, _) =>
                      if negb (ControlResponse_Success resp) then
                        Done (Some (Errorf ("interrupt failed: " +:+
                                            ControlResponse_Error resp)),
                              deregister t)
                      else Done (None, deregister t)
                  | _ => WouldBlock
                  end
              | None => WouldBlock
              end
          | Some CaseTimeAfter =>
              Done (Some (Errorf "interrupt request timeout"), deregister t)
          end
      end end
  end.

(** *** Shutting down *)

(** The statements of the function [close] hands to [closeOnce.Do], in
    order.  The [nil] checks around them always pass on a transport that
    [newTransport] returned. *)
Inductive teardownStep : Type :=
| CloseDone          (* close(t.done) *)
| CloseStdin         (* t.stdin.Close() *)
| KillProcess        (* t.cmd.Process.Kill() *)
| CloseStdout        (* t.stdout.Close() *)
| CloseStderr        (* t.stderr.Close() *)
| WaitProcess        (* t.cmd.Wait() *)
| SleepGrace         (* time.Sleep(10 * time.Millisecond) *)
| CloseMessages      (* close(t.messages) *)
| CloseErrors.       (* close(t.errors) *)

Definition teardown : list teardownStep :=
  [CloseDone; CloseStdin; KillProcess; CloseStdout; CloseStderr;
   WaitProcess; SleepGrace; CloseMessages; CloseErrors].

Definition runTeardownStep (a : teardownStep) (t : transport)
    : attempt transport :=
  match a with
  | CloseDone => if done t then Panic else Done (set_done true t)
  | CloseStdin =>
      Done (set_stdin (fun p => mkStdin true (stdin_written p)) t)
  | KillProcess =>
      Done (set_cmd (fun c =>
              mkCmd (Cmd_Path c) (Cmd_Args c) (Cmd_Env c) (Cmd_Dir c)
                (match Cmd_Process c with
                 | ProcRunning => ProcKilled
                 | p => p
                 end)) t)
  | CloseStdout => Done (set_stdout_closed true t)
  | CloseStderr => Done (set_stderr_closed true t)
  | WaitProcess =>
      Done (set_cmd (fun c =>
              mkCmd (Cmd_Path c) (Cmd_Args c) (Cmd_Env c) (Cmd_Dir c)
                (ProcExited true)) t)
  | SleepGrace => Done t
  | CloseMessages =>
      match chan_close (messages t) with
      | Done ch => Done (set_messages ch t)
      | WouldBlock => WouldBlock
      | Panic => Panic
      end
  | CloseErrors =>
      match chan_close (errors t) with
      | Done ch => Done (set_errors ch t)
      | WouldBlock => WouldBlock
      | Panic => Panic
      end
  end.

Fixpoint runTeardown (steps : list teardownStep) (t : transport)
    : attempt transport :=
  match steps with
  | [] => Done t
  | a :: rest =>
      match runTeardownStep a t with
      | Done t' => runTeardown rest t'
      | WouldBlock => WouldBlock
      | Panic => Panic
      end
  end.

(** [close], called with no other call of it in flight.  [finalErr] is
    never assigned, so the error returned is always [nil]. *)
Definition close (t : transport) : attempt (option error * transport) :=
  let finalErr : option error := None in
  match closeOnce t with
  | OnceDone => Done (finalErr, t)
  | OnceRunning => WouldBlock
  | OnceIdle =>
      match runTeardown teardown (set_closeOnce OnceRunning t) with
      | Done t' => Done (finalErr, set_closeOnce OnceDone t')
      | WouldBlock => WouldBlock
      | Panic => Panic
      end
  end.

(** *** The message reader *)

(** What one iteration of the loop of [readMessages] decides to do with
    the line it scanned, before any channel is touched. *)
Inductive pending : Type :=
| SendError (e : error)               (* t.errors <- err *)
| SendMsg (m : Message)               (* t.messages <- msg *)
| RouteResponse (resp : ControlResponse)
| NextLine.                           (* continue *)

Definition classify (line : string) : attempt pending :=
  if (String.length line =? 0)%nat then Done NextLine
  else if isControlResponse line then
    match parseControlResponse line with
    | Err e => Done (SendError e)
    | Ok resp => Done (RouteResponse resp)
    end
  else
    match parseStreamMessage line with
    | Err e => Done (SendError e)
    | Ok streamMsg =>
        match parseMessage (StreamMessage_Type streamMsg)
                           (StreamMessage_Message streamMsg) with
        | Done (Err e) => Done (SendError e)
        | Done (Ok None) => Done NextLine
        | Done (Ok (Some msg)) => Done (SendMsg msg)
        | WouldBlock => WouldBlock
        | Panic => Panic
        end
    end.

(** Where the reader goroutine stands. *)
Inductive reader_pc : Type :=
| AtScan                       (* about to call [scanner.Scan()] *)
| Holding (p : pending)        (* at the send the line calls for *)
| AtScanErr (e : error)        (* past the loop, reporting [scanner.Err()] *)
| Returned.                    (* the goroutine is over *)

(** The child's standard output still to come: its lines, and how the
    stream ends, at end-of-file or with a read error. *)
Record reader : Type := mkReader {
  stdout_lines : list string;
  stdout_err : option error;
  pc : reader_pc
}.

(** What a step of the reader did to the queues. *)
Inductive event : Type :=
| EvNone
| EvMessage (m : Message)             (* pushed on [t.messages] *)
| EvError (e : error)                 (* pushed on [t.errors] *)
| EvRouted (resp : ControlResponse)   (* put in the slot of its identifier *)
| EvDropped (resp : ControlResponse). (* no slot under its identifier *)

Definition ErrTooLong : error := errorString "bufio.Scanner: token too long".

(** One step of [readMessages].  A line the scanner's buffer cannot hold
    ends the scan with [ErrTooLong]. *)
Definition reader_step (pick_done : bool) (t : transport) (r : reader)
    : attempt (event * transport * reader) :=
  match pc r with
  | AtScan =>
      match stdout_lines r with
      | [] =>
          match stdout_err r with
          | None => Done (EvNone, t, mkReader [] None Returned)
          | Some err =>
              Done (EvNone, t,
                    mkReader [] None
                      (AtScanErr
                         (NewCLIConnectionError "Error reading stdout" err)))
          end
      | line :: rest =>
          if maxBufferSize <=? Z.of_nat (String.length line) then
            Done (EvNone, t,
                  mkReader [] None
                    (AtScanErr
                       (NewCLIConnectionError "Error reading stdout"
                                              ErrTooLong)))
          else if done t then
            Done (EvNone, t, mkReader rest (stdout_err r) Returned)
          else
            match classify line with
            | Done NextLine =>
                Done (EvNone, t, mkReader rest (stdout_err r) AtScan)
            | Done p =>
                Done (EvNone, t, mkReader rest (stdout_err r) (Holding p))
            | WouldBlock => WouldBlock
            | Panic => Panic
            end
      end
  | Holding (SendError e) =>
      match select_send pick_done (errors t) e t with
      | Done (Some ch) =>
          Done (EvError e, set_errors ch t,
                mkReader (stdout_lines r) (stdout_err r) AtScan)
      | Done None =>
          Done (EvNone, t, mkReader (stdout_lines r) (stdout_err r) Returned)
      | WouldBlock => WouldBlock
      | Panic => Panic
      end
  | Holding (SendMsg m) =>
      match select_send pick_done (messages t) m t with
      | Done (Some ch) =>
          Done (EvMessage m, set_messages ch t,
                mkReader (stdout_lines r) (stdout_err r) AtScan)
      | Done None =>
          Done (EvNone, t, mkReader (stdout_lines r) (stdout_err r) Returned)
      | WouldBlock => WouldBlock
      | Panic => Panic
      end
  | Holding (RouteResponse resp) =>
      match controlResp t !! ControlResponse_RequestID resp with
      | Some ch =>
          match chan_send ch resp with
          | Done ch' =>
              Done (EvRouted resp,
                    set_controlResp
                      (<[ControlResponse_RequestID resp := ch']>
                         (controlResp t)) t,
                    mkReader (stdout_lines r) (stdout_err r) AtScan)
          | WouldBlock => WouldBlock
          | Panic => Panic
          end
      | None =>
          Done (EvDropped resp, t,
                mkReader (stdout_lines r) (stdout_err r) AtScan)
      end
  | Holding NextLine =>
      Done (EvNone, t, mkReader (stdout_lines r) (stdout_err r) AtScan)
  | AtScanErr e =>
      match select_send pick_done (errors t) e t with
      | Done (Some ch) =>
          Done (EvError e, set_errors ch t,
                mkReader (stdout_lines r) (stdout_err r) Returned)
      | Done None =>
          Done (EvNone, t, mkReader (stdout_lines r) (stdout_err r) Returned)
      | WouldBlock => WouldBlock
      | Panic => Panic
      end
  | Returned => Done (EvNone, t, r)
  end.

(** The reader run on its own, one scheduler pick per step; the events
    of the steps are collected in order. *)
Fixpoint reader_steps (picks : list bool) (t : transport) (r : reader)
    : attempt (list event * transport * reader) :=
  match picks with
  | [] => Done ([], t, r)
  | pick_done :: picks' =>
      match reader_step pick_done t r with
      | Done (ev, t', r') =>
          match reader_steps picks' t' r' with
          | Done (evs, t'', r'') => Done (ev :: evs, t'', r'')
          | WouldBlock => WouldBlock
          | Panic => Panic
          end
      | WouldBlock => WouldBlock
      | Panic => Panic
      end
  end.

(** The reader among the other goroutines: between two of its steps the
    rest of the program may change the transport in any way at all. *)
Inductive run : transport → reader → list event → transport → reader → Prop :=
| run_refl t r : run t r [] t r
| run_reader pick_done t r ev t1 r1 evs t2 r2 :
    reader_step pick_done t r = Done (ev, t1, r1) →
    run t1 r1 evs t2 r2 →
    run t r (ev :: evs) t2 r2
| run_others t t1 r evs t2 r2 :
    run t1 r evs t2 r2 →
    run t r evs t2 r2.

(** The messages among the events, in order. *)
Definition pushed_messages (evs : list event) : list Message :=
  omap (fun ev => match ev with EvMessage m => Some m | _ => None end) evs.

Definition pushed_errors (evs : list event) : list error :=
  omap (fun ev => match ev with EvError e => Some e | _ => None end) evs.

(** *** The diagnostic reader *)

(** [io.EOF] *)
Definition EOF : error := errorString "EOF".

Definition isEOF (e : error) : bool :=
  match e with
  | errorString s => String.eqb s "EOF"
  | _ => false
  end.

(** What one [reader.Read(buf)] returned: the [n] bytes read into the
    4096-byte [buf], and the error. *)
Record stderrRead : Type := mkStderrRead {
  read_data : list byte;
  read_err : option error
}.

(** Lines 689-695: the chunk goes into the buffer when it fits. *)
Definition stderrWrite (chunk : list byte) (t : transport) : transport :=
  if (0 <? length chunk)%nat then
    if Z.of_nat (length (stderrBuf t)) + Z.of_nat (length chunk)
       <=? maxStderrSize
    then set_stderrBuf (stderrBuf t ++ chunk) t
    else t
  else t.

Inductive stderr_pc : Type :=
| AtRead
| AtReadErr (e : error)
| StderrReturned.

Definition readStderr_step (pick_done : bool) (t : transport)
    (reads : list stderrRead) (pc : stderr_pc)
    : attempt (transport * list stderrRead * stderr_pc) :=
  match pc with
  | AtRead =>
      if done t then Done (t, reads, StderrReturned)
      else
        match reads with
        | [] => WouldBlock
        | rd :: rest =>
            let t := stderrWrite (read_data rd) t in
            match read_err rd with
            | None => Done (t, rest, AtRead)
            | Some err =>
                if negb (isEOF err) then
                  Done (t, rest,
                        AtReadErr
                          (NewCLIConnectionError "Error reading stderr" err))
                else Done (t, rest, StderrReturned)
            end
        end
  | AtReadErr e =>
      match select_send pick_done (errors t) e t with
      | Done (Some ch) => Done (set_errors ch t, reads, StderrReturned)
      | Done None => Done (t, reads, StderrReturned)
      | WouldBlock => WouldBlock
      | Panic => Panic
      end
  | StderrReturned => Done (t, reads, StderrReturned)
  end.

(** The buffer after the reader took the chunks in, one read each. *)
Definition readStderr_chunks (chunks : list (list byte)) (t : transport)
    : transport :=
  fold_left (fun t chunk => stderrWrite chunk t) chunks t.

(** *** Waiting for the child, and draining its diagnostics *)

Definition string_of_bytes (bs : list byte) : string :=
  string_of_list_byte bs.

(** What [t.cmd.Wait()] returned. *)
Inductive waitStatus : Type :=
| WaitOk
| WaitExitError (exitCode : Z)
| WaitFailed (err : error).

Definition wait (status : waitStatus) (t : transport) : option error :=
  let stderr := string_of_bytes (stderrBuf t) in
  match status with
  | WaitOk => None
  | WaitExitError exitCode => Some (NewProcessError exitCode "" stderr)
  | WaitFailed err => Some (NewCLIConnectionError "Process failed" err)
  end.

(** The channel that fires in the [select] of [collectStderr], with the
    buffer as it is read then ([seen] at [Len()], [buf] at [String()]). *)
Inductive poll : Type :=
| TimerC (buf : list byte)
| TickerC (seen : list byte) (buf : list byte).

Fixpoint collectStderr_loop (lastSize stableCount : Z) (polls : list poll)
    : option string :=
  match polls with
  | [] => None
  | TimerC buf :: _ => Some (string_of_bytes buf)
  | TickerC seen buf :: rest =>
      let currentSize := Z.of_nat (length seen) in
      if currentSize =? lastSize then
        let stableCount := stableCount + 1 in
        if 3 <=? stableCount then Some (string_of_bytes buf)
        else collectStderr_loop lastSize stableCount rest
      else collectStderr_loop currentSize 0 rest
  end.

Definition collectStderr (polls : list poll) : option string :=
  collectStderr_loop 0 0 polls.

(** *** Several callers of [close] at once

    [closeOnce.Do] lets the first caller in and parks every other caller
    until the function has returned; a caller that arrives later returns
    at once.  Each caller runs the statements of the function one at a
    time, and the callers are interleaved in any order. *)
Inductive closer_pc : Type :=
| Calling                               (* at [t.closeOnce.Do] *)
| Inside (rest : list teardownStep)     (* in the function, [rest] to go *)
| CloserReturned (ran : bool) (err : option error).
                                        (* back in the caller of [close];
                                           [ran]: it ran the function *)

Definition closer_step (t : transport) (c : closer_pc)
    : attempt (transport * closer_pc) :=
  match c with
  | Calling =>
      match closeOnce t with
      | OnceIdle => Done (set_closeOnce OnceRunning t, Inside teardown)
      | OnceRunning => WouldBlock
      | OnceDone => Done (t, CloserReturned false None)
      end
  | Inside [] => Done (set_closeOnce OnceDone t, CloserReturned true None)
  | Inside (a :: rest) =>
      match runTeardownStep a t with
      | Done t' => Done (t', Inside rest)
      | WouldBlock => WouldBlock
      | Panic => Panic
      end
  | CloserReturned _ _ => WouldBlock
  end.

(** What the other goroutines (readers, senders, consumers) leave alone:
    only [close] touches the once, [t.done] and the queues' closed flags. *)
Definition others_keep (t t' : transport) : Prop :=
  closeOnce t' = closeOnce t ∧ done t' = done t
  ∧ chan_closed (messages t') = chan_closed (messages t)
  ∧ chan_closed (errors t') = chan_closed (errors t).

(** [closing k t cs t' cs']: the callers [cs] of [close] and the other
    goroutines take the transport from [t] to [t'], the callers making
    [k] steps between them. *)
Inductive closing
    : nat → transport → list closer_pc → transport → list closer_pc → Prop :=
| closing_refl t cs : closing 0 t cs t cs
| closing_closer k i c t cs t1 c1 t2 cs2 :
    cs !! i = Some c →
    closer_step t c = Done (t1, c1) →
    closing k t1 (<[i := c1]> cs) t2 cs2 →
    closing (S k) t cs t2 cs2
| closing_others k t cs t1 t2 cs2 :
    others_keep t t1 →
    closing k t1 cs t2 cs2 →
    closing k t cs t2 cs2.

(** The callers run by a schedule: each entry names the caller that
    takes the next step.  A step that cannot be taken ends the run. *)
Fixpoint closers_run (schedule : list nat) (t : transport)
    (cs : list closer_pc) : option (transport * list closer_pc) :=
  match schedule with
  | [] => Some (t, cs)
  | i :: schedule' =>
      match cs !! i with
      | Some c =>
          match closer_step t c with
          | Done (t1, c1) => closers_run schedule' t1 (<[i := c1]> cs)
          | _ => None
          end
      | None => None
      end
  end.

Definition ran_teardown (c : closer_pc) : nat :=
  match c with
  | Calling => 0
  | Inside _ => 1
  | CloserReturned ran _ => if ran then 1 else 0
  end.

(** How many callers entered the function handed to [closeOnce.Do]. *)
Definition teardowns (cs : list closer_pc) : nat :=
  sum_list (ran_teardown <$> cs).

Definition has_returned (c : closer_pc) : Prop :=
  ∃ ran err, c = CloserReturned ran err.

End Transport.

(** ** The session client (client.go) *)

Section Client.
Context `{GoValues, JSONSyntax, !EncodingJSON}.

Record Client : Type := mkClient {
  Client_transport : option transport;      (* [nil] until [Connect] *)
  Client_options : ClaudeCodeOptions;
  Client_messages : list Message;
  Client_closed : bool;
  Client_connected : bool
}.

Definition NewClient (options : option ClaudeCodeOptions) : Client :=
  let options := match options with
                 | None => emptyOptions
                 | Some o => o
                 end in
  mkClient None options [] false false.

Definition ErrAlreadyConnected : error := Errorf "client is already connected".
Definition ErrClosed : error := Errorf "client is closed".
Definition ErrNotConnected : error :=
  Errorf "client is not connected, call Connect() first".
Definition ErrChannelClosed : error := Errorf "message channel closed".

Definition with_transport (t : transport) (c : Client) : Client :=
  mkClient (Some t) (Client_options c) (Client_messages c)
           (Client_closed c) (Client_connected c).

Definition Connect (os : launch) (prompt : string) (c : Client)
    : option error * Client :=
  if Client_connected c then (Some ErrAlreadyConnected, c)
  else if Client_closed c then (Some ErrClosed, c)
  else
    match newTransport os (Client_options c) true with
    | Err e => (Some e, c)
    | Ok transport =>
        let c := mkClient (Some transport) (Client_options c)
                          (Client_messages c) (Client_closed c) true in
        if negb (String.eqb prompt "") then
          let msg := MsgUser (mkUserMessage MessageRoleUser prompt) in
          let '(err, transport) :=
            sendMessage msg "" (Options_SessionID (Client_options c))
                        transport in
          (err, with_transport transport c)
        else (None, c)
    end.

(** Past its guard, [SendMessage] uses [c.transport] as it is; with a
    [nil] transport that would be a nil dereference. *)
Definition SendMessage (prompt : string) (c : Client)
    : attempt (option error * Client) :=
  if Client_closed c then Done (Some ErrClosed, c)
  else if negb (Client_connected c) then Done (Some ErrNotConnected, c)
  else
    match Client_transport c with
    | None => Panic
    | Some transport =>
        let msg := MsgUser (mkUserMessage MessageRoleUser prompt) in
        let '(err, transport) :=
          sendMessage msg "" (Options_SessionID (Client_options c))
                      transport in
        Done (err, with_transport transport c)
    end.

Definition SendInterrupt (now : Z) (w : waiting) (c : Client)
    : attempt (option error * Client) :=
  if Client_closed c then Done (Some ErrClosed, c)
  else if negb (Client_connected c) then Done (Some ErrNotConnected, c)
  else
    match Client_transport c with
    | None => Panic
    | Some transport =>
        match sendInterrupt now w transport with
        | Done (err, transport) => Done (err, with_transport transport c)
        | WouldBlock => WouldBlock
        | Panic => Panic
        end
    end.

(** What a channel-returning operation hands back: a channel of its own
    that is already closed, the transport's queue itself, or a channel
    that a goroutine feeds from the transport's queue (up to and
    including the next result message when [untilResult]). *)
Inductive stream : Type :=
| ClosedChannel
| TransportQueue
| Forwarded (untilResult : bool).

Definition not_connected (c : Client) : bool :=
  negb (Client_connected c)
  || match Client_transport c with None => true | Some _ => false end.

Definition Messages (c : Client) : stream :=
  if not_connected c then ClosedChannel else TransportQueue.

Definition Errors (c : Client) : stream :=
  if not_connected c then ClosedChannel else TransportQueue.

Definition GetMessages (c : Client) : list Message := Client_messages c.

Definition StreamMessages (c : Client) : stream :=
  if not_connected c then ClosedChannel else Forwarded false.

Definition ReceiveResponse (c : Client) : stream :=
  if not_connected c then ClosedChannel else Forwarded true.

Definition ReceiveMessages (c : Client) : stream := StreamMessages c.

(** What a [select] over the context and the two queues received. *)
Inductive received : Type :=
| RecvCtxDone (err : error)            (* <-ctx.Done() *)
| RecvErr (err : option error)         (* <-errChan; [nil] once closed *)
| RecvMsg (msg : option Message).      (* <-msgChan; not [ok] once closed *)

Definition record_message (msg : Message) (c : Client) : Client :=
  mkClient (Client_transport c) (Client_options c)
           (Client_messages c ++ [msg]) (Client_closed c)
           (Client_connected c).

Fixpoint WaitForResult_loop (recvs : list received) (c : Client)
    : option (option ResultMessage * option error * Client) :=
  match recvs with
  | [] => None                                   (* still waiting *)
  | RecvCtxDone err :: _ => Some (None, Some err, c)
  | RecvErr err :: _ => Some (None, err, c)
  | RecvMsg None :: _ => Some (None, Some ErrChannelClosed, c)
  | RecvMsg (Some msg) :: rest =>
      let c := record_message msg c in
      match msg with
      | MsgResult result => Some (Some result, None, c)
      | _ => WaitForResult_loop rest c
      end
  end.

Definition WaitForResult (recvs : list received) (c : Client)
    : option (option ResultMessage * option error * Client) :=
  if not_connected c then Some (None, Some ErrNotConnected, c)
  else WaitForResult_loop recvs c.

(** [MessageIterator.Next]: no guard; it reads [it.client.transport]
    as it is. *)
Definition Next (recv : received) (c : Client)
    : attempt (option Message * option error * Client) :=
  match Client_transport c with
  | None => Panic
  | Some _ =>
      match recv with
      | RecvCtxDone err => Done (None, Some err, c)
      | RecvErr err => Done (None, err, c)
      | RecvMsg None => Done (None, Some ErrChannelClosed, c)
      | RecvMsg (Some msg) => Done (Some msg, None, record_message msg c)
      end
  end.

Definition Close (c : Client) : attempt (option error * Client) :=
  if Client_closed c then Done (None, c)
  else
    let transport := Client_transport c in
    let c := mkClient (Client_transport c) (Client_options c)
                      (Client_messages c) true false in
    match transport with
    | Some t =>
        match close t with
        | Done (err, t') => Done (err, with_transport t' c)
        | WouldBlock => WouldBlock
        | Panic => Panic
        end
    | None => Done (None, c)
    end.

End Client.

(** ** The one-shot query (query.go) *)

Section Query.
Context `{GoValues, JSONSyntax, !EncodingJSON}.

Record QueryResult : Type := mkQueryResult {
  QueryResult_Messages : list Message;
  QueryResult_Result : option ResultMessage;
  QueryResult_Stdout : string;
  QueryResult_Stderr : string
}.

(** [strings.Join] *)
Definition Join (elems : list string) (sep : string) : string :=
  match elems with
  | [] => ""
  | [e] => e
  | e :: rest => fold_left (fun b s => b +:+ sep +:+ s) rest e
  end.

(** What the [select] of the loop of [Query] received. *)
Inductive selected : Type :=
| SelCtxDone (err : error)             (* <-ctx.Done() *)
| SelTimeout                           (* <-timeout.C *)
| SelErr (err : option error)          (* <-errorChan *)
| SelMsg (msg : option Message)        (* <-messageChan, with [ok] *)
| SelWaitDone (err : option error).    (* <-waitDone *)

(** The loop: the messages and the result gathered, or the error the
    function returns with; nothing while it is still waiting. *)
Fixpoint Query_loop (sels : list selected) (msgs : list Message)
    (res : option ResultMessage)
    : option (result (list Message * option ResultMessage)) :=
  match sels with
  | [] => None
  | SelCtxDone err :: _ => Some (Err err)
  | SelTimeout :: _ => Some (Err (Errorf "query timeout after 30 minutes"))
  | SelErr (Some err) :: _ => Some (Err err)
  | SelErr None :: rest => Query_loop rest msgs res
  | SelMsg (Some msg) :: rest =>
      let msgs := msgs ++ [msg] in
      match msg with
      | MsgResult r => Query_loop rest msgs (Some r)
      | _ => Query_loop rest msgs res
      end
  | SelMsg None :: rest => Query_loop rest msgs res
  | SelWaitDone (Some err) :: _ => Some (Err err)
  | SelWaitDone None :: _ => Some (Ok (msgs, res))
  end.

(** Lines 81-91: the text of the text blocks of the assistant messages. *)
Definition textParts (messages : list Message) : list string :=
  fold_left
    (fun textParts msg =>
       match msg with
       | MsgAssistantPtr m =>
           fold_left
             (fun textParts block =>
                match block with
                | BlockText text => textParts ++ [TextBlock_Text text]
                | _ => textParts
                end)
             (AssistantMessage_Content m) textParts
       | _ => textParts
       end)
    messages [].

(** [os] is what the operating system answers at launch, [sels] what the
    loop receives, [polls] what [collectStderr] sees. *)
Definition Query (os : launch) (prompt : string)
    (options : option ClaudeCodeOptions) (sels : list selected)
    (polls : list poll) : option (result QueryResult) :=
  let options := match options with
                 | None => emptyOptions
                 | Some o => o
                 end in
  match newTransportForQuery os options prompt with
  | Err err => Some (Err err)
  | Ok transport =>
      match closeStdin transport with
      | (Some err, _) => Some (Err err)
      | (None, transport) =>
          match Query_loop sels [] None with
          | None => None
          | Some (Err err) => Some (Err err)
          | Some (Ok (msgs, res)) =>
              match collectStderr polls with
              | None => None
              | Some stderr =>
                  let textParts := textParts msgs in
                  Some (Ok {| QueryResult_Messages := msgs;
                              QueryResult_Result := res;
                              QueryResult_Stderr := stderr;
                              QueryResult_Stdout :=
                                if (0 <? length textParts)%nat
                                then Join textParts newline
                                else "" |})
              end
          end
      end
  end.

(** The specification's words for the final text: the text of every
    text block of every assistant message, in order of arrival, joined
    by newlines. *)
Definition texts_of_blocks (blocks : list ContentBlock) : list string :=
  omap (fun block => match block with
                     | BlockText text => Some (TextBlock_Text text)
                     | _ => None
                     end) blocks.

Definition texts_of_turns (turns : list AssistantMessage) : list string :=
  concat (map (fun m => texts_of_blocks (AssistantMessage_Content m)) turns).

Definition newline_join (texts : list string) : string :=
  String.concat newline texts.

End Query.

(** ** A reference decoder

    The development is stated for any [encoding/json].  To run the model
    on the lines the mock CLIs of the test-suite print, this module
    supplies one: a JSON reader for objects, arrays, strings with the
    single-character escapes, number literals, booleans and null, and
    decoders into the package's structs that match keys exactly.  A
    number is kept as its literal, an [interface{}] as the value read. *)
Module JSON.

#[warnings="-register-all"]
Inductive value : Type :=
| Null
| Bool (b : bool)
| Number (literal : string)
| Str (s : string)
| Array (elems : list (string * value))               (* text, value *)
| Object (members : list (string * (string * value))). (* key, text, value *)

Definition is_space (c : ascii) : bool :=
  match c with
  | " "%char | "009"%char | "010"%char | "013"%char => true
  | _ => false
  end.

Fixpoint skip_space (s : string) : string :=
  match s with
  | String c rest => if is_space c then skip_space rest else s
  | EmptyString => s
  end.

(** [expect lit s]: [s] without its prefix [lit]. *)
Fixpoint expect (lit s : string) : option string :=
  match lit, s with
  | EmptyString, _ => Some s
  | String a lit', String b s' =>
      if Ascii.eqb a b then expect lit' s' else None
  | String _ _, EmptyString => None
  end.

(** The double quote, by its code. *)
Definition dquote : ascii := "034"%char.

Definition unescape (c : ascii) : option ascii :=
  if Ascii.eqb c dquote then Some dquote else
  match c with
  | "\"%char => Some "\"%char
  | "/"%char => Some "/"%char
  | "b"%char => Some "008"%char
  | "f"%char => Some "012"%char
  | "n"%char => Some "010"%char
  | "r"%char => Some "013"%char
  | "t"%char => Some "009"%char
  | _ => None
  end.

(** The characters of a string literal after its opening quote, and
    what follows the closing quote. *)
Fixpoint string_body (s : string) : option (string * string) :=
  match s with
  | EmptyString => None
  | String c rest =>
      if Ascii.eqb c dquote then Some ("", rest)
      else if Ascii.eqb c "\" then
        match rest with
        | String e rest' =>
            match unescape e, string_body rest' with
            | Some c', Some (str, after) => Some (String c' str, after)
            | _, _ => None
            end
        | EmptyString => None
        end
      else if (nat_of_ascii c <? 32)%nat then None
      else
        match string_body rest with
        | Some (str, after) => Some (String c str, after)
        | None => None
        end
  end.

Definition is_digit (c : ascii) : bool :=
  (48 <=? nat_of_ascii c)%nat && (nat_of_ascii c <=? 57)%nat.

Definition in_number (c : ascii) : bool :=
  is_digit c
  || match c with
     | "-"%char | "+"%char | "."%char | "e"%char | "E"%char => true
     | _ => false
     end.

Fixpoint number_literal (s : string) : string * string :=
  match s with
  | String c rest =>
      if in_number c then
        let '(lit, after) := number_literal rest in (String c lit, after)
      else ("", s)
  | EmptyString => ("", s)
  end.

(** The text [s] had before [rest] was left of it. *)
Definition consumed (s rest : string) : string :=
  String.substring 0 (String.length s - String.length rest) s.

Fixpoint parse_value (fuel : nat) (s : string) : option (value * string) :=
  match fuel with
  | O => None
  | S fuel =>
      match skip_space s with
      | EmptyString => None
      | String c rest as s' =>
          if Ascii.eqb c "n" then
            after ← expect "null" s'; Some (Null, after)
          else if Ascii.eqb c "t" then
            after ← expect "true" s'; Some (Bool true, after)
          else if Ascii.eqb c "f" then
            after ← expect "false" s'; Some (Bool false, after)
          else if Ascii.eqb c dquote then
            '(str, after) ← string_body rest; Some (Str str, after)
          else if Ascii.eqb c "[" then
            match skip_space rest with
            | String "]" after => Some (Array [], after)
            | _ => '(elems, after) ← parse_elems fuel rest;
                   Some (Array elems, after)
            end
          else if Ascii.eqb c "{" then
            match skip_space rest with
            | String "}" after => Some (Object [], after)
            | _ => '(members, after) ← parse_members fuel rest;
                   Some (Object members, after)
            end
          else if is_digit c || Ascii.eqb c "-" then
            let '(lit, after) := number_literal s' in
            Some (Number lit, after)
          else None
      end
  end
with parse_elems (fuel : nat) (s : string)
    : option (list (string * value) * string) :=
  match fuel with
  | O => None
  | S fuel =>
      let s := skip_space s in
      '(v, rest) ← parse_value fuel s;
      let elem := (consumed s rest, v) in
      match skip_space rest with
      | String "," rest' =>
          '(more, after) ← parse_elems fuel rest'; Some (elem :: more, after)
      | String "]" after => Some ([elem], after)
      | _ => None
      end
  end
with parse_members (fuel : nat) (s : string)
    : option (list (string * (string * value)) * string) :=
  match fuel with
  | O => None
  | S fuel =>
      match skip_space s with
      | String c rest =>
          if negb (Ascii.eqb c dquote) then None else
          '(key, rest) ← string_body rest;
          match skip_space rest with
          | String ":" rest =>
              let rest := skip_space rest in
              '(v, rest') ← parse_value fuel rest;
              let member := (key, (consumed rest rest', v)) in
              match skip_space rest' with
              | String "," rest'' =>
                  '(more, after) ← parse_members fuel rest'';
                  Some (member :: more, after)
              | String "}" after => Some ([member], after)
              | _ => None
              end
          | _ => None
          end
      | EmptyString => None
      end
  end.

(** A whole document: one value, white space around it. *)
Definition parse (data : string) : option value :=
  match parse_value (2 * String.length data + 4) data with
  | Some (v, rest) =>
      match skip_space rest with
      | EmptyString => Some v
      | _ => None
      end
  | None => None
  end.

Definition SyntaxError : error :=
  errorString "invalid character looking for beginning of value".

Definition typeError (target : string) : error :=
  errorString ("json: cannot unmarshal into Go value of type " +:+ target).

Definition syntax_check (data : string) : option error :=
  match parse data with
  | Some _ => None
  | None => Some SyntaxError
  end.

Definition value_text (data : string) : string :=
  let s := skip_space data in
  match parse_value (2 * String.length data + 4) s with
  | Some (_, rest) => consumed s rest
  | None => s
  end.

Definition unmarshal_with {T : Type} (decode : value → result T)
    (data : string) : result T :=
  match syntax_check data with
  | Some e => Err e
  | None =>
      match parse data with
      | Some v => decode v
      | None => Err SyntaxError
      end
  end.

Definition bind {A B : Type} (r : result A) (k : A → result B) : result B :=
  match r with
  | Ok a => k a
  | Err e => Err e
  end.

(** The member a struct field reads: the last one under its key. *)
Definition member (key : string) (members : list (string * (string * value)))
    : option (string * value) :=
  snd <$> last (filter (fun m => m.1 = key) members).

Definition get_string (key : string) members : result string :=
  match member key members with
  | None | Some (_, Null) => Ok ""
  | Some (_, Str s) => Ok s
  | Some _ => Err (typeError "string")
  end.

Definition get_bool (key : string) members : result bool :=
  match member key members with
  | None | Some (_, Null) => Ok false
  | Some (_, Bool b) => Ok b
  | Some _ => Err (typeError "bool")
  end.

Fixpoint digits (s : string) (acc : Z) : option Z :=
  match s with
  | EmptyString => Some acc
  | String c rest =>
      if is_digit c then digits rest (10 * acc + (Z.of_nat (nat_of_ascii c) - 48))
      else None
  end.

Definition int_of_literal (lit : string) : option Z :=
  match lit with
  | String "-" rest => Z.opp <$> digits rest 0
  | _ => digits lit 0
  end.

Definition get_int (key : string) members : result Z :=
  match member key members with
  | None | Some (_, Null) => Ok 0
  | Some (_, Number lit) =>
      match int_of_literal lit with
      | Some n => Ok n
      | None => Err (typeError "int")
      end
  | Some _ => Err (typeError "int")
  end.

Definition get_float (key : string) members : result string :=
  match member key members with
  | None | Some (_, Null) => Ok "0"
  | Some (_, Number lit) => Ok lit
  | Some _ => Err (typeError "float64")
  end.

Definition get_any (key : string) members : value :=
  match member key members with
  | None => Null
  | Some (_, v) => v
  end.

Definition get_raw (key : string) members : string :=
  match member key members with
  | None => ""
  | Some (text, _) => text
  end.

Definition get_raws (key : string) members : result (list string) :=
  match member key members with
  | None | Some (_, Null) => Ok []
  | Some (_, Array elems) => Ok (fst <$> elems)
  | Some _ => Err (typeError "[]json.RawMessage")
  end.

Definition get_map (key : string) members : result (gmap string value) :=
  match member key members with
  | None | Some (_, Null) => Ok ∅
  | Some (_, Object ms) => Ok (list_to_map ((fun m => (m.1, m.2.2)) <$> reverse ms))
  | Some _ => Err (typeError "map[string]interface {}")
  end.

(** A struct is read from an object; [null] leaves it at its zero. *)
Definition struct {T : Type} (target : string) (zero : T)
    (fields : list (string * (string * value)) → result T) (v : value)
    : result T :=
  match v with
  | Object members => fields members
  | Null => Ok zero
  | _ => Err (typeError target)
  end.

Definition get_struct {T : Type} (target : string) (zero : T)
    (fields : list (string * (string * value)) → result T)
    (key : string) members : result T :=
  match member key members with
  | None => Ok zero
  | Some (_, v) => struct target zero fields v
  end.

#[export] Instance values : GoValues := {| any := value; float64 := string |}.

#[export] Instance syntax : JSONSyntax :=
  {| checkValid := syntax_check; valueBytes := value_text |}.

Lemma unmarshal_with_invalid {T : Type} (decode : value → result T) data e :
  syntax_check data = Some e → unmarshal_with decode data = Err e.
Proof. intros Hbad. unfold unmarshal_with. by rewrite Hbad. Qed.

Definition unmarshaler {T : Type} (decode : value → result T)
    : Unmarshaler T :=
  {| Unmarshal := unmarshal_with decode;
     Unmarshal_invalid := unmarshal_with_invalid decode |}.

Definition decode_typeCheck : value → result typeCheck :=
  struct "struct" (mkTypeCheck "") (fun ms =>
    bind (get_string "type" ms) (fun ty => Ok (mkTypeCheck ty))).

Definition decode_subtypeBase : value → result subtypeBase :=
  struct "struct" (mkSubtypeBase "") (fun ms =>
    bind (get_string "subtype" ms) (fun st => Ok (mkSubtypeBase st))).

Definition decode_StreamMessage : value → result StreamMessage :=
  struct "StreamMessage" (mkStreamMessage "" "") (fun ms =>
    bind (get_string "type" ms) (fun ty =>
    Ok (mkStreamMessage ty (get_raw "message" ms)))).

Definition decode_ControlResponse : value → result ControlResponse :=
  struct "ControlResponse" (mkControlResponse "" "" false "") (fun ms =>
    bind (get_string "type" ms) (fun ty =>
    bind (get_string "request_id" ms) (fun id =>
    bind (get_struct "struct" (false, "")
            (fun rs => bind (get_bool "success" rs) (fun ok =>
                       bind (get_string "error" rs) (fun err =>
                       Ok (ok, err))))
            "response" ms) (fun response =>
    Ok (mkControlResponse ty id response.1 response.2))))).

Definition decode_UserMessage : value → result UserMessage :=
  struct "UserMessage" (mkUserMessage "" "") (fun ms =>
    bind (get_string "role" ms) (fun role =>
    bind (get_string "content" ms) (fun content =>
    Ok (mkUserMessage role content)))).

Definition decode_SystemMessage : value → result SystemMessage :=
  struct "SystemMessage" (mkSystemMessage "" "" Null) (fun ms =>
    bind (get_string "role" ms) (fun role =>
    bind (get_string "subtype" ms) (fun subtype =>
    Ok (mkSystemMessage role subtype (get_any "data" ms))))).

Definition zeroUsage : ResultUsage := mkResultUsage 0 0 0 0 0.
Definition zeroCost : ResultCost := mkResultCost "0" "0" "0" "0" "0" "0".
Definition zeroData : ResultMessageData :=
  mkResultMessageData zeroUsage zeroCost "" false.

Definition decode_ResultUsage (ms : list (string * (string * value)))
    : result ResultUsage :=
  bind (get_int "inputTokens" ms) (fun i =>
  bind (get_int "outputTokens" ms) (fun o =>
  bind (get_int "backgroundTokens" ms) (fun b =>
  bind (get_int "cacheCreationTokens" ms) (fun cc =>
  bind (get_int "cacheReadTokens" ms) (fun cr =>
  Ok (mkResultUsage i o b cc cr)))))).

Definition decode_ResultCost (ms : list (string * (string * value)))
    : result ResultCost :=
  bind (get_float "inputTokenCost" ms) (fun i =>
  bind (get_float "outputTokenCost" ms) (fun o =>
  bind (get_float "backgroundTokenCost" ms) (fun b =>
  bind (get_float "cacheCreationCost" ms) (fun cc =>
  bind (get_float "cacheReadCost" ms) (fun cr =>
  bind (get_float "totalCost" ms) (fun total =>
  Ok (mkResultCost i o b cc cr total))))))).

Definition decode_ResultMessageData (ms : list (string * (string * value)))
    : result ResultMessageData :=
  bind (get_struct "ResultUsage" zeroUsage decode_ResultUsage "usage" ms)
    (fun usage =>
  bind (get_struct "ResultCost" zeroCost decode_ResultCost "cost" ms)
    (fun cost =>
  bind (get_string "sessionId" ms) (fun session =>
  bind (get_bool "interruptRequested" ms) (fun interrupt =>
  Ok (mkResultMessageData usage cost session interrupt))))).

Definition decode_ResultMessage : value → result ResultMessage :=
  struct "ResultMessage" (mkResultMessage "" zeroData) (fun ms =>
    bind (get_string "role" ms) (fun role =>
    bind (get_struct "ResultMessageData" zeroData decode_ResultMessageData
            "data" ms) (fun data =>
    Ok (mkResultMessage role data)))).

(** Into a pointer: [null] leaves it [nil]. *)
Definition decode_assistantAux (v : value) : result (option assistantAux) :=
  match v with
  | Null => Ok None
  | _ =>
      struct "struct" None (fun ms =>
        bind (get_raws "content" ms) (fun content =>
        bind (get_string "role" ms) (fun role =>
        Ok (Some (mkAssistantAux content role))))) v
  end.

Definition decode_TextBlock : value → result TextBlock :=
  struct "TextBlock" (mkTextBlock "" "") (fun ms =>
    bind (get_string "type" ms) (fun ty =>
    bind (get_string "text" ms) (fun text =>
    Ok (mkTextBlock ty text)))).

Definition decode_ToolUseBlock : value → result ToolUseBlock :=
  struct "ToolUseBlock" (mkToolUseBlock "" "" "" ∅) (fun ms =>
    bind (get_string "type" ms) (fun ty =>
    bind (get_string "id" ms) (fun id =>
    bind (get_string "name" ms) (fun name =>
    bind (get_map "input" ms) (fun input =>
    Ok (mkToolUseBlock ty id name input)))))).

Definition decode_ToolResultBlock : value → result ToolResultBlock :=
  struct "ToolResultBlock" (mkToolResultBlock "" "" false Null) (fun ms =>
    bind (get_string "type" ms) (fun ty =>
    bind (get_string "tool_use_id" ms) (fun id =>
    bind (get_bool "is_error" ms) (fun is_error =>
    Ok (mkToolResultBlock ty id is_error (get_any "content" ms)))))).

(** Encoding, for what the client writes: a string literal, the user
    turn envelope and the control request. *)
Fixpoint escape (s : string) : string :=
  match s with
  | EmptyString => ""
  | String c rest =>
      (if Ascii.eqb c dquote || Ascii.eqb c "\" then String "\" (String c "")
       else if Ascii.eqb c "010" then "\n"
       else String c "") +:+ escape rest
  end.

Definition quote (s : string) : string :=
  String dquote (escape s) +:+ String dquote "".

Definition encode_InputMessage (input : InputMessage) : result string :=
  match InputMessage_Message input with
  | MsgUser m =>
      Ok ("{" +:+ quote "type" +:+ ":" +:+ quote (InputMessage_Type input)
          +:+ "," +:+ quote "message" +:+ ":{"
          +:+ quote "role" +:+ ":" +:+ quote (UserMessage_Role m)
          +:+ "," +:+ quote "content" +:+ ":" +:+ quote (UserMessage_Content m)
          +:+ "}"
          +:+ (if String.eqb (InputMessage_ParentToolUseID input) "" then ""
               else "," +:+ quote "parent_tool_use_id" +:+ ":"
                    +:+ quote (InputMessage_ParentToolUseID input))
          +:+ (if String.eqb (InputMessage_SessionID input) "" then ""
               else "," +:+ quote "session_id" +:+ ":"
                    +:+ quote (InputMessage_SessionID input))
          +:+ "}")
  | _ => Err (errorString "json: unsupported value")
  end.

Definition encode_ControlRequest (request : ControlRequest) : result string :=
  Ok ("{" +:+ quote "type" +:+ ":" +:+ quote (ControlRequest_Type request)
      +:+ "," +:+ quote "request_id" +:+ ":"
      +:+ quote (ControlRequest_RequestID request)
      +:+ "," +:+ quote "request" +:+ ":{" +:+ quote "subtype" +:+ ":"
      +:+ quote (ControlRequest_Subtype request) +:+ "}}").

#[export] Instance encoding : EncodingJSON :=
  {| json_typeCheck := unmarshaler decode_typeCheck;
     json_subtypeBase := unmarshaler decode_subtypeBase;
     json_StreamMessage := unmarshaler decode_StreamMessage;
     json_ControlResponse := unmarshaler decode_ControlResponse;
     json_UserMessage := unmarshaler decode_UserMessage;
     json_SystemMessage := unmarshaler decode_SystemMessage;
     json_ResultMessage := unmarshaler decode_ResultMessage;
     json_assistantAux := unmarshaler decode_assistantAux;
     json_TextBlock := unmarshaler decode_TextBlock;
     json_ToolUseBlock := unmarshaler decode_ToolUseBlock;
     json_ToolResultBlock := unmarshaler decode_ToolResultBlock;
     json_InputMessage := {| Marshal := encode_InputMessage |};
     json_ControlRequest := {| Marshal := encode_ControlRequest |} |}.

(** A line written with apostrophes for its double quotes. *)
Fixpoint dq (s : string) : string :=
  match s with
  | EmptyString => ""
  | String c rest => String (if Ascii.eqb c "'" then dquote else c) (dq rest)
  end.

End JSON.

(** The lines the mock CLIs of the test-suite print. *)
Definition line_reply : string :=
  JSON.dq "{'type':'assistant','message':{'role':'assistant','content':[{'type':'text','text':'Reply to: Hi'}]}}".

Definition line_two_parts : string :=
  JSON.dq "{'type':'assistant','message':{'role':'assistant','content':[{'type':'text','text':'First part'},{'type':'text','text':'Second part'}]}}".

Definition line_with_tools : string :=
  JSON.dq "{'type':'assistant','message':{'role':'assistant','content':[{'type':'text','text':'Let me calculate that'},{'type':'tool_use','id':'calc1','name':'calculator','input':{'a':5,'b':3}},{'type':'tool_result','tool_use_id':'calc1','content':'8'}]}}".

Definition line_result : string :=
  JSON.dq "{'type':'system','message':{'role':'system','subtype':'result','data':{'usage':{'inputTokens':10,'outputTokens':20,'backgroundTokens':0},'cost':{'inputTokenCost':0.001,'outputTokenCost':0.002,'backgroundTokenCost':0,'totalCost':0.003},'sessionId':'s1','interruptRequested':false}}}".

Definition line_control_response : string :=
  JSON.dq "{'type':'control_response','request_id':'req_1_42','response':{'success':true}}".

Definition line_not_json : string := "not json".

(** *** Sample data

    A launch that succeeds, the transport it gives, and the messages the
    sample lines decode to. *)
Section Samples.
#[local] Existing Instances JSON.values JSON.syntax JSON.encoding.

Definition launch_ok : launch :=
  mkLaunch (Ok "/usr/local/bin/claude") None None None None.

Definition sample_transport : transport :=
  {| cmd := mkCmd "/usr/local/bin/claude" [] ["CLAUDE_CODE_ENTRYPOINT=sdk-go"]
                  "" ProcRunning;
     stdin := mkStdin false "";
     stdout_closed := false;
     stderr_closed := false;
     stderrBuf := [];
     messages := make_chan 100;
     errors := make_chan 10;
     done := false;
     closeOnce := OnceIdle;
     requestID := 0;
     controlResp := ∅;
     isStreaming := true |}.

Definition turn_reply : AssistantMessage :=
  mkAssistantMessage "assistant" [BlockText (mkTextBlock "text" "Reply to: Hi")].

Definition turn_two_parts : AssistantMessage :=
  mkAssistantMessage "assistant"
    [BlockText (mkTextBlock "text" "First part");
     BlockText (mkTextBlock "text" "Second part")].

Definition result_s1 : ResultMessage :=
  mkResultMessage "system"
    (mkResultMessageData (mkResultUsage 10 20 0 0 0)
       (mkResultCost "0.001" "0.002" "0" "0" "0" "0.003") "s1" false).

Definition response_req_1_42 : ControlResponse :=
  mkControlResponse "control_response" "req_1_42" true "".

(** An assistant payload with blocks that do not decode: a text block
    whose text is a number, a block of an unknown kind, a number, null;
    and one that does. *)
Definition payload_mixed_blocks : string :=
  JSON.dq "{'role':'assistant','content':[{'type':'text','text':5},{'type':'nope'},7,null,{'type':'text','text':'ok'}]}".

Definition aux_mixed_blocks : assistantAux :=
  mkAssistantAux
    [JSON.dq "{'type':'text','text':5}"; JSON.dq "{'type':'nope'}"; "7";
     "null"; JSON.dq "{'type':'text','text':'ok'}"]
    "assistant".

(** Frames with nothing for a payload. *)
Definition line_empty_object : string :=
  JSON.dq "{'type':'assistant','message':{}}".

Definition line_null : string := JSON.dq "{'type':'user','message':null}".

Definition line_no_payload : string := JSON.dq "{'type':'system'}".

(** Diagnostic output that fills the buffer to the byte, 2560 reads of
    4096 bytes, and then one byte more. *)
Definition overflowing_reads : list (list byte) :=
  replicate 2560 (replicate 4096 "a"%byte) ++ [["b"%byte]].

End Samples.

(** ** Error texts (errors.go) *)

(** [ClaudeSDKError.Error], which every error struct of the package
    inherits: the message, and after it the cause when there is one
    ([%v] prints a cause through its own [Error]).  An [errorString] reads
    as its text. *)
Fixpoint Error (e : error) : string :=
  match e with
  | errorString s => s
  | CLIConnectionError Message Cause => Message +:+ ": " +:+ Error Cause
  | CLINotFoundError Message _ => Message
  | ProcessError Message _ _ _ => Message
  | CLIJSONDecodeError Message Cause _ => Message +:+ ": " +:+ Error Cause
  | MessageParseError Message Cause _ _ => Message +:+ ": " +:+ Error Cause
  end.

(** [ClaudeSDKError.Unwrap]: the cause; [nil] for the structs built
    without one.  An [errorString] wraps nothing. *)
Definition Unwrap (e : error) : option error :=
  match e with
  | errorString _ => None
  | CLIConnectionError _ Cause => Some Cause
  | CLINotFoundError _ _ => None
  | ProcessError _ _ _ _ => None
  | CLIJSONDecodeError _ Cause _ => Some Cause
  | MessageParseError _ Cause _ _ => Some Cause
  end.

Definition NewCLINotFoundError (searchPaths : list string) : error :=
  let message :=
    "Claude Code CLI not found. Please install it first:" +:+ newline
    +:+ newline
    +:+ "Option 1: Install via npm (requires Node.js 18+):" +:+ newline
    +:+ "  npm install -g @anthropic-ai/claude-code" +:+ newline
    +:+ newline
    +:+ "Option 2: Download from GitHub:" +:+ newline
    +:+ "  https://github.com/anthropics/claude-code/releases" +:+ newline
    +:+ newline
    +:+ "After installation, make sure 'claude-code' is in your PATH." in
  CLINotFoundError message searchPaths.

(** ** Locating the CLI (transport.go) *)

Module OS.

(** What the host answers to [findCLI]: [exec.LookPath], [os.Getenv],
    the error of [os.Stat], and [filepath.Join]. *)
Record host : Type := mkHost {
  LookPath : string → result string;
  Getenv : string → string;
  Stat : string → option error;
  filepath_Join : list string → string
}.

Definition searchPaths (h : host) : list string :=
  [filepath_Join h [Getenv h "HOME"; ".npm-global"; "bin"; "claude"];
   filepath_Join h [Getenv h "HOME"; ".npm"; "bin"; "claude"];
   "/usr/local/bin/claude";
   "/opt/homebrew/bin/claude";
   filepath_Join h [Getenv h "HOME"; ".npm-global"; "bin"; "claude-code"];
   filepath_Join h [Getenv h "HOME"; ".npm"; "bin"; "claude-code"];
   "/usr/local/bin/claude-code";
   "/opt/homebrew/bin/claude-code"].

(** The loop over [searchPaths]: the first path [os.Stat] accepts. *)
Fixpoint firstExisting (h : host) (paths : list string) : option string :=
  match paths with
  | [] => None
  | path :: rest =>
      match Stat h path with
      | None => Some path
      | Some _ => firstExisting h rest
      end
  end.

Definition findCLI (h : host) : result string :=
  match LookPath h "claude" with
  | Ok cliPath => Ok cliPath
  | Err _ =>
      match LookPath h "claude-code" with
      | Ok cliPath => Ok cliPath
      | Err _ =>
          match firstExisting h (searchPaths h) with
          | Some path => Ok path
          | None => Err (NewCLINotFoundError (searchPaths h))
          end
      end
  end.

End OS.

(** The launch on a host whose pipes and [Start] answer as [os] says. *)
Definition launch_on (h : OS.host) (os : launch) : launch :=
  mkLaunch (OS.findCLI h) (StdinPipe_err os) (StdoutPipe_err os)
           (StderrPipe_err os) (Start_err os).

(** ** Server configurations (types.go) *)

Section Config.
Context `{GoValues}.

(** What [encoding/json] stores in an [interface{}]: [nil], a [bool], a
    [float64], a [string], a [[]interface{}] or a
    [map[string]interface{}]. *)
#[warnings="-register-all"]
Inductive jsonValue : Type :=
| JNil
| JBool (b : bool)
| JNumber (f : float64)
| JString (s : string)
| JSlice (elems : list jsonValue)
| JMap (members : gmap string jsonValue).

Definition MCPServerType : Type := string.
Definition MCPServerTypeStdio : MCPServerType := "stdio".
Definition MCPServerTypeSSE : MCPServerType := "sse".
Definition MCPServerTypeHTTP : MCPServerType := "http".

(** A slice or a map is [None] while it is [nil]. *)
Record MCPServerConfig : Type := mkMCPServerConfig {
  MCPServerConfig_Type : MCPServerType;
  MCPServerConfig_Command : string;
  MCPServerConfig_Args : option (list string);
  MCPServerConfig_Env : option (gmap string string);
  MCPServerConfig_URL : string;
  MCPServerConfig_APIKey : string;
  MCPServerConfig_Headers : option (gmap string string)
}.

(** The anonymous struct the format without a [type] is decoded into. *)
Record legacyServer : Type := mkLegacyServer {
  legacy_Command : string;
  legacy_Args : option (list string);
  legacy_Env : option (gmap string string)
}.

(** [s, _ := v.(string)], for [v] read from a map (nothing under the
    key reads as [nil]). *)
Definition assertString (v : option jsonValue) : string :=
  match v with
  | Some (JString s) => s
  | _ => ""
  end.

(** [for k, v := range m { out[k], _ = v.(string) }] into an empty
    [out], the entries of [m] coming in the order [entries]. *)
Definition rangeStrings (entries : list (string * jsonValue))
    : gmap string string :=
  fold_left (fun out kv => <[kv.1 := assertString (Some kv.2)]> out)
            entries ∅.

Class ConfigJSON `{JSONSyntax} : Type := {
  json_rawObject :: Unmarshaler (gmap string jsonValue);
  json_legacyServer :: Unmarshaler legacyServer
}.

Context `{JSONSyntax, !ConfigJSON}.

(** [MCPServerConfig.UnmarshalJSON], on the receiver [c]: the error and
    the receiver afterwards.  Without a string under [type] the document
    is decoded into a struct of its own, which is dropped; that struct
    starts out with the receiver's [Args] and [Env], so a receiver that
    holds a slice or a map there is written through them by the decoder:
    this case is outside the model ([None]). *)
Definition MCPServerConfig_UnmarshalJSON (data : string) (c : MCPServerConfig)
    : option (option error * MCPServerConfig) :=
  match Unmarshal (T := gmap string jsonValue) data with
  | Err err => Some (Some err, c)
  | Ok raw =>
      match raw !! "type" with
      | Some (JString serverType) =>
          let Command := MCPServerConfig_Command c in
          let Args := MCPServerConfig_Args c in
          let Env := MCPServerConfig_Env c in
          let URL := MCPServerConfig_URL c in
          let APIKey := MCPServerConfig_APIKey c in
          let Headers := MCPServerConfig_Headers c in
          if String.eqb serverType MCPServerTypeStdio then
            let Command := assertString (raw !! "command") in
            let Args :=
              match raw !! "args" with
              | Some (JSlice args) =>
                  Some ((fun arg => assertString (Some arg)) <$> args)
              | _ => Args
              end in
            let Env :=
              match raw !! "env" with
              | Some (JMap env) => Some (rangeStrings (map_to_list env))
              | _ => Env
              end in
            Some (None, mkMCPServerConfig serverType Command Args Env
                                          URL APIKey Headers)
          else if String.eqb serverType MCPServerTypeSSE
                  || String.eqb serverType MCPServerTypeHTTP then
            let URL := assertString (raw !! "url") in
            let APIKey := assertString (raw !! "apiKey") in
            let Headers :=
              match raw !! "headers" with
              | Some (JMap headers) =>
                  Some (rangeStrings (map_to_list headers))
              | _ => Headers
              end in
            Some (None, mkMCPServerConfig serverType Command Args Env
                                          URL APIKey Headers)
          else
            Some (None, mkMCPServerConfig serverType Command Args Env
                                          URL APIKey Headers)
      | _ =>
          match MCPServerConfig_Args c, MCPServerConfig_Env c with
          | None, None =>
              Some (match Unmarshal (T := legacyServer) data with
                    | Ok _ => None
                    | Err err => Some err
                    end, c)
          | _, _ => None
          end
      end
  end.

End Config.

(** ** The forwarding goroutines of the client (client.go) *)

Section Forwarding.
Context `{GoValues, JSONSyntax, !EncodingJSON}.

(** What the goroutine of [StreamMessages] meets, one entry per turn of
    its loop: the context is done, or a receive from the transport's
    queue ([None] once it is closed and drained) followed, for a message,
    by the inner [select]: the consumer took the message from [out]
    ([taken]), or the context was done first. *)
Inductive streamed : Type :=
| StreamCtxDone
| StreamMsg (msg : option Message) (taken : bool).

(** The goroutine of [StreamMessages]: the messages it sent on [out],
    whether it has returned ([out] is closed then), and the client. *)
Fixpoint StreamMessages_loop (turns : list streamed) (c : Client)
    : list Message * bool * Client :=
  match turns with
  | [] => ([], false, c)
  | StreamCtxDone :: _ => ([], true, c)
  | StreamMsg None _ :: _ => ([], true, c)
  | StreamMsg (Some msg) taken :: rest =>
      let c := record_message msg c in
      if taken then
        let '(out, closed, c) := StreamMessages_loop rest c in
        (msg :: out, closed, c)
      else ([], true, c)
  end.

(** The goroutine of [ReceiveResponse] has one case more, a receive
    from the error queue, and stops after a result message. *)
Inductive responded : Type :=
| RespCtxDone
| RespErr
| RespMsg (msg : option Message) (taken : bool).

Fixpoint ReceiveResponse_loop (turns : list responded) (c : Client)
    : list Message * bool * Client :=
  match turns with
  | [] => ([], false, c)
  | RespCtxDone :: _ => ([], true, c)
  | RespErr :: _ => ([], true, c)
  | RespMsg None _ :: _ => ([], true, c)
  | RespMsg (Some msg) taken :: rest =>
      let c := record_message msg c in
      if taken then
        match msg with
        | MsgResult _ => ([msg], true, c)
        | _ =>
            let '(out, closed, c) := ReceiveResponse_loop rest c in
            (msg :: out, closed, c)
        end
      else ([], true, c)
  end.

End Forwarding.

(** The reference decoder, for server configurations. *)
Module JSONConfig.
Import JSON.

#[local] Existing Instances JSON.values JSON.syntax.

Fixpoint to_jsonValue (v : value) : jsonValue :=
  match v with
  | Null => JNil
  | Bool b => JBool b
  | Number literal => JNumber literal
  | Str s => JString s
  | Array elems =>
      JSlice ((fix go (l : list (string * value)) : list jsonValue :=
                 match l with
                 | [] => []
                 | (_, e) :: l => to_jsonValue e :: go l
                 end) elems)
  | Object members =>
      JMap ((fix go (l : list (string * (string * value)))
               : gmap string jsonValue :=
               match l with
               | [] => ∅
               | (key, (_, e)) :: l =>
                   let later := go l in
                   match later !! key with
                   | Some _ => later
                   | None => <[key := to_jsonValue e]> later
                   end
               end) members)
  end.

(** A [map[string]interface{}] is read from an object; [null] leaves it
    [nil]. *)
Definition decode_rawObject (v : value) : result (gmap string jsonValue) :=
  match to_jsonValue v with
  | JMap members => Ok members
  | JNil => Ok ∅
  | _ => Err (typeError "map[string]interface {}")
  end.

Definition get_strings (key : string) members
    : result (option (list string)) :=
  match member key members with
  | None | Some (_, Null) => Ok None
  | Some (_, Array elems) =>
      (fix go (l : list (string * value)) : result (option (list string)) :=
         match l with
         | [] => Ok (Some [])
         | (_, Str s) :: l =>
             bind (go l) (fun rest => Ok (cons s <$> rest))
         | (_, Null) :: l =>
             bind (go l) (fun rest => Ok (cons "" <$> rest))
         | _ :: _ => Err (typeError "string")
         end) elems
  | Some _ => Err (typeError "[]string")
  end.

Definition get_string_map (key : string) members
    : result (option (gmap string string)) :=
  match member key members with
  | None | Some (_, Null) => Ok None
  | Some (_, Object ms) =>
      (fix go (l : list (string * (string * value)))
         : result (option (gmap string string)) :=
         match l with
         | [] => Ok (Some ∅)
         | (k, (_, Str s)) :: l =>
             bind (go l) (fun rest => Ok (insert k s <$> rest))
         | (k, (_, Null)) :: l =>
             bind (go l) (fun rest => Ok (insert k "" <$> rest))
         | _ :: _ => Err (typeError "string")
         end) (reverse ms)
  | Some _ => Err (typeError "map[string]string")
  end.

Definition decode_legacyServer : value → result legacyServer :=
  struct "struct" (mkLegacyServer "" None None) (fun ms =>
    bind (get_string "command" ms) (fun command =>
    bind (get_strings "args" ms) (fun args =>
    bind (get_string_map "env" ms) (fun env =>
    Ok (mkLegacyServer command args env))))).

#[export] Instance config : ConfigJSON :=
  {| json_rawObject := unmarshaler decode_rawObject;
     json_legacyServer := unmarshaler decode_legacyServer |}.

End JSONConfig.

(** More sample data: the payload of the result frame, the server
    configurations of the test-suite, a connected client. *)
Section MoreSamples.
#[local] Existing Instances JSON.values JSON.syntax JSON.encoding
  JSONConfig.config.

Definition payload_result : string :=
  JSON.dq "{'role':'system','subtype':'result','data':{'usage':{'inputTokens':10,'outputTokens':20,'backgroundTokens':0},'cost':{'inputTokenCost':0.001,'outputTokenCost':0.002,'backgroundTokenCost':0,'totalCost':0.003},'sessionId':'s1','interruptRequested':false}}".

Definition config_stdio : string :=
  JSON.dq "{'type':'stdio','command':'node','args':['server.js'],'env':{'NODE_ENV':'production'}}".

Definition config_without_type : string :=
  JSON.dq "{'command':'python','args':['-m','server'],'env':{'PYTHONPATH':'/app'}}".

(** The zero value [MCPServerConfig{}]. *)
Definition zeroConfig : MCPServerConfig :=
  mkMCPServerConfig "" "" None None "" "" None.

(** A client connected to the sample transport. *)
Definition sample_client : Client :=
  mkClient (Some sample_transport) emptyOptions [] false true.

End MoreSamples.

(* ===================================================================== *)
(** * Part II. Properties *)
(* ===================================================================== *)

(** ** The codec *)

Section CodecFacts.
Context `{GoValues, JSONSyntax, !EncodingJSON}.

(** The loop of [UnmarshalJSON] keeps, in order, the blocks its
    iterations decode. *)
Lemma decodeBlocks_fold (raws : list RawMessage) (content : list ContentBlock) :
  fold_left
    (fun content raw =>
       match decodeBlock raw with
       | Some block => content ++ [block]
       | None => content
       end) raws content
  = content ++ omap decodeBlock raws.
Proof.
  revert content. induction raws as [|raw raws IH]; intros content; simpl.
  - by rewrite app_nil_r.
  - rewrite IH. destruct (decodeBlock raw); simpl; [|done].
    by rewrite <- app_assoc.
Qed.

Lemma decodeBlocks_omap (raws : list RawMessage) :
  decodeBlocks raws = omap decodeBlock raws.
Proof. unfold decodeBlocks. by rewrite decodeBlocks_fold. Qed.

(** What it takes for a raw block to be decoded into [block]: a type
    discriminator of one of the three kinds, and JSON of that kind's
    shape. *)
Definition block_decodes (raw : RawMessage) (block : ContentBlock) : Prop :=
  ∃ tc, Unmarshal (T := typeCheck) raw = Ok tc ∧
    ((typeCheck_Type tc = "text" ∧
      ∃ tb, Unmarshal (T := TextBlock) raw = Ok tb ∧ block = BlockText tb)
     ∨ (typeCheck_Type tc = "tool_use" ∧
        ∃ tub, Unmarshal (T := ToolUseBlock) raw = Ok tub
               ∧ block = BlockToolUse tub)
     ∨ (typeCheck_Type tc = "tool_result" ∧
        ∃ trb, Unmarshal (T := ToolResultBlock) raw = Ok trb
               ∧ block = BlockToolResult trb)).

Lemma decodeBlock_Some raw block :
  decodeBlock raw = Some block ↔ block_decodes raw block.
Proof.
  unfold decodeBlock, block_decodes. split.
  - destruct (Unmarshal (T := typeCheck) raw) as [tc|e] eqn:Htc; [|done].
    intros Hb. exists tc. split; [done|].
    destruct (String.eqb (typeCheck_Type tc) "text") eqn:E1.
    { apply String.eqb_eq in E1. left. split; [done|].
      destruct (Unmarshal (T := TextBlock) raw) as [tb|]; [|done].
      exists tb. by inversion Hb. }
    destruct (String.eqb (typeCheck_Type tc) "tool_use") eqn:E2.
    { apply String.eqb_eq in E2. right; left. split; [done|].
      destruct (Unmarshal (T := ToolUseBlock) raw) as [tub|]; [|done].
      exists tub. by inversion Hb. }
    destruct (String.eqb (typeCheck_Type tc) "tool_result") eqn:E3; [|done].
    apply String.eqb_eq in E3. right; right. split; [done|].
    destruct (Unmarshal (T := ToolResultBlock) raw) as [trb|]; [|done].
    exists trb. by inversion Hb.
  - intros (tc & -> & [(Ht & tb & -> & ->)|[(Ht & tb & -> & ->)|(Ht & tb & -> & ->)]]);
      rewrite Ht; reflexivity.
Qed.

(** A block is left out when its discriminator cannot be read, names no
    known kind, or its JSON does not have the shape of its kind. *)
Lemma decodeBlock_None raw :
  decodeBlock raw = None ↔
  match Unmarshal (T := typeCheck) raw with
  | Err _ => True
  | Ok tc =>
      if String.eqb (typeCheck_Type tc) "text" then
        ∃ e, Unmarshal (T := TextBlock) raw = Err e
      else if String.eqb (typeCheck_Type tc) "tool_use" then
        ∃ e, Unmarshal (T := ToolUseBlock) raw = Err e
      else if String.eqb (typeCheck_Type tc) "tool_result" then
        ∃ e, Unmarshal (T := ToolResultBlock) raw = Err e
      else True
  end.
Proof.
  unfold decodeBlock.
  destruct (Unmarshal (T := typeCheck) raw) as [tc|e]; [|done].
  destruct (String.eqb (typeCheck_Type tc) "text").
  { destruct (Unmarshal (T := TextBlock) raw) as [|e]; split; try done.
    - by intros [? ?].
    - by exists e. }
  destruct (String.eqb (typeCheck_Type tc) "tool_use").
  { destruct (Unmarshal (T := ToolUseBlock) raw) as [|e]; split; try done.
    - by intros [? ?].
    - by exists e. }
  destruct (String.eqb (typeCheck_Type tc) "tool_result"); [|done].
  destruct (Unmarshal (T := ToolResultBlock) raw) as [|e]; split; try done.
  - by intros [? ?].
  - by exists e.
Qed.

(** C10.  Once the payload itself decodes (an object with the role and
    an array under [content]), [AssistantMessage.UnmarshalJSON] succeeds
    whatever the blocks are: the decoded [Content] is exactly the blocks
    that decode, in their original order; a block whose discriminator is
    unreadable or unknown, or whose JSON does not fit its kind, is left
    out. *)
Theorem UnmarshalJSON_skips_undecodable_blocks (data : string)
    (aux : assistantAux) :
  Unmarshal (T := option assistantAux) data = Ok (Some aux) →
  ∃ m, AssistantMessage_UnmarshalJSON data = Done (Ok m)
     ∧ AssistantMessage_Role m = aux_Role aux
     ∧ AssistantMessage_Content m = omap decodeBlock (aux_Content aux)
     ∧ (∀ block, block ∈ AssistantMessage_Content m ↔
                 ∃ raw, raw ∈ aux_Content aux ∧ block_decodes raw block)
     ∧ (∀ raw, raw ∈ aux_Content aux →
               (∀ block, ¬ block_decodes raw block) →
               decodeBlock raw = None).
Proof.
  intros Haux. unfold AssistantMessage_UnmarshalJSON. rewrite Haux.
  eexists. split; [reflexivity|]. simpl. rewrite decodeBlocks_omap.
  repeat split.
  - intros Hin. apply list_elem_of_omap in Hin as (raw & Hraw & Hdec).
    exists raw. split; [done|]. by apply decodeBlock_Some.
  - intros (raw & Hraw & Hdec). apply list_elem_of_omap.
    exists raw. split; [done|]. by apply decodeBlock_Some.
  - intros raw _ Hno. destruct (decodeBlock raw) as [block|] eqn:Hb; [|done].
    apply decodeBlock_Some in Hb. by destruct (Hno block).
Qed.

End CodecFacts.

(** ** The one-shot query *)

Section QueryFacts.
Context `{GoValues, JSONSyntax, !EncodingJSON}.

Lemma string_app_assoc (a b c : string) : (a +:+ b) +:+ c = a +:+ b +:+ c.
Proof.
  induction a as [|x a IH]; [done|].
  change (String x ((a +:+ b) +:+ c) = String x (a +:+ b +:+ c)).
  by rewrite IH.
Qed.

Lemma Join_fold (sep : string) (rest : list string) (e : string) :
  fold_left (fun b s => b +:+ sep +:+ s) rest e
  = match rest with
    | [] => e
    | _ :: _ => e +:+ sep +:+ String.concat sep rest
    end.
Proof.
  revert e. induction rest as [|s rest IH]; intros e; [done|].
  simpl fold_left. rewrite IH. destruct rest as [|s' rest]; [done|].
  rewrite !string_app_assoc. reflexivity.
Qed.

(** [strings.Join] is the join of the specification. *)
Lemma Join_concat (elems : list string) (sep : string) :
  Join elems sep = String.concat sep elems.
Proof.
  destruct elems as [|e [|s rest]]; [done..|].
  unfold Join. rewrite Join_fold. reflexivity.
Qed.

(** The texts one message contributes. *)
Definition texts_of_message (msg : Message) : list string :=
  match msg with
  | MsgAssistantPtr m => texts_of_blocks (AssistantMessage_Content m)
  | _ => []
  end.

Lemma textParts_blocks (blocks : list ContentBlock) (parts : list string) :
  fold_left
    (fun textParts block =>
       match block with
       | BlockText text => textParts ++ [TextBlock_Text text]
       | _ => textParts
       end) blocks parts
  = parts ++ texts_of_blocks blocks.
Proof.
  revert parts. induction blocks as [|b blocks IH]; intros parts; simpl.
  - by rewrite app_nil_r.
  - rewrite IH. unfold texts_of_blocks. destruct b; simpl; [|done..].
    by rewrite <- app_assoc.
Qed.

Lemma textParts_messages (msgs : list Message) :
  textParts msgs = concat (map texts_of_message msgs).
Proof.
  unfold textParts.
  enough (∀ parts,
    fold_left
      (fun textParts msg =>
         match msg with
         | MsgAssistantPtr m =>
             fold_left
               (fun textParts block =>
                  match block with
                  | BlockText text => textParts ++ [TextBlock_Text text]
                  | _ => textParts
                  end)
               (AssistantMessage_Content m) textParts
         | _ => textParts
         end) msgs parts
    = parts ++ concat (map texts_of_message msgs)) as Hgen by apply Hgen.
  induction msgs as [|msg msgs IH]; intros parts; simpl.
  - by rewrite app_nil_r.
  - rewrite IH. destruct msg; simpl; try done.
    rewrite textParts_blocks. by rewrite <- app_assoc.
Qed.

(** The loop hands back what it received when the exit notification
    comes after the messages. *)
Lemma Query_loop_messages (msgs acc : list Message)
    (res : option ResultMessage) :
  Query_loop ((SelMsg ∘ Some <$> msgs) ++ [SelWaitDone None]) acc res
  = Some (Ok (acc ++ msgs,
              fold_left (fun res msg => match msg with
                                        | MsgResult r => Some r
                                        | _ => res
                                        end) msgs res)).
Proof.
  revert acc res. induction msgs as [|msg msgs IH]; intros acc res; simpl.
  - by rewrite app_nil_r.
  - destruct msg; rewrite IH, <- app_assoc; reflexivity.
Qed.

(** C1.  When the child's assistant turns and then its terminal result
    reach the loop of [Query] before the exit notification, [Query]
    returns, and the [Stdout] of its result is the newline-join of the
    texts of the text blocks of those turns, in the order they were
    emitted; it is empty when there is no text block. *)
Theorem Query_stdout_is_newline_join (os : launch) (prompt : string)
    (options : option ClaudeCodeOptions) (polls : list poll)
    (stderr : string) (cliPath : string)
    (turns : list AssistantMessage) (res : ResultMessage) :
  findCLI os = Ok cliPath →
  StdinPipe_err os = None → StdoutPipe_err os = None →
  StderrPipe_err os = None → Start_err os = None →
  collectStderr polls = Some stderr →
  ∃ r,
    Query os prompt options
      ((SelMsg ∘ Some <$> ((MsgAssistantPtr <$> turns) ++ [MsgResult res]))
       ++ [SelWaitDone None]) polls
    = Some (Ok r)
    ∧ QueryResult_Stdout r = newline_join (texts_of_turns turns)
    ∧ (texts_of_turns turns = [] → QueryResult_Stdout r = "")
    ∧ QueryResult_Messages r = (MsgAssistantPtr <$> turns) ++ [MsgResult res]
    ∧ QueryResult_Result r = Some res
    ∧ QueryResult_Stderr r = stderr.
Proof.
  intros Hcli Hin Hout Herr Hstart Hpolls.
  unfold Query, newTransportForQuery, startTransport.
  rewrite Hcli, Hin, Hout, Herr, Hstart. simpl closeStdin. cbv iota beta.
  rewrite Query_loop_messages, Hpolls. simpl app.
  eexists. split; [reflexivity|]. simpl.
  assert (textParts ((MsgAssistantPtr <$> turns) ++ [MsgResult res])
          = texts_of_turns turns) as ->.
  { rewrite textParts_messages. unfold texts_of_turns.
    rewrite map_app, concat_app. simpl. rewrite !app_nil_r.
    f_equal. rewrite <- list_fmap_compose. reflexivity. }
  repeat split.
  - rewrite Join_concat. unfold newline_join.
    by destruct (texts_of_turns turns).
  - by intros ->.
  - rewrite fold_left_app. reflexivity.
Qed.

End QueryFacts.

(** ** The diagnostic buffer *)

Section StderrFacts.
Context `{GoValues, JSONSyntax, !EncodingJSON}.

(** The buffer holds at most [maxStderrSize] bytes. *)
Definition stderr_bounded (t : transport) : Prop :=
  Z.of_nat (length (stderrBuf t)) ≤ maxStderrSize.

Lemma stderrWrite_fits (chunk : list byte) (t : transport) :
  Z.of_nat (length (stderrBuf t)) + Z.of_nat (length chunk) ≤ maxStderrSize →
  stderrBuf (stderrWrite chunk t) = stderrBuf t ++ chunk.
Proof.
  intros Hfit. unfold stderrWrite.
  destruct (0 <? length chunk)%nat eqn:Hn.
  - destruct (Z.leb_spec (Z.of_nat (length (stderrBuf t))
                          + Z.of_nat (length chunk)) maxStderrSize); [done|lia].
  - apply Nat.ltb_ge in Hn. destruct chunk; simpl in Hn; [|lia].
    by rewrite app_nil_r.
Qed.

Lemma stderrWrite_overflow (chunk : list byte) (t : transport) :
  maxStderrSize < Z.of_nat (length (stderrBuf t)) + Z.of_nat (length chunk) →
  stderrWrite chunk t = t.
Proof.
  intros Hover. unfold stderrWrite.
  destruct (0 <? length chunk)%nat; [|done].
  destruct (Z.leb_spec (Z.of_nat (length (stderrBuf t))
                        + Z.of_nat (length chunk)) maxStderrSize); [lia|done].
Qed.

(** Either way the write goes, the buffer afterwards is the buffer
    before with the chunk after it, or the buffer before. *)
Lemma stderrWrite_cases (chunk : list byte) (t : transport) :
  (Z.of_nat (length (stderrBuf t)) + Z.of_nat (length chunk) ≤ maxStderrSize
   ∧ stderrBuf (stderrWrite chunk t) = stderrBuf t ++ chunk)
  ∨ (maxStderrSize < Z.of_nat (length (stderrBuf t)) + Z.of_nat (length chunk)
     ∧ stderrWrite chunk t = t).
Proof.
  destruct (Z.le_gt_cases
              (Z.of_nat (length (stderrBuf t)) + Z.of_nat (length chunk))
              maxStderrSize) as [Hfit|Hover].
  - left. split; [done|]. by apply stderrWrite_fits.
  - right. split; [lia|]. apply stderrWrite_overflow. lia.
Qed.

Lemma stderrWrite_bounded (chunk : list byte) (t : transport) :
  stderr_bounded t → stderr_bounded (stderrWrite chunk t).
Proof.
  unfold stderr_bounded. intros Hb.
  destruct (stderrWrite_cases chunk t) as [[Hfit ->]|[_ ->]]; [|done].
  rewrite length_app. lia.
Qed.

Lemma readStderr_chunks_bounded (chunks : list (list byte)) (t : transport) :
  stderr_bounded t → stderr_bounded (readStderr_chunks chunks t).
Proof.
  unfold readStderr_chunks. revert t.
  induction chunks as [|c chunks IH]; intros t Hb; simpl; [done|].
  apply IH. by apply stderrWrite_bounded.
Qed.

Lemma readStderr_chunks_snoc (chunks : list (list byte)) (c : list byte)
    (t : transport) :
  readStderr_chunks (chunks ++ [c]) t
  = stderrWrite c (readStderr_chunks chunks t).
Proof. unfold readStderr_chunks. by rewrite fold_left_app. Qed.

Lemma readStderr_chunks_app (pre post : list (list byte)) (t : transport) :
  readStderr_chunks (pre ++ post) t
  = readStderr_chunks post (readStderr_chunks pre t).
Proof. unfold readStderr_chunks. by rewrite fold_left_app. Qed.

Lemma readStderr_chunks_fit (chunks : list (list byte)) (t : transport) :
  Z.of_nat (length (stderrBuf t)) + Z.of_nat (length (concat chunks))
    ≤ maxStderrSize →
  stderrBuf (readStderr_chunks chunks t) = stderrBuf t ++ concat chunks.
Proof.
  unfold readStderr_chunks. revert t.
  induction chunks as [|c chunks IH]; intros t Hfit; simpl.
  - by rewrite app_nil_r.
  - simpl in Hfit. rewrite length_app in Hfit.
    rewrite IH; rewrite stderrWrite_fits; try lia.
    + by rewrite <- app_assoc.
    + rewrite length_app. lia.
Qed.

Lemma readStderr_chunks_kept (chunks : list (list byte)) (t : transport) :
  ∃ kept, kept `sublist_of` chunks
        ∧ stderrBuf (readStderr_chunks chunks t) = stderrBuf t ++ concat kept.
Proof.
  unfold readStderr_chunks. revert t.
  induction chunks as [|c chunks IH]; intros t; simpl.
  - exists []. split; [done|]. by rewrite app_nil_r.
  - destruct (IH (stderrWrite c t)) as (kept & Hsub & ->).
    destruct (stderrWrite_cases c t) as [[_ ->]|[_ ->]].
    + exists (c :: kept). split; [by apply sublist_skip|].
      simpl. by rewrite <- app_assoc.
    + exists kept. split; [by apply sublist_cons|done].
Qed.

Lemma length_concat_replicate {A : Type} (n : nat) (l : list A) :
  length (concat (replicate n l)) = (n * length l)%nat.
Proof.
  induction n as [|n IH]; simpl; [done|]. rewrite length_app, IH. lia.
Qed.

Lemma elem_of_concat_replicate {A : Type} (n k : nat) (a x : A) :
  x ∈ concat (replicate n (replicate k a)) → x = a.
Proof.
  induction n as [|n IH]; simpl; [by intros ?%elem_of_nil|].
  intros [Hx|Hx]%elem_of_app; [|by apply IH].
  by apply elem_of_replicate_inv in Hx.
Qed.

(** Reads that fill an empty buffer to the byte, and one byte after
    them: that byte, the newest, is the one missing from the buffer, so
    the buffer is no suffix of what the child wrote. *)
Lemma full_buffer_drops_next (n k : nat) (a b : byte) (t : transport) :
  stderrBuf t = [] → a ≠ b → (0 < n)%nat → (0 < k)%nat →
  Z.of_nat n * Z.of_nat k = maxStderrSize →
  let filling := replicate n (replicate k a) in
  stderrBuf (readStderr_chunks (filling ++ [[b]]) t) = concat filling
  ∧ maxStderrSize < Z.of_nat (length (concat (filling ++ [[b]])))
  ∧ concat filling `prefix_of` concat (filling ++ [[b]])
  ∧ ¬ (concat filling `suffix_of` concat (filling ++ [[b]])).
Proof.
  intros Hempty Hab Hn Hk Hfull filling.
  assert (Z.of_nat (length (concat filling)) = maxStderrSize) as Hlen.
  { unfold filling. rewrite length_concat_replicate, length_replicate. lia. }
  assert (stderrBuf (readStderr_chunks filling t) = concat filling) as Hbuf.
  { rewrite readStderr_chunks_fit; rewrite Hempty; [done|]. simpl. lia. }
  rewrite concat_app. change (concat [[b]]) with [b].
  split; [|split; [|split]].
  - rewrite readStderr_chunks_snoc, stderrWrite_overflow; [done|].
    rewrite Hbuf. simpl. lia.
  - rewrite length_app. simpl. lia.
  - by apply prefix_app_r.
  - intros [p Hp].
    assert (last (concat filling ++ [b]) = Some b) as Hlast
      by apply last_snoc.
    rewrite Hp, last_app in Hlast.
    destruct (last (concat filling)) as [x|] eqn:Hx.
    + injection Hlast as ->. apply last_Some_elem_of in Hx.
      apply elem_of_concat_replicate in Hx. by subst.
    + apply last_None in Hx. rewrite Hx in Hlen. simpl in Hlen.
      unfold maxStderrSize in Hlen. lia.
Qed.

(** C9.  Every read of the diagnostic reader keeps the buffer within
    10 MiB: a chunk that fits is added at the end, and a chunk whose
    addition would pass the cap is discarded whole, the buffer staying as
    it was.  So the bound holds after any sequence of reads. *)
Theorem readStderr_keeps_buffer_within_cap (pick_done : bool)
    (t : transport) (reads : list stderrRead) (pc : stderr_pc)
    (t' : transport) (reads' : list stderrRead) (pc' : stderr_pc) :
  stderr_bounded t →
  readStderr_step pick_done t reads pc = Done (t', reads', pc') →
  stderr_bounded t'
  ∧ (stderrBuf t' = stderrBuf t
     ∨ ∃ rd, reads = rd :: reads'
             ∧ stderrBuf t' = stderrBuf t ++ read_data rd
             ∧ Z.of_nat (length (stderrBuf t))
               + Z.of_nat (length (read_data rd)) ≤ maxStderrSize)
  ∧ (∀ rd rest, pc = AtRead → done t = false → reads = rd :: rest →
       maxStderrSize < Z.of_nat (length (stderrBuf t))
                       + Z.of_nat (length (read_data rd)) →
       stderrBuf t' = stderrBuf t)
  ∧ (∀ chunks, stderr_bounded (readStderr_chunks chunks t)).
Proof.
  intros Hb Hstep.
  assert (∀ chunks, stderr_bounded (readStderr_chunks chunks t)) as Hall
    by (intros; by apply readStderr_chunks_bounded).
  unfold readStderr_step in Hstep. destruct pc.
  - destruct (done t) eqn:Hdone.
    { inversion Hstep; subst. repeat split; auto. }
    destruct reads as [|rd rest]; [done|].
    assert (t' = stderrWrite (read_data rd) t ∧ reads' = rest) as [-> ->].
    { destruct (read_err rd) as [err|]; [destruct (negb (isEOF err))|];
        by inversion Hstep. }
    split; [by apply stderrWrite_bounded|]. split; [|split; [|done]].
    + destruct (stderrWrite_cases (read_data rd) t) as [[Hfit Heq]|[_ ->]];
        [right; by exists rd|by left].
    + intros rd' rest' _ _ [= <- <-] Hover.
      by rewrite stderrWrite_overflow.
  - destruct (select_send pick_done (errors t) e t) as [[ch|]| |];
      inversion Hstep; subst; repeat split; auto.
  - inversion Hstep; subst. repeat split; auto.
Qed.

(** C6, as the code has it.  The buffer keeps its oldest bytes: what
    was captured is never removed, and what the reads add is the chunks
    that fitted when they arrived, in order.  A chunk that arrives when
    it would pass the 10 MiB cap is the one dropped, whole and silently;
    while the total stays within the cap nothing is dropped. *)
Theorem readStderr_keeps_oldest_bytes (chunks : list (list byte))
    (t : transport) :
  stderrBuf t `prefix_of` stderrBuf (readStderr_chunks chunks t)
  ∧ (∃ kept, kept `sublist_of` chunks
           ∧ stderrBuf (readStderr_chunks chunks t)
             = stderrBuf t ++ concat kept)
  ∧ (Z.of_nat (length (stderrBuf t)) + Z.of_nat (length (concat chunks))
       ≤ maxStderrSize →
     stderrBuf (readStderr_chunks chunks t) = stderrBuf t ++ concat chunks)
  ∧ (∀ pre c post, chunks = pre ++ c :: post →
       maxStderrSize
         < Z.of_nat (length (stderrBuf (readStderr_chunks pre t)))
           + Z.of_nat (length c) →
       readStderr_chunks chunks t
       = readStderr_chunks post (readStderr_chunks pre t)).
Proof.
  destruct (readStderr_chunks_kept chunks t) as (kept & Hsub & Heq).
  split; [rewrite Heq; by apply prefix_app_r|].
  split; [by exists kept|]. split; [apply readStderr_chunks_fit|].
  intros pre c post -> Hover.
  rewrite readStderr_chunks_app. unfold readStderr_chunks at 1. simpl.
  by rewrite stderrWrite_overflow.
Qed.

End StderrFacts.

(** ** The message reader *)

Section ReaderFacts.
Context `{GoValues, JSONSyntax, !EncodingJSON}.

(** The transport after a push on one of its queues. *)
Definition push_message (m : Message) (t : transport) : transport :=
  set_messages (mkChan (chan_buf (messages t) ++ [m])
                       (chan_cap (messages t)) false) t.

Definition push_error (e : error) (t : transport) : transport :=
  set_errors (mkChan (chan_buf (errors t) ++ [e])
                     (chan_cap (errors t)) false) t.

(** A queue that is open and not full. *)
Definition has_room {A : Type} (ch : chan A) : Prop :=
  chan_closed ch = false ∧ (length (chan_buf ch) < chan_cap ch)%nat.

Lemma chan_send_room {A : Type} (ch : chan A) (x : A) :
  has_room ch →
  chan_send ch x = Done (mkChan (chan_buf ch ++ [x]) (chan_cap ch) false).
Proof.
  intros [Hopen Hroom]. unfold chan_send. rewrite Hopen.
  by apply Nat.ltb_lt in Hroom as ->.
Qed.

Lemma select_send_room {A : Type} (pick_done : bool) (ch : chan A) (x : A)
    (t : transport) :
  done t = false → has_room ch →
  select_send pick_done ch x t
  = Done (Some (mkChan (chan_buf ch ++ [x]) (chan_cap ch) false)).
Proof.
  intros Hdone Hroom. unfold select_send, send_ready.
  rewrite chan_send_room, Hdone by done.
  destruct Hroom as [-> Hroom]. by apply Nat.ltb_lt in Hroom as ->.
Qed.

(** With [t.done] open, a send in a [select] never takes the [return]
    branch: it goes through, or the reader stays parked (or panics, on a
    closed queue). *)
Lemma select_send_open {A : Type} (pick_done : bool) (ch : chan A) (x : A)
    (t : transport) :
  done t = false → select_send pick_done ch x t ≠ Done None.
Proof.
  intros Hdone. unfold select_send. rewrite Hdone.
  destruct (send_ready ch); [|done]. by destruct (chan_send ch x).
Qed.

(** The frame a line carries for the conversation, if any. *)
Definition conversation_message (line : string) : option Message :=
  match classify line with
  | Done (SendMsg m) => Some m
  | _ => None
  end.

Lemma classify_SendMsg_not_control (line : string) (m : Message) :
  classify line = Done (SendMsg m) → isControlResponse line = false.
Proof.
  unfold classify. destruct (String.length line =? 0)%nat; [done|].
  destruct (isControlResponse line); [|done].
  by destruct (parseControlResponse line).
Qed.

Lemma conversation_message_control (line : string) :
  isControlResponse line = true → conversation_message line = None.
Proof.
  intros Hctl. unfold conversation_message.
  destruct (classify line) as [[| | |]| |] eqn:Hc; try done.
  apply classify_SendMsg_not_control in Hc. congruence.
Qed.

Lemma parseMessage_empty (msgType : string) (data : RawMessage) :
  data = "" ∨ data = "null" ∨ data = "{}" →
  parseMessage msgType data = Done (Ok None).
Proof. by intros [->|[->| ->]]. Qed.

(** A line that is not JSON is reported as a decode error. *)
Lemma classify_malformed (line : string) (e : error) :
  line ≠ "" → checkValid line = Some e →
  classify line = Done (SendError (NewCLIJSONDecodeError line e)).
Proof.
  intros Hne Hbad. unfold classify.
  destruct line as [|c line]; [done|]. simpl Nat.eqb. cbv iota.
  unfold isControlResponse, parseStreamMessage.
  by rewrite !(Unmarshal_invalid _ _ Hbad).
Qed.

Lemma reader_step_scan (pick_done : bool) (t : transport) (line : string)
    (rest : list string) (err : option error) :
  Z.of_nat (String.length line) < maxBufferSize → done t = false →
  reader_step pick_done t (mkReader (line :: rest) err AtScan)
  = match classify line with
    | Done NextLine => Done (EvNone, t, mkReader rest err AtScan)
    | Done p => Done (EvNone, t, mkReader rest err (Holding p))
    | WouldBlock => WouldBlock
    | Panic => Panic
    end.
Proof.
  intros Hsize Hdone. unfold reader_step. simpl.
  destruct (Z.leb_spec maxBufferSize (Z.of_nat (String.length line))); [lia|].
  by rewrite Hdone.
Qed.

Lemma reader_step_send_message (pick_done : bool) (t : transport)
    (m : Message) (rest : list string) (err : option error) :
  done t = false → has_room (messages t) →
  reader_step pick_done t (mkReader rest err (Holding (SendMsg m)))
  = Done (EvMessage m, push_message m t, mkReader rest err AtScan).
Proof.
  intros Hdone Hroom. unfold reader_step. simpl.
  by rewrite select_send_room.
Qed.

Lemma reader_step_send_error (pick_done : bool) (t : transport)
    (e : error) (rest : list string) (err : option error) :
  done t = false → has_room (errors t) →
  reader_step pick_done t (mkReader rest err (Holding (SendError e)))
  = Done (EvError e, push_error e t, mkReader rest err AtScan).
Proof.
  intros Hdone Hroom. unfold reader_step. simpl.
  by rewrite select_send_room.
Qed.

(** C8.  A conversation frame whose payload is empty, [null] or [{}]
    decodes to no message and no error: the reader takes the line and
    goes on to the next one with the transport, both queues included,
    exactly as it was. *)
Theorem empty_payload_produces_nothing (pick_done : bool) (t : transport)
    (line : string) (rest : list string) (err : option error)
    (streamMsg : StreamMessage) :
  Z.of_nat (String.length line) < maxBufferSize →
  isControlResponse line = false →
  parseStreamMessage line = Ok streamMsg →
  StreamMessage_Message streamMsg = ""
  ∨ StreamMessage_Message streamMsg = "null"
  ∨ StreamMessage_Message streamMsg = "{}" →
  parseMessage (StreamMessage_Type streamMsg)
               (StreamMessage_Message streamMsg) = Done (Ok None)
  ∧ classify line = Done NextLine
  ∧ reader_step pick_done t (mkReader (line :: rest) err AtScan)
    = Done (EvNone, t,
            mkReader rest err (if done t then Returned else AtScan)).
Proof.
  intros Hsize Hctl Hparse Hempty.
  pose proof (parseMessage_empty (StreamMessage_Type streamMsg) _ Hempty)
    as Hmsg.
  assert (classify line = Done NextLine) as Hclass.
  { unfold classify. destruct (String.length line =? 0)%nat; [done|].
    by rewrite Hctl, Hparse, Hmsg. }
  repeat split; [done..|].
  destruct (done t) eqn:Hdone.
  - unfold reader_step. simpl.
    destruct (Z.leb_spec maxBufferSize (Z.of_nat (String.length line)));
      [lia|]. by rewrite Hdone.
  - rewrite reader_step_scan by done. by rewrite Hclass.
Qed.

(** C3.  A line that is not JSON, between two well-formed frames: the
    reader pushes the first frame's message, then one decode error for
    the bad line, then the second frame's message, and stands ready for
    the rest of the stream.  (The queues have room and shutdown has not
    been signalled; the scheduler's picks do not matter.) *)
Theorem malformed_line_is_reported_and_skipped (picks : list bool)
    (t : transport) (f1 bad f2 : string) (rest : list string)
    (err : option error) (m1 m2 : Message) (e : error) :
  length picks = 6%nat →
  done t = false →
  chan_closed (messages t) = false →
  (length (chan_buf (messages t)) + 2 ≤ chan_cap (messages t))%nat →
  has_room (errors t) →
  Z.of_nat (String.length f1) < maxBufferSize →
  Z.of_nat (String.length bad) < maxBufferSize →
  Z.of_nat (String.length f2) < maxBufferSize →
  classify f1 = Done (SendMsg m1) →
  classify f2 = Done (SendMsg m2) →
  bad ≠ "" → checkValid bad = Some e →
  let bad_error := NewCLIJSONDecodeError bad e in
  let evs := [EvNone; EvMessage m1; EvNone; EvError bad_error;
              EvNone; EvMessage m2] in
  reader_steps picks t (mkReader (f1 :: bad :: f2 :: rest) err AtScan)
  = Done (evs, push_message m2 (push_error bad_error (push_message m1 t)),
          mkReader rest err AtScan)
  ∧ pushed_errors evs = [bad_error]
  ∧ pushed_messages evs = [m1; m2].
Proof.
  intros Hpicks Hdone Hopen Hroom Herrs Hs1 Hsb Hs2 Hf1 Hf2 Hne Hbad.
  intros bad_error evs. split; [|done].
  destruct picks as [|p1 [|p2 [|p3 [|p4 [|p5 [|p6 [|]]]]]]]; try done.
  pose proof (classify_malformed bad e Hne Hbad) as Hcb.
  unfold reader_steps.
  rewrite reader_step_scan, Hf1 by done.
  rewrite reader_step_send_message by (try split; simpl; (done || lia)).
  rewrite reader_step_scan, Hcb by done.
  rewrite reader_step_send_error by done.
  rewrite reader_step_scan, Hf2 by done.
  rewrite reader_step_send_message by (try split; simpl; (done || (rewrite ?length_app; simpl; lia))).
  reflexivity.
Qed.

(** A run of the reader on its own is a run among the others. *)
Lemma reader_steps_run (picks : list bool) (t : transport) (r : reader)
    (evs : list event) (t' : transport) (r' : reader) :
  reader_steps picks t r = Done (evs, t', r') → run t r evs t' r'.
Proof.
  revert t r evs. induction picks as [|p picks IH]; intros t r evs; simpl.
  - intros [= <- <- <-]. constructor.
  - destruct (reader_step p t r) as [[[ev t1] r1]| |] eqn:Hstep; [|done..].
    destruct (reader_steps picks t1 r1) as [[[evs1 t2] r2]| |] eqn:Hrest;
      [|done..].
    intros [= <- <- <-]. eapply run_reader; [done|]. by apply IH.
Qed.

(** What the reader may still push on the message queue. *)
Definition upcoming (r : reader) : list Message :=
  match pc r with
  | AtScan | Holding (SendError _) | Holding (RouteResponse _)
  | Holding NextLine => omap conversation_message (stdout_lines r)
  | Holding (SendMsg m) => m :: omap conversation_message (stdout_lines r)
  | AtScanErr _ | Returned => []
  end.

Lemma conversation_messages_cons (line : string) (rest : list string) :
  omap conversation_message (line :: rest)
  = match classify line with
    | Done (SendMsg m) => m :: omap conversation_message rest
    | _ => omap conversation_message rest
    end.
Proof.
  simpl. unfold conversation_message at 1.
  by destruct (classify line) as [[| | |]| |].
Qed.

Lemma reader_step_upcoming (pick_done : bool) (t : transport) (r : reader)
    (ev : event) (t' : transport) (r' : reader) :
  reader_step pick_done t r = Done (ev, t', r') →
  match ev with
  | EvMessage m => upcoming r = m :: upcoming r'
  | _ => upcoming r' `prefix_of` upcoming r
  end.
Proof.
  unfold reader_step, upcoming. destruct r as [lines err pc0]. simpl.
  destruct pc0 as [|[e|m|resp|]|e|].
  - destruct lines as [|line rest].
    { destruct err; intros [= <- <- <-]; simpl; done. }
    destruct (maxBufferSize <=? Z.of_nat (String.length line)).
    { intros [= <- <- <-]. simpl. apply prefix_nil. }
    destruct (done t).
    { intros [= <- <- <-]. simpl. apply prefix_nil. }
    rewrite conversation_messages_cons.
    destruct (classify line) as [[| | |]| |] eqn:Hc; try done;
      intros [= <- <- <-]; simpl; done.
  - destruct (select_send pick_done (errors t) e t) as [[ch|]| |];
      intros [= <- <- <-]; simpl; [done|apply prefix_nil].
  - destruct (select_send pick_done (messages t) m t) as [[ch|]| |];
      intros [= <- <- <-]; simpl; [done|apply prefix_nil].
  - destruct (controlResp t !! ControlResponse_RequestID resp) as [ch|].
    + destruct (chan_send ch resp); intros [= <- <- <-]; simpl; done.
    + intros [= <- <- <-]; simpl; done.
  - intros [= <- <- <-]; simpl; done.
  - destruct (select_send pick_done (errors t) e t) as [[ch|]| |];
      intros [= <- <- <-]; simpl; done.
  - intros [= <- <- <-]; simpl; done.
Qed.

Lemma run_pushed_prefix (t : transport) (r : reader) (evs : list event)
    (t' : transport) (r' : reader) :
  run t r evs t' r' → pushed_messages evs `prefix_of` upcoming r.
Proof.
  induction 1 as [t r|pick_done t r ev t1 r1 evs t2 r2 Hstep _ IH| ].
  - apply prefix_nil.
  - apply reader_step_upcoming in Hstep. unfold pushed_messages in *.
    destruct ev; simpl; try (by etrans).
    rewrite Hstep. by apply prefix_cons.
  - done.
Qed.

(** What a step that handles a control response does to the transport:
    nothing but append the response to the slot registered under the
    response's own identifier, when there is one. *)
Definition routed_by_identifier (t : transport) (ev : event) (t' : transport)
    : Prop :=
  match ev with
  | EvRouted resp =>
      ∃ ch, controlResp t !! ControlResponse_RequestID resp = Some ch
          ∧ t' = set_controlResp
                   (<[ControlResponse_RequestID resp :=
                        mkChan (chan_buf ch ++ [resp]) (chan_cap ch) false]>
                      (controlResp t)) t
  | EvDropped resp =>
      controlResp t !! ControlResponse_RequestID resp = None ∧ t' = t
  | EvMessage m =>
      controlResp t' = controlResp t
  | _ => True
  end.

Lemma reader_step_routed (pick_done : bool) (t : transport) (r : reader)
    (ev : event) (t' : transport) (r' : reader) :
  reader_step pick_done t r = Done (ev, t', r') →
  routed_by_identifier t ev t'.
Proof.
  unfold reader_step. destruct r as [lines err pc0]. simpl.
  destruct pc0 as [|[e|m|resp|]|e|].
  - destruct lines as [|line rest].
    { destruct err; intros [= <- <- <-]; simpl; done. }
    destruct (maxBufferSize <=? Z.of_nat (String.length line));
      [by intros [= <- <- <-]|].
    destruct (done t); [by intros [= <- <- <-]|].
    destruct (classify line) as [[| | |]| |]; try done;
      by intros [= <- <- <-].
  - destruct (select_send pick_done (errors t) e t) as [[ch|]| |];
      by intros [= <- <- <-].
  - destruct (select_send pick_done (messages t) m t) as [[ch|]| |];
      by intros [= <- <- <-].
  - destruct (controlResp t !! ControlResponse_RequestID resp) as [ch|] eqn:Hslot.
    + unfold chan_send. destruct (chan_closed ch); [done|].
      destruct (length (chan_buf ch) <? chan_cap ch)%nat; [|done].
      intros [= <- <- <-]. simpl. by exists ch.
    + by intros [= <- <- <-].
  - by intros [= <- <- <-].
  - destruct (select_send pick_done (errors t) e t) as [[ch|]| |];
      by intros [= <- <- <-].
  - by intros [= <- <- <-].
Qed.

(** C2.  However control responses and conversation frames are mixed on
    the child's output, and whatever the other goroutines do meanwhile:
    the messages the reader pushes on the inbound queue are the
    conversation frames of the stream, in order and without gaps, each
    from a line that is no control response; a control-response line
    never yields a message; and a step that handles a control response
    touches only the slot registered under that response's identifier
    (the response is dropped when there is none). *)
Theorem control_responses_never_reach_the_message_queue (t : transport)
    (lines : list string) (err : option error) (evs : list event)
    (t' : transport) (r' : reader) :
  run t (mkReader lines err AtScan) evs t' r' →
  pushed_messages evs `prefix_of` omap conversation_message lines
  ∧ (∀ m, m ∈ pushed_messages evs →
          ∃ line, line ∈ lines ∧ isControlResponse line = false
                  ∧ classify line = Done (SendMsg m))
  ∧ (∀ line, isControlResponse line = true →
             conversation_message line = None)
  ∧ (∀ pick_done t1 r1 ev t2 r2,
       reader_step pick_done t1 r1 = Done (ev, t2, r2) →
       routed_by_identifier t1 ev t2).
Proof.
  intros Hrun. apply run_pushed_prefix in Hrun as Hpre.
  change (upcoming (mkReader lines err AtScan))
    with (omap conversation_message lines) in Hpre.
  split; [done|]. split; [|split].
  - intros m Hm. destruct Hpre as [more Hpre].
    assert (m ∈ omap conversation_message lines) as Hin.
    { rewrite Hpre. apply elem_of_app. by left. }
    apply list_elem_of_omap in Hin as (line & Hline & Hconv).
    exists line. unfold conversation_message in Hconv.
    destruct (classify line) as [[| | |]| |] eqn:Hc; try done.
    injection Hconv as ->. split; [done|]. split; [|done].
    by apply classify_SendMsg_not_control in Hc.
  - apply conversation_message_control.
  - intros. by eapply reader_step_routed.
Qed.

End ReaderFacts.

(** ** Control requests *)

Section InterruptFacts.
Context `{GoValues, JSONSyntax, !EncodingJSON}.

(** The identifier and the request a call of [sendInterrupt] builds. *)
Definition interruptID (now : Z) (t : transport) : string :=
  requestID_string (requestID t + 1) now.

Definition interruptRequest (now : Z) (t : transport) : ControlRequest :=
  mkControlRequest "control_request" (interruptID now t)
                   ControlRequestTypeInterrupt.

(** The transport once the call has registered its slot and written
    its request, and the other goroutines have had their turn. *)
Definition while_waiting (now : Z) (w : waiting) (data : string)
    (t : transport) : transport :=
  during w
    (set_stdin (fun p => mkStdin false (stdin_written p +:+ newline))
       (set_stdin (fun p => mkStdin false (stdin_written p +:+ data))
          (set_controlResp
             (<[interruptID now t := make_chan 1]> (controlResp t))
             (set_requestID (requestID t + 1) t)))).

(** No response was put in the slot of the call while it waits. *)
Definition no_response (now : Z) (w : waiting) (data : string)
    (t : transport) : Prop :=
  match controlResp (while_waiting now w data t) !! interruptID now t with
  | Some respChan => chan_buf respChan = []
  | None => True
  end.

Lemma stdin_Write_Ok (data : string) (t : transport) :
  stdin_closed (stdin t) = false → Cmd_Process (cmd t) = ProcRunning →
  stdin_Write data t
  = Ok (set_stdin (fun p => mkStdin false (stdin_written p +:+ data)) t).
Proof. intros Hopen Hrun. unfold stdin_Write. by rewrite Hopen, Hrun. Qed.

Lemma choose_nil (pick : select_case) : choose pick [] = None.
Proof.
  unfold choose. case_decide as Hin; [|done]. by apply elem_of_nil in Hin.
Qed.

Lemma choose_singleton (pick c : select_case) : choose pick [c] = Some c.
Proof.
  unfold choose. case_decide as Hin; [|done].
  apply list_elem_of_singleton in Hin. by subst.
Qed.

(** C4.  Whatever way a call of [sendInterrupt] ends once its request
    was encoded (a write failure, a response, success or not, the
    caller's cancellation, the timeout), the slot it registered under
    its identifier is gone from the table when it returns; and a call
    that gets no response, and is not cancelled, stays in its [select]
    until five seconds have passed and then fails with the timeout
    error, its slot removed.  (When the request cannot be encoded the
    call returns before it registers anything.) *)
Theorem sendInterrupt_times_out_and_deregisters (now : Z) (w : waiting)
    (t : transport) :
  let id := interruptID now t in
  (∀ err t' data,
     Marshal (interruptRequest now t) = Ok data →
     sendInterrupt now w t = Done (err, t') →
     controlResp t' !! id = None)
  ∧ (∀ e, Marshal (interruptRequest now t) = Err e →
          sendInterrupt now w t
          = Done (Some e, set_requestID (requestID t + 1) t))
  ∧ (∀ data,
       Marshal (interruptRequest now t) = Ok data →
       stdin_closed (stdin t) = false →
       Cmd_Process (cmd t) = ProcRunning →
       no_response now w data t → ctx_err w = None →
       (elapsed w < interruptTimeout → sendInterrupt now w t = WouldBlock)
       ∧ (interruptTimeout ≤ elapsed w →
          ∃ t', sendInterrupt now w t
                = Done (Some (Errorf "interrupt request timeout"), t')
                ∧ controlResp t' !! id = None))
  ∧ sendInterrupt now w t ≠ Panic.
Proof.
  intros id. unfold sendInterrupt.
  fold (interruptID now t). fold id.
  change (mkControlRequest "control_request" id ControlRequestTypeInterrupt)
    with (interruptRequest now t).
  set (t0 := set_controlResp _ (set_requestID (requestID t + 1) t)).
  assert (∀ t1, controlResp (set_controlResp (delete id (controlResp t1)) t1)
                !! id = None) as Hgone.
  { intros t1. simpl. apply lookup_delete_eq. }
  split; [|split; [|split]].
  - intros err t' data ->.
    destruct (stdin_Write data t0) as [t1|e];
      [|intros [= <- <-]; apply Hgone].
    destruct (stdin_Write newline t1) as [t2|e];
      [|intros [= <- <-]; apply Hgone].
    destruct (choose (pick w) (interrupt_ready w id (during w t2)))
      as [[| |]|]; [| | |done].
    + destruct (ctx_err w); [|done]. intros [= <- <-]; apply Hgone.
    + destruct (controlResp (during w t2) !! id) as [ch|]; [|done].
      destruct (chan_recv ch) as [[[resp|] ?]| |]; try done.
      destruct (negb (ControlResponse_Success resp));
        intros [= <- <-]; apply Hgone.
    + intros [= <- <-]; apply Hgone.
  - by intros e ->.
  - intros data -> Hopen Hrun Hnone Hctx.
    rewrite stdin_Write_Ok by done.
    rewrite stdin_Write_Ok by done.
    set (t2 := set_stdin _ (set_stdin _ t0)).
    assert (interrupt_ready w id (during w t2)
            = if interruptTimeout <=? elapsed w then [CaseTimeAfter] else [])
      as ->.
    { unfold interrupt_ready. rewrite Hctx.
      change (match controlResp (during w t2) !! id with
              | Some respChan => chan_buf respChan = []
              | None => True
              end) in Hnone.
      destruct (controlResp (during w t2) !! id) as [ch|]; [|done].
      by rewrite Hnone. }
    split; intros Htime.
    + destruct (Z.leb_spec interruptTimeout (elapsed w)); [lia|].
      by rewrite choose_nil.
    + destruct (Z.leb_spec interruptTimeout (elapsed w)); [|lia].
      rewrite choose_singleton. eexists. split; [reflexivity|apply Hgone].
  - destruct (Marshal (interruptRequest now t)) as [data|e]; [|done].
    destruct (stdin_Write data t0) as [t1|e]; [|done].
    destruct (stdin_Write newline t1) as [t2|e]; [|done].
    destruct (choose (pick w) (interrupt_ready w id (during w t2)))
      as [[| |]|]; [| | |done].
    + by destruct (ctx_err w).
    + destruct (controlResp (during w t2) !! id) as [ch|]; [|done].
      destruct (chan_recv ch) as [[[resp|] ?]| |]; try done.
      by destruct (negb (ControlResponse_Success resp)).
    + done.
Qed.

End InterruptFacts.

(** ** Shutting down *)

Section CloseFacts.
Context `{GoValues, JSONSyntax, !EncodingJSON}.

(** Both queues are closed: a receive on either yields end-of-stream
    once it is drained. *)
Definition queues_closed (t : transport) : Prop :=
  chan_closed (messages t) = true ∧ chan_closed (errors t) = true.

(** A transport on which [close] was never called. *)
Definition never_closed (t : transport) : Prop :=
  closeOnce t = OnceIdle ∧ done t = false
  ∧ chan_closed (messages t) = false ∧ chan_closed (errors t) = false.

(** Steps a caller of [close] has ahead of it, at most. *)
Definition steps_left (c : closer_pc) : nat :=
  match c with
  | Calling => 11
  | Inside rest => S (length rest)
  | CloserReturned _ _ => 0
  end.

(** How far the function is, read off the statements [pre] it has run:
    [t.done] is closed after the first, the queues after the eighth and
    the ninth. *)
Definition progress_flags (pre : list teardownStep) (t : transport) : Prop :=
  done t = (0 <? length pre)%nat
  ∧ chan_closed (messages t) = (7 <? length pre)%nat
  ∧ chan_closed (errors t) = (8 <? length pre)%nat.

Definition closing_inv (t : transport) (cs : list closer_pc) : Prop :=
  match closeOnce t with
  | OnceIdle =>
      done t = false ∧ chan_closed (messages t) = false
      ∧ chan_closed (errors t) = false
      ∧ ∀ j c, cs !! j = Some c → c = Calling
  | OnceRunning =>
      ∃ i pre rest,
        cs !! i = Some (Inside rest) ∧ pre ++ rest = teardown
        ∧ progress_flags pre t
        ∧ ∀ j c, j ≠ i → cs !! j = Some c → c = Calling
  | OnceDone =>
      queues_closed t
      ∧ ∃ i, cs !! i = Some (CloserReturned true None)
           ∧ ∀ j c, j ≠ i → cs !! j = Some c →
                    c = Calling ∨ c = CloserReturned false None
  end.

Lemma sum_list_fmap_insert {A : Type} (f : A → nat) (l : list A) (i : nat)
    (x y : A) :
  l !! i = Some x →
  (sum_list (f <$> <[i := y]> l) + f x = sum_list (f <$> l) + f y)%nat.
Proof.
  revert i. induction l as [|z l IH]; intros [|i] Hi; simplify_eq/=.
  - lia.
  - specialize (IH i Hi). lia.
Qed.

Lemma sum_list_fmap_single {A : Type} (f : A → nat) (l : list A) (i : nat)
    (x : A) :
  l !! i = Some x →
  (∀ j y, j ≠ i → l !! j = Some y → f y = 0%nat) →
  sum_list (f <$> l) = f x.
Proof.
  revert i. induction l as [|z l IH]; intros [|i] Hi Hothers; simplify_eq/=.
  - assert (sum_list (f <$> l) = 0%nat) as ->; [|lia].
    clear IH. induction l as [|y l IHl]; [done|]. simpl.
    rewrite (Hothers 1%nat y) by done. simpl. apply IHl.
    intros [|j] y' Hj Hy; [done|]. apply (Hothers (S (S j)) y'); [lia|done].
  - rewrite (Hothers 0%nat z) by done. simpl. apply (IH i); [done|].
    intros j y Hj Hy. apply (Hothers (S j) y); [lia|done].
Qed.

Lemma sum_list_fmap_zero {A : Type} (f : A → nat) (l : list A) :
  (∀ j y, l !! j = Some y → f y = 0%nat) → sum_list (f <$> l) = 0%nat.
Proof.
  induction l as [|z l IH]; intros Hall; [done|]. simpl.
  rewrite (Hall 0%nat z) by done. simpl. apply IH.
  intros j y Hy. by apply (Hall (S j) y).
Qed.

(** The invariant fixes the number of callers that entered the
    function. *)
Lemma closing_inv_teardowns (t : transport) (cs : list closer_pc) :
  closing_inv t cs →
  teardowns cs = match closeOnce t with OnceIdle => 0 | _ => 1 end%nat.
Proof.
  unfold closing_inv, teardowns. destruct (closeOnce t).
  - intros (_ & _ & _ & Hall). apply sum_list_fmap_zero.
    intros j c Hc. by rewrite (Hall j c Hc).
  - intros (i & pre & rest & Hi & _ & _ & Hothers).
    rewrite (sum_list_fmap_single _ _ i _ Hi); [done|].
    intros j c Hj Hc. by rewrite (Hothers j c Hj Hc).
  - intros (_ & i & Hi & Hothers).
    rewrite (sum_list_fmap_single _ _ i _ Hi); [done|].
    intros j c Hj Hc. by destruct (Hothers j c Hj Hc) as [-> | ->].
Qed.

(** Inside the function every statement runs, and marks its progress. *)
Lemma teardown_step_runs (pre rest : list teardownStep) (a : teardownStep)
    (t : transport) :
  pre ++ a :: rest = teardown → progress_flags pre t →
  ∃ t', runTeardownStep a t = Done t'
      ∧ closeOnce t' = closeOnce t
      ∧ progress_flags (pre ++ [a]) t'.
Proof.
  unfold teardown, progress_flags. intros Hsplit (Hd & Hm & He).
  do 9 (destruct pre as [|? pre];
        [simplify_eq/=; unfold chan_close; rewrite ?Hd, ?Hm, ?He;
         by eexists
        |injection Hsplit as -> Hsplit]).
  by destruct pre.
Qed.

Lemma closing_inv_step (t : transport) (cs : list closer_pc) (i : nat)
    (c : closer_pc) (t1 : transport) (c1 : closer_pc) :
  closing_inv t cs → cs !! i = Some c →
  closer_step t c = Done (t1, c1) →
  closing_inv t1 (<[i := c1]> cs) ∧ (steps_left c1 < steps_left c)%nat.
Proof.
  intros Hinv Hi Hstep. pose proof (lookup_lt_Some _ _ _ Hi) as Hlt.
  unfold closing_inv in Hinv. destruct (closeOnce t) eqn:Honce.
  - destruct Hinv as (Hd & Hm & He & Hall).
    rewrite (Hall i c Hi) in Hstep. simpl in Hstep. rewrite Honce in Hstep.
    injection Hstep as <- <-. rewrite (Hall i c Hi).
    split; [|simpl; lia]. unfold closing_inv. simpl.
    exists i, [], teardown. split; [by apply list_lookup_insert_eq|].
    split; [done|]. split; [done|].
    intros j c' Hj. rewrite list_lookup_insert_ne by done. apply Hall.
  - destruct Hinv as (i0 & pre & rest & Hi0 & Hsplit & Hflags & Hothers).
    destruct (decide (i = i0)) as [->|Hne].
    + rewrite Hi0 in Hi. injection Hi as <-.
      destruct rest as [|a rest]; simpl in Hstep.
      * injection Hstep as <- <-. split; [|simpl; lia].
        rewrite app_nil_r in Hsplit. subst pre.
        destruct Hflags as (_ & Hm & He).
        unfold closing_inv. simpl. split; [done|].
        exists i0. split; [by apply list_lookup_insert_eq|].
        intros j c' Hj. rewrite list_lookup_insert_ne by done.
        intros Hc'. left. by eapply Hothers.
      * destruct (teardown_step_runs pre rest a t Hsplit Hflags)
          as (t' & Hrun & Honce' & Hflags').
        rewrite Hrun in Hstep. injection Hstep as <- <-.
        split; [|simpl; lia]. unfold closing_inv. rewrite Honce', Honce.
        exists i0, (pre ++ [a]), rest.
        split; [by apply list_lookup_insert_eq|].
        split; [by rewrite <- app_assoc|]. split; [done|].
        intros j c' Hj. rewrite list_lookup_insert_ne by done. by apply Hothers.
    + rewrite (Hothers i c Hne Hi) in Hstep. simpl in Hstep.
      by rewrite Honce in Hstep.
  - destruct Hinv as (Hclosed & i0 & Hi0 & Hothers).
    destruct (decide (i = i0)) as [->|Hne].
    { rewrite Hi0 in Hi. injection Hi as <-. done. }
    destruct (Hothers i c Hne Hi) as [-> | ->]; [|done].
    simpl in Hstep. rewrite Honce in Hstep. injection Hstep as <- <-.
    split; [|simpl; lia]. unfold closing_inv. rewrite Honce.
    split; [done|]. exists i0.
    split; [by rewrite list_lookup_insert_ne|].
    intros j c' Hj. destruct (decide (j = i)) as [->|Hji].
    + rewrite list_lookup_insert_eq by done. intros [= <-]. by right.
    + rewrite list_lookup_insert_ne by done. by apply Hothers.
Qed.

Lemma closing_inv_others (t t1 : transport) (cs : list closer_pc) :
  others_keep t t1 → closing_inv t cs → closing_inv t1 cs.
Proof.
  intros (Honce & Hd & Hm & He). unfold closing_inv, progress_flags,
    queues_closed. by rewrite Honce, Hd, Hm, He.
Qed.

Lemma closing_inv_no_panic (t : transport) (cs : list closer_pc) (i : nat)
    (c : closer_pc) :
  closing_inv t cs → cs !! i = Some c → closer_step t c ≠ Panic.
Proof.
  intros Hinv Hi. unfold closing_inv in Hinv.
  destruct c as [|rest|ran err]; simpl; [by destruct (closeOnce t)| |done].
  destruct rest as [|a rest]; [done|].
  destruct (closeOnce t) eqn:Honce.
  - destruct Hinv as (_ & _ & _ & Hall). by specialize (Hall i _ Hi).
  - destruct Hinv as (i0 & pre & rest0 & Hi0 & Hsplit & Hflags & Hothers).
    destruct (decide (i = i0)) as [->|Hne];
      [|by specialize (Hothers i _ Hne Hi)].
    rewrite Hi0 in Hi. injection Hi as ->.
    destruct (teardown_step_runs pre rest a t Hsplit Hflags) as (t' & -> & _).
    done.
  - destruct Hinv as (_ & i0 & Hi0 & Hothers).
    destruct (decide (i = i0)) as [->|Hne]; [by rewrite Hi0 in Hi|].
    by destruct (Hothers i _ Hne Hi).
Qed.

(** With nobody able to move, everybody has returned. *)
Lemma closing_inv_no_deadlock (t : transport) (cs : list closer_pc) :
  closing_inv t cs →
  (∀ i c, cs !! i = Some c → closer_step t c = WouldBlock) →
  Forall has_returned cs.
Proof.
  intros Hinv Hstuck. apply Forall_lookup. intros i c Hi.
  unfold closing_inv in Hinv. destruct (closeOnce t) eqn:Honce.
  - destruct Hinv as (_ & _ & _ & Hall).
    specialize (Hstuck i c Hi). rewrite (Hall i c Hi) in Hstuck.
    simpl in Hstuck. by rewrite Honce in Hstuck.
  - destruct Hinv as (i0 & pre & rest & Hi0 & Hsplit & Hflags & _).
    specialize (Hstuck i0 _ Hi0). destruct rest as [|a rest]; [done|].
    simpl in Hstuck.
    destruct (teardown_step_runs pre rest a t Hsplit Hflags) as (t' & Hr & _).
    by rewrite Hr in Hstuck.
  - destruct Hinv as (_ & i0 & Hi0 & Hothers).
    destruct (decide (i = i0)) as [->|Hne].
    { rewrite Hi0 in Hi. injection Hi as <-. by eexists _, _. }
    destruct (Hothers i c Hne Hi) as [-> | ->]; [|by eexists _, _].
    specialize (Hstuck i _ Hi). simpl in Hstuck. by rewrite Honce in Hstuck.
Qed.

Lemma closing_preserves (k : nat) (t : transport) (cs : list closer_pc)
    (t' : transport) (cs' : list closer_pc) :
  closing k t cs t' cs' → closing_inv t cs →
  closing_inv t' cs'
  ∧ (k + sum_list (steps_left <$> cs') ≤ sum_list (steps_left <$> cs))%nat.
Proof.
  induction 1 as [t cs|k i c t cs t1 c1 t2 cs2 Hi Hstep _ IH
                 |k t cs t1 t2 cs2 Hkeep _ IH]; intros Hinv.
  - split; [done|lia].
  - destruct (closing_inv_step t cs i c t1 c1 Hinv Hi Hstep) as [Hinv1 Hless].
    destruct (IH Hinv1) as [Hinv2 Hsum]. split; [done|].
    pose proof (sum_list_fmap_insert steps_left cs i c c1 Hi). lia.
  - apply IH. by eapply closing_inv_others.
Qed.

(** A scheduled run of the callers is one of the interleavings. *)
Lemma closers_run_closing (schedule : list nat) (t : transport)
    (cs : list closer_pc) (t' : transport) (cs' : list closer_pc) :
  closers_run schedule t cs = Some (t', cs') →
  closing (length schedule) t cs t' cs'.
Proof.
  revert t cs. induction schedule as [|i schedule IH]; intros t cs; simpl.
  - intros [= <- <-]. constructor.
  - destruct (cs !! i) as [c|] eqn:Hi; [|done].
    destruct (closer_step t c) as [[t1 c1]| |] eqn:Hstep; [|done..].
    intros Hrest. eapply closing_closer; [done..|]. by apply IH.
Qed.

(** The reader leaves alone what only [close] touches. *)
Lemma select_send_keeps_open {A : Type} (pick_done : bool) (ch ch' : chan A)
    (x : A) (t : transport) :
  select_send pick_done ch x t = Done (Some ch') →
  chan_closed ch' = chan_closed ch.
Proof.
  unfold select_send, chan_send.
  destruct (chan_closed ch) eqn:Hc.
  { destruct (send_ready ch), (done t), pick_done; done. }
  destruct (length (chan_buf ch) <? chan_cap ch)%nat;
    destruct (send_ready ch), (done t), pick_done; intros [= <-]; done.
Qed.

Lemma reader_step_others_keep (pick_done : bool) (t : transport) (r : reader)
    (ev : event) (t' : transport) (r' : reader) :
  reader_step pick_done t r = Done (ev, t', r') → others_keep t t'.
Proof.
  unfold reader_step, others_keep. destruct r as [lines err pc0]. simpl.
  destruct pc0 as [|[e|m|resp|]|e|].
  - destruct lines as [|line rest].
    { destruct err; by intros [= <- <- <-]. }
    destruct (maxBufferSize <=? Z.of_nat (String.length line));
      [by intros [= <- <- <-]|].
    destruct (done t) eqn:Hd; [by intros [= <- <- <-]|].
    destruct (classify line) as [[| | |]| |]; try done;
      by intros [= <- <- <-].
  - destruct (select_send pick_done (errors t) e t) as [[ch|]| |] eqn:Hs;
      intros [= <- <- <-]; [|done]. simpl.
    by rewrite (select_send_keeps_open _ _ _ _ _ Hs).
  - destruct (select_send pick_done (messages t) m t) as [[ch|]| |] eqn:Hs;
      intros [= <- <- <-]; [|done]. simpl.
    by rewrite (select_send_keeps_open _ _ _ _ _ Hs).
  - destruct (controlResp t !! ControlResponse_RequestID resp) as [ch|].
    + destruct (chan_send ch resp); by intros [= <- <- <-].
    + by intros [= <- <- <-].
  - by intros [= <- <- <-].
  - destruct (select_send pick_done (errors t) e t) as [[ch|]| |] eqn:Hs;
      intros [= <- <- <-]; [|done]. simpl.
    by rewrite (select_send_keeps_open _ _ _ _ _ Hs).
  - by intros [= <- <- <-].
Qed.

Lemma runTeardown_never_closed (t : transport) :
  never_closed t →
  ∃ t', runTeardown teardown (set_closeOnce OnceRunning t) = Done t'
      ∧ queues_closed t' ∧ done t' = true.
Proof.
  intros (_ & Hd & Hm & He). unfold teardown. simpl. rewrite Hd.
  unfold chan_close. simpl. rewrite Hm. simpl. rewrite He.
  by eexists.
Qed.

(** C5.  On a transport that was never closed, however many callers
    call [close], in whatever interleaving with each other and with the
    other goroutines: no step panics; at most one caller runs the
    teardown, and exactly one has once any caller is back; a caller that
    is back got no error and finds both queues closed; the callers need
    at most eleven steps each, and when none of them can move they have
    all returned.  Called twice in a row, [close] tears down once and
    then does nothing, without error both times. *)
Theorem close_is_idempotent_and_closes_queues (n k : nat)
    (t0 t : transport) (cs : list closer_pc) :
  never_closed t0 →
  closing k t0 (replicate n Calling) t cs →
  (k ≤ 11 * n)%nat
  ∧ (teardowns cs ≤ 1)%nat
  ∧ (∀ i c, cs !! i = Some c → closer_step t c ≠ Panic)
  ∧ (∀ i ran err, cs !! i = Some (CloserReturned ran err) →
       err = None ∧ queues_closed t ∧ teardowns cs = 1%nat)
  ∧ ((∀ i c, cs !! i = Some c → closer_step t c = WouldBlock) →
     Forall has_returned cs)
  ∧ (∃ t1, close t0 = Done (None, t1) ∧ close t1 = Done (None, t1)
         ∧ queues_closed t1).
Proof.
  intros Hfresh Hrun.
  assert (closing_inv t0 (replicate n Calling)) as Hinv0.
  { destruct Hfresh as (Honce & Hd & Hm & He). unfold closing_inv.
    rewrite Honce. repeat split; try done.
    intros j c Hc. by apply lookup_replicate in Hc as [-> _]. }
  destruct (closing_preserves _ _ _ _ _ Hrun Hinv0) as [Hinv Hsum].
  pose proof (closing_inv_teardowns t cs Hinv) as Hcount.
  split; [|split; [|split; [|split; [|split]]]].
  - rewrite fmap_replicate, sum_list_replicate in Hsum. simpl in Hsum. lia.
  - rewrite Hcount. destruct (closeOnce t); lia.
  - intros i c. by apply closing_inv_no_panic.
  - intros i ran err Hi. unfold closing_inv in Hinv.
    destruct (closeOnce t) eqn:Honce.
    + destruct Hinv as (_ & _ & _ & Hall). by specialize (Hall i _ Hi).
    + destruct Hinv as (i0 & pre & rest & Hi0 & _ & _ & Hothers).
      destruct (decide (i = i0)) as [->|Hne]; [by rewrite Hi0 in Hi|].
      by specialize (Hothers i _ Hne Hi).
    + destruct Hinv as (Hclosed & i0 & Hi0 & Hothers).
      destruct (decide (i = i0)) as [->|Hne].
      * rewrite Hi0 in Hi. by injection Hi as <- <-.
      * destruct (Hothers i _ Hne Hi) as [?|[= -> ->]]; done.
  - by apply closing_inv_no_deadlock.
  - destruct (runTeardown_never_closed t0 Hfresh) as (t' & Hrun' & Hq & _).
    exists (set_closeOnce OnceDone t'). unfold close.
    destruct Hfresh as (-> & _). rewrite Hrun'. by simpl.
Qed.

End CloseFacts.

(** ** The session client *)

Section ClientFacts.
Context `{GoValues, JSONSyntax, !EncodingJSON}.

Inductive client_state : Type := Unconnected | Connected | Closed.

(** The state the two flags of a client stand for; no operation ever
    leaves a client both closed and connected. *)
Definition state_of (c : Client) : option client_state :=
  match Client_closed c, Client_connected c with
  | false, false => Some Unconnected
  | false, true => Some Connected
  | true, false => Some Closed
  | true, true => None
  end.

(** The operations of the client, with what each is called with. *)
Inductive operation : Type :=
| OpConnect (os : launch) (prompt : string)
| OpSendMessage (prompt : string)
| OpSendInterrupt (now : Z) (w : waiting)
| OpStreamMessages
| OpReceiveResponse
| OpReceiveMessages
| OpWaitForResult (recvs : list received).

(** What the caller of an operation gets to see. *)
Inductive observed : Type :=
| Failed (e : error)           (* a non-nil error *)
| Succeeded                    (* a nil error *)
| Stream (s : stream)          (* a channel, no error *)
| StillWaiting
| Panicked.

Definition observe_error (r : attempt (option error * Client)) : observed :=
  match r with
  | Done (Some e, _) => Failed e
  | Done (None, _) => Succeeded
  | WouldBlock => StillWaiting
  | Panic => Panicked
  end.

Definition observe (op : operation) (c : Client) : observed :=
  match op with
  | OpConnect os prompt => observe_error (Done (Connect os prompt c))
  | OpSendMessage prompt => observe_error (SendMessage prompt c)
  | OpSendInterrupt now w => observe_error (SendInterrupt now w c)
  | OpStreamMessages => Stream (StreamMessages c)
  | OpReceiveResponse => Stream (ReceiveResponse c)
  | OpReceiveMessages => Stream (ReceiveMessages c)
  | OpWaitForResult recvs =>
      match WaitForResult recvs c with
      | Some (_, Some e, _) => Failed e
      | Some (_, None, _) => Succeeded
      | None => StillWaiting
      end
  end.

Definition interactive (op : operation) : Prop :=
  match op with
  | OpConnect _ _ => False
  | _ => True
  end.

(** The state machine in the specification's words: [Connect] on a
    connected client fails as already connected, every interactive
    operation on an unconnected client fails as not connected, and every
    operation on a closed client fails as closed. *)
Definition state_machine_as_specified : Prop :=
  (∀ c os prompt, state_of c = Some Connected →
     observe (OpConnect os prompt) c = Failed ErrAlreadyConnected)
  ∧ (∀ c op, state_of c = Some Unconnected → interactive op →
       observe op c = Failed ErrNotConnected)
  ∧ (∀ c op, state_of c = Some Closed → observe op c = Failed ErrClosed).

Lemma state_flags (c : Client) :
  (state_of c = Some Connected →
     Client_closed c = false ∧ Client_connected c = true)
  ∧ (state_of c = Some Unconnected →
       Client_closed c = false ∧ Client_connected c = false)
  ∧ (state_of c = Some Closed →
       Client_closed c = true ∧ Client_connected c = false).
Proof.
  unfold state_of. by destruct (Client_closed c), (Client_connected c).
Qed.

(** [close] has no error to return. *)
Lemma close_no_error (t : transport) (err : option error) (t' : transport) :
  close t = Done (err, t') → err = None.
Proof.
  unfold close. destruct (closeOnce t); [|done|by intros [= <- <-]].
  destruct (runTeardown _ _); [|done..]. by intros [= <- <-].
Qed.

(** The client [Close] leaves behind. *)
Definition closed_client (c : Client) : Client :=
  match Close c with
  | Done (_, c') => c'
  | _ => c
  end.

(** C7, as the code has it.  [Connect] fails as already connected on a
    connected client and as closed on a closed one.  [SendMessage] and
    [SendInterrupt] fail as not connected on an unconnected client and as
    closed on a closed one.  The operations that return a channel
    ([StreamMessages], [ReceiveResponse], [ReceiveMessages], [Messages],
    [Errors]) report nothing: on a client that is not connected,
    unconnected or closed, they hand back a channel that is already
    closed.  [WaitForResult] fails on a client that is not connected, as
    not connected when the client is unconnected.  [Close] on a closed
    client returns without error, and [Close] leaves the client closed
    and not connected. *)
Theorem client_state_machine (c : Client) :
  (state_of c = Some Connected →
     ∀ os prompt, Connect os prompt c = (Some ErrAlreadyConnected, c))
  ∧ (state_of c = Some Closed →
       ∀ os prompt, Connect os prompt c = (Some ErrClosed, c))
  ∧ (state_of c = Some Unconnected →
       ∀ prompt now w recvs,
         SendMessage prompt c = Done (Some ErrNotConnected, c)
         ∧ SendInterrupt now w c = Done (Some ErrNotConnected, c)
         ∧ WaitForResult recvs c = Some (None, Some ErrNotConnected, c))
  ∧ (state_of c = Some Closed →
       ∀ prompt now w,
         SendMessage prompt c = Done (Some ErrClosed, c)
         ∧ SendInterrupt now w c = Done (Some ErrClosed, c)
         ∧ Close c = Done (None, c))
  ∧ (state_of c = Some Unconnected ∨ state_of c = Some Closed →
       StreamMessages c = ClosedChannel
       ∧ ReceiveResponse c = ClosedChannel
       ∧ ReceiveMessages c = ClosedChannel
       ∧ Messages c = ClosedChannel
       ∧ Errors c = ClosedChannel
       ∧ ∀ recvs, ∃ e, WaitForResult recvs c = Some (None, Some e, c))
  ∧ (∀ st err c', state_of c = Some st → Close c = Done (err, c') →
       err = None ∧ state_of c' = Some Closed).
Proof.
  destruct (state_flags c) as [Hconn [Hunconn Hclosed]].
  split; [|split; [|split; [|split; [|split]]]].
  - intros [Hc Hk]%Hconn os prompt. unfold Connect. by rewrite Hk.
  - intros [Hc Hk]%Hclosed os prompt. unfold Connect. by rewrite Hk, Hc.
  - intros [Hc Hk]%Hunconn prompt now w recvs.
    unfold SendMessage, SendInterrupt, WaitForResult, not_connected.
    by rewrite Hc, Hk.
  - intros [Hc Hk]%Hclosed prompt now w.
    unfold SendMessage, SendInterrupt, Close. by rewrite Hc.
  - intros Hstate.
    assert (Client_connected c = false) as Hk.
    { destruct Hstate as [[_ Hk]%Hunconn|[_ Hk]%Hclosed]; done. }
    unfold StreamMessages, ReceiveResponse, ReceiveMessages, StreamMessages,
      Messages, Errors, WaitForResult, not_connected.
    rewrite Hk. simpl. repeat split. intros recvs. by eexists.
  - intros st err c' Hst Hclose. unfold Close in Hclose.
    unfold state_of in Hst. destruct (Client_closed c) eqn:Hc.
    + injection Hclose as <- <-. split; [done|].
      unfold state_of. rewrite Hc. by destruct (Client_connected c).
    + destruct (Client_transport c) as [t|].
      * destruct (close t) as [[e t']| |] eqn:Hct; [|done..].
        injection Hclose as <- <-. split; [by eapply close_no_error|done].
      * by injection Hclose as <- <-.
Qed.

End ClientFacts.

(** ** Error texts *)

Section ErrorFacts.

(** The innermost cause of an error: what remains when [Unwrap] has
    nothing more to give. *)
Fixpoint rootCause (e : error) : error :=
  match e with
  | CLIConnectionError _ Cause => rootCause Cause
  | CLIJSONDecodeError _ Cause _ => rootCause Cause
  | MessageParseError _ Cause _ _ => rootCause Cause
  | _ => e
  end.

(** X1.  The text of an error is its message followed, when it wraps a
    cause, by a colon and the text of the cause; so the text of every
    error ends with the text of its innermost cause, the one [Unwrap]
    leads to and that wraps nothing. *)
Theorem Error_ends_with_root_cause (e : error) :
  (∃ context, Error e = context +:+ Error (rootCause e))
  ∧ Unwrap (rootCause e) = None
  ∧ (∀ cause, Unwrap e = Some cause →
       rootCause e = rootCause cause
       ∧ ∃ message, Error e = message +:+ ": " +:+ Error cause)
  ∧ (Unwrap e = None → rootCause e = e).
Proof.
  split; [|split; [|split]].
  - induction e as [s|m c IH|m ps|m code out err|m c IH raw|m c IH ty raw];
      try (by exists "");
      destruct IH as [context IH]; exists (m +:+ ": " +:+ context); simpl;
      by rewrite IH, !string_app_assoc.
  - induction e; simpl; done.
  - intros cause Hc. destruct e; simplify_eq/=; (split; [done|by eexists]).
  - by destruct e.
Qed.

End ErrorFacts.

(** ** Locating the CLI *)

Section FindFacts.

Lemma firstExisting_none (h : OS.host) (paths : list string) :
  OS.firstExisting h paths = None ↔ Forall (fun q => OS.Stat h q ≠ None) paths.
Proof.
  induction paths as [|p paths IH]; simpl; [by split|].
  destruct (OS.Stat h p) eqn:Hp.
  - rewrite IH. split.
    + intros Hall. constructor; [by rewrite Hp|done].
    + by intros [_ Hall]%Forall_cons.
  - split; [done|]. intros [Hbad _]%Forall_cons. by rewrite Hp in Hbad.
Qed.

Lemma firstExisting_some (h : OS.host) (paths : list string) (path : string) :
  OS.firstExisting h paths = Some path ↔
  ∃ before after, paths = before ++ path :: after
                  ∧ Forall (fun q => OS.Stat h q ≠ None) before
                  ∧ OS.Stat h path = None.
Proof.
  induction paths as [|p paths IH]; simpl.
  - split; [done|]. intros (before & after & Heq & _). by destruct before.
  - destruct (OS.Stat h p) eqn:Hp.
    + rewrite IH. split.
      * intros (before & after & -> & Hall & Hpath).
        exists (p :: before), after. split; [done|]. split; [|done].
        constructor; [by rewrite Hp|done].
      * intros (before & after & Heq & Hall & Hpath).
        destruct before as [|q before]; simplify_eq/=; try congruence.
        apply Forall_cons in Hall as [_ Hall]. by exists before, after.
    + split.
      * intros [= <-]. by exists [], paths.
      * intros (before & after & Heq & Hall & Hpath).
        destruct before as [|q before]; simplify_eq/=; try done.
        apply Forall_cons in Hall as [Hbad _]. by rewrite Hp in Hbad.
Qed.

(** X2.  [findCLI] tries its candidates in a fixed order and returns
    the first that is there: [claude] on the PATH, then [claude-code] on
    the PATH, then the eight fixed locations, in their order.  It fails
    exactly when none of them is there, and then with the not-found
    error that lists the eight locations. *)
Theorem findCLI_returns_first_candidate (h : OS.host) :
  (∀ path, OS.LookPath h "claude" = Ok path → OS.findCLI h = Ok path)
  ∧ (∀ e path, OS.LookPath h "claude" = Err e →
       OS.LookPath h "claude-code" = Ok path → OS.findCLI h = Ok path)
  ∧ (∀ e1 e2 before path after,
       OS.LookPath h "claude" = Err e1 →
       OS.LookPath h "claude-code" = Err e2 →
       OS.searchPaths h = before ++ path :: after →
       Forall (fun q => OS.Stat h q ≠ None) before →
       OS.Stat h path = None →
       OS.findCLI h = Ok path)
  ∧ (∀ e, OS.findCLI h = Err e ↔
       e = NewCLINotFoundError (OS.searchPaths h)
       ∧ (∃ e1, OS.LookPath h "claude" = Err e1)
       ∧ (∃ e2, OS.LookPath h "claude-code" = Err e2)
       ∧ Forall (fun q => OS.Stat h q ≠ None) (OS.searchPaths h))
  ∧ (∀ path, OS.findCLI h = Ok path →
       OS.LookPath h "claude" = Ok path
       ∨ OS.LookPath h "claude-code" = Ok path
       ∨ (path ∈ OS.searchPaths h ∧ OS.Stat h path = None))
  ∧ length (OS.searchPaths h) = 8%nat.
Proof.
  unfold OS.findCLI. split; [|split; [|split; [|split; [|split]]]].
  - by intros path ->.
  - by intros e path -> ->.
  - intros e1 e2 before path after -> -> Hsplit Hall Hpath.
    assert (OS.firstExisting h (OS.searchPaths h) = Some path) as ->; [|done].
    apply firstExisting_some. by exists before, after.
  - intros e. destruct (OS.LookPath h "claude") as [p1|e1].
    { split; [done|]. by intros (_ & [e1 ?] & _). }
    destruct (OS.LookPath h "claude-code") as [p2|e2].
    { split; [done|]. by intros (_ & _ & [e2 ?] & _). }
    destruct (OS.firstExisting h (OS.searchPaths h)) as [p|] eqn:Hfirst.
    + split; [done|]. intros (_ & _ & _ & Hall).
      apply firstExisting_none in Hall. congruence.
    + apply firstExisting_none in Hfirst. split.
      * intros [= <-]. split; [done|]. split; [by exists e1|].
        split; [by exists e2|done].
      * by intros (-> & _).
  - intros path. destruct (OS.LookPath h "claude") as [p1|e1]; [by left|].
    destruct (OS.LookPath h "claude-code") as [p2|e2]; [by right; left|].
    destruct (OS.firstExisting h (OS.searchPaths h)) as [p|] eqn:Hfirst;
      [|done].
    intros [= ->]. right; right.
    apply firstExisting_some in Hfirst as (before & after & -> & _ & Hp).
    split; [|done]. apply elem_of_app. right. by left.
  - reflexivity.
Qed.

End FindFacts.

(** ** The parser *)

Section ParserFacts.
Context `{GoValues, JSONSyntax, !EncodingJSON}.

(** The payloads [parseMessage] passes over. *)
Definition skipped (data : RawMessage) : bool :=
  (String.length data =? 0)%nat || String.eqb data "null"
  || String.eqb data "{}".

Lemma skipped_false (data : RawMessage) :
  skipped data = false ↔ data ≠ "" ∧ data ≠ "null" ∧ data ≠ "{}".
Proof.
  unfold skipped. rewrite !orb_false_iff, !String.eqb_neq, Nat.eqb_neq.
  split.
  - intros [[Hlen Hnull] Hobj]. split; [|done]. by intros ->.
  - intros (Hne & Hnull & Hobj). split; [|done]. split; [|done].
    by destruct data.
Qed.

Definition known_type (msgType : string) : Prop :=
  msgType = "user" ∨ msgType = "assistant" ∨ msgType = "system".

(** X3.  A message [parseMessage] hands out has the dynamic type its
    frame calls for: a [UserMessage] for [user], a pointer to an
    [AssistantMessage] for [assistant] (never an [AssistantMessage] by
    value), and for [system] a [ResultMessage] when the payload's subtype
    is [result] and a [SystemMessage] otherwise.  So [GetType] of the
    message is the frame's type, except for a result, which says [result]
    and came in a [system] frame.  The payload was not an empty one. *)
Theorem parseMessage_gives_the_type_of_the_frame (msgType : string)
    (data : RawMessage) (m : Message) :
  parseMessage msgType data = Done (Ok (Some m)) →
  (data ≠ "" ∧ data ≠ "null" ∧ data ≠ "{}")
  ∧ match m with
    | MsgUser u => msgType = "user" ∧ Unmarshal data = Ok u
    | MsgAssistantPtr a =>
        msgType = "assistant" ∧ Unmarshal_AssistantMessage data = Done (Ok a)
    | MsgAssistant _ => False
    | MsgSystem s =>
        msgType = "system" ∧ Unmarshal data = Ok s
        ∧ ∃ base, Unmarshal (T := subtypeBase) data = Ok base
                  ∧ base_Subtype base ≠ "result"
    | MsgResult r =>
        msgType = "system" ∧ Unmarshal data = Ok r
        ∧ ∃ base, Unmarshal (T := subtypeBase) data = Ok base
                  ∧ base_Subtype base = "result"
    end
  ∧ (GetType m = msgType ∨ (msgType = "system" ∧ GetType m = "result")).
Proof.
  unfold parseMessage. fold (skipped data).
  destruct (skipped data) eqn:Hskip; [done|].
  apply skipped_false in Hskip. intros Hparse.
  assert (match m with
          | MsgUser u => msgType = "user" ∧ Unmarshal data = Ok u
          | MsgAssistantPtr a =>
              msgType = "assistant"
              ∧ Unmarshal_AssistantMessage data = Done (Ok a)
          | MsgAssistant _ => False
          | MsgSystem s =>
              msgType = "system" ∧ Unmarshal data = Ok s
              ∧ ∃ base, Unmarshal (T := subtypeBase) data = Ok base
                        ∧ base_Subtype base ≠ "result"
          | MsgResult r =>
              msgType = "system" ∧ Unmarshal data = Ok r
              ∧ ∃ base, Unmarshal (T := subtypeBase) data = Ok base
                        ∧ base_Subtype base = "result"
          end) as Hshape.
  { destruct (String.eqb msgType "user") eqn:Eu.
    { apply String.eqb_eq in Eu.
      destruct (Unmarshal (T := UserMessage) data) as [u|e] eqn:Hu;
        by simplify_eq. }
    destruct (String.eqb msgType "assistant") eqn:Ea.
    { apply String.eqb_eq in Ea.
      destruct (Unmarshal_AssistantMessage data) as [[a|e]| |] eqn:Ha;
        by simplify_eq. }
    destruct (String.eqb msgType "system") eqn:Es; [|done].
    apply String.eqb_eq in Es.
    destruct (Unmarshal (T := subtypeBase) data) as [base|e] eqn:Hb; [|done].
    destruct (String.eqb (base_Subtype base) "result") eqn:Er.
    - apply String.eqb_eq in Er.
      destruct (Unmarshal (T := ResultMessage) data) as [r|e] eqn:Hr;
        simplify_eq. split; [done|]. split; [done|]. by exists base.
    - apply String.eqb_neq in Er.
      destruct (Unmarshal (T := SystemMessage) data) as [s|e] eqn:Hs;
        simplify_eq. split; [done|]. split; [done|]. by exists base. }
  split; [done|]. split; [done|].
  destruct m; simpl; try done; destruct Hshape as [-> ?]; auto.
Qed.

(** X4.  Every failure of [parseMessage] is a [MessageParseError] that
    carries the frame's type and the payload as text and wraps its cause.
    A frame of another type than [user], [assistant] or [system] with a
    payload to decode always fails, the cause naming the type; and a
    payload that is not well-formed JSON fails, for the three known
    types, with the decoder's syntax error as the cause: no message, no
    panic. *)
Theorem parseMessage_failures_carry_type_and_payload (msgType : string)
    (data : RawMessage) :
  (∀ e, parseMessage msgType data = Done (Err e) →
     ∃ cause, e = MessageParseError
                    ("Failed to parse message of type '" +:+ msgType +:+ "'")
                    cause msgType data
              ∧ Unwrap e = Some cause
              ∧ (¬ known_type msgType →
                 cause = Errorf ("unknown message type: " +:+ msgType)))
  ∧ (data ≠ "" → data ≠ "null" → data ≠ "{}" → ¬ known_type msgType →
     parseMessage msgType data
     = Done (Err (NewMessageParseError msgType data
                    (Errorf ("unknown message type: " +:+ msgType)))))
  ∧ (∀ bad, data ≠ "" → data ≠ "null" → data ≠ "{}" →
       known_type msgType → checkValid data = Some bad →
       parseMessage msgType data
       = Done (Err (NewMessageParseError msgType data bad))).
Proof.
  unfold parseMessage, known_type. fold (skipped data).
  split; [|split].
  - destruct (skipped data); [done|].
    destruct (String.eqb msgType "user") eqn:Eu.
    { apply String.eqb_eq in Eu.
      destruct (Unmarshal (T := UserMessage) data) as [u|e0]; [done|].
      intros e [= <-]. exists e0. repeat split. intros []. by left. }
    destruct (String.eqb msgType "assistant") eqn:Ea.
    { apply String.eqb_eq in Ea.
      destruct (Unmarshal_AssistantMessage data) as [[a|e0]| |]; try done.
      intros e [= <-]. exists e0. repeat split. intros []. by right; left. }
    destruct (String.eqb msgType "system") eqn:Es.
    { apply String.eqb_eq in Es.
      destruct (Unmarshal (T := subtypeBase) data) as [base|e0].
      - destruct (String.eqb (base_Subtype base) "result").
        + destruct (Unmarshal (T := ResultMessage) data) as [r|e0]; [done|].
          intros e [= <-]. exists e0. repeat split. intros []. by right; right.
        + destruct (Unmarshal (T := SystemMessage) data) as [s|e0]; [done|].
          intros e [= <-]. exists e0. repeat split. intros []. by right; right.
      - intros e [= <-]. exists e0. repeat split. intros []. by right; right. }
    intros e [= <-]. by eexists.
  - intros Hne1 Hne2 Hne3 Hunknown.
    assert (skipped data = false) as -> by by apply skipped_false.
    destruct (String.eqb_spec msgType "user") as [->|_];
      [destruct Hunknown; by left|].
    destruct (String.eqb_spec msgType "assistant") as [->|_];
      [destruct Hunknown; by right; left|].
    destruct (String.eqb_spec msgType "system") as [->|_];
      [destruct Hunknown; by right; right|].
    done.
  - intros bad Hne1 Hne2 Hne3 Hknown Hbad.
    assert (skipped data = false) as -> by by apply skipped_false.
    destruct Hknown as [->|[->| ->]]; simpl.
    + by rewrite (Unmarshal_invalid _ _ Hbad).
    + unfold Unmarshal_AssistantMessage. by rewrite Hbad.
    + by rewrite (Unmarshal_invalid _ _ Hbad).
Qed.

End ParserFacts.

(** ** Server configurations *)

Section ConfigFacts.
Context `{GoValues, JSONSyntax, !ConfigJSON}.

(** [v.(string)] for a value that is there. *)
Definition stringOf (v : jsonValue) : string := assertString (Some v).

Lemma rangeStrings_lookup (entries : list (string * jsonValue))
    (out : gmap string string) (k : string) :
  NoDup entries.*1 →
  fold_left (fun out kv => <[kv.1 := assertString (Some kv.2)]> out)
            entries out !! k
  = match (list_to_map entries : gmap string jsonValue) !! k with
    | Some v => Some (stringOf v)
    | None => out !! k
    end.
Proof.
  revert out. induction entries as [|[k0 v0] entries IH]; intros out Hnd;
    simpl; [done|].
  apply NoDup_cons in Hnd as [Hk0 Hnd]. rewrite IH by done.
  destruct (decide (k = k0)) as [->|Hne].
  - rewrite lookup_insert_eq.
    by rewrite (not_elem_of_list_to_map_1 _ _ Hk0), lookup_insert_eq.
  - by rewrite !lookup_insert_ne.
Qed.

(** The loop over a map gives the same map whatever order the entries
    come in. *)
Lemma rangeStrings_any_order (env : gmap string jsonValue)
    (entries : list (string * jsonValue)) :
  entries ≡ₚ map_to_list env → rangeStrings entries = stringOf <$> env.
Proof.
  intros Hperm. apply map_eq. intros k. unfold rangeStrings.
  assert (NoDup entries.*1) as Hnd.
  { rewrite Hperm. apply NoDup_fst_map_to_list. }
  rewrite rangeStrings_lookup by done.
  assert ((list_to_map entries : gmap string jsonValue) = env) as ->.
  { rewrite (list_to_map_proper _ _ Hnd Hperm). apply list_to_map_to_list. }
  rewrite lookup_fmap. by destruct (env !! k).
Qed.

(** X5.  A document with no string under [type] (the format without a
    type discriminator) stores nothing: decoded into a receiver that
    holds no slice and no map, [UnmarshalJSON] leaves the receiver exactly
    as it was, [command], [args] and [env] of the document included; the
    error it returns is the one of decoding the document into the
    three-field struct, [nil] when that works. *)
Theorem UnmarshalJSON_without_type_stores_nothing (data : string)
    (c : MCPServerConfig) (raw : gmap string jsonValue) :
  Unmarshal data = Ok raw →
  (∀ serverType, raw !! "type" ≠ Some (JString serverType)) →
  MCPServerConfig_Args c = None → MCPServerConfig_Env c = None →
  ∃ err, MCPServerConfig_UnmarshalJSON data c = Some (err, c)
       ∧ (err = None ↔ ∃ l, Unmarshal (T := legacyServer) data = Ok l)
       ∧ (∀ e, err = Some e ↔ Unmarshal (T := legacyServer) data = Err e).
Proof.
  intros Hraw Hno Hargs Henv. unfold MCPServerConfig_UnmarshalJSON.
  rewrite Hraw, Hargs, Henv.
  assert (match raw !! "type" with
          | Some (JString _) => False
          | _ => True
          end) as Hty.
  { destruct (raw !! "type") as [[]|] eqn:Hlk; try done. by eapply Hno. }
  destruct (Unmarshal (T := legacyServer) data) as [l|e].
  - exists None. destruct (raw !! "type") as [[]|]; try done;
      (split; [done|]; split; [split; [by exists l|done]|]; by intros e).
  - exists (Some e). destruct (raw !! "type") as [[]|]; try done;
      (split; [done|]; split; [split; [done|by intros [l ?]]|];
       intros e'; split; congruence).
Qed.

(** X6.  A document with a string under [type] never fails once it
    decodes as an object, and sets [Type] to that string.  For [stdio],
    [Command] becomes the string under [command] (empty when absent or
    no string), [Args] the array under [args] element by element, with
    the empty string for an element that is no string, and [Env] the
    object under [env] entry by entry, the same map whatever order the
    entries are visited in; [Args] and [Env] keep their old value when the
    key holds no array, no object; [URL], [APIKey] and [Headers] are not
    touched.  For [sse] and [http] it is the other way round.  Any other
    type changes [Type] alone. *)
Theorem UnmarshalJSON_with_type_sets_the_fields_of_its_kind (data : string)
    (c : MCPServerConfig) (raw : gmap string jsonValue)
    (serverType : string) :
  Unmarshal data = Ok raw →
  raw !! "type" = Some (JString serverType) →
  ∃ c', MCPServerConfig_UnmarshalJSON data c = Some (None, c')
      ∧ MCPServerConfig_Type c' = serverType
      ∧ (serverType = "stdio" →
           MCPServerConfig_Command c' = assertString (raw !! "command")
           ∧ MCPServerConfig_Args c'
             = match raw !! "args" with
               | Some (JSlice args) => Some (stringOf <$> args)
               | _ => MCPServerConfig_Args c
               end
           ∧ MCPServerConfig_Env c'
             = match raw !! "env" with
               | Some (JMap env) => Some (stringOf <$> env)
               | _ => MCPServerConfig_Env c
               end
           ∧ MCPServerConfig_URL c' = MCPServerConfig_URL c
           ∧ MCPServerConfig_APIKey c' = MCPServerConfig_APIKey c
           ∧ MCPServerConfig_Headers c' = MCPServerConfig_Headers c)
      ∧ (serverType = "sse" ∨ serverType = "http" →
           MCPServerConfig_URL c' = assertString (raw !! "url")
           ∧ MCPServerConfig_APIKey c' = assertString (raw !! "apiKey")
           ∧ MCPServerConfig_Headers c'
             = match raw !! "headers" with
               | Some (JMap headers) => Some (stringOf <$> headers)
               | _ => MCPServerConfig_Headers c
               end
           ∧ MCPServerConfig_Command c' = MCPServerConfig_Command c
           ∧ MCPServerConfig_Args c' = MCPServerConfig_Args c
           ∧ MCPServerConfig_Env c' = MCPServerConfig_Env c)
      ∧ (serverType ≠ "stdio" → serverType ≠ "sse" → serverType ≠ "http" →
           c' = mkMCPServerConfig serverType
                  (MCPServerConfig_Command c) (MCPServerConfig_Args c)
                  (MCPServerConfig_Env c) (MCPServerConfig_URL c)
                  (MCPServerConfig_APIKey c) (MCPServerConfig_Headers c))
      ∧ (∀ env entries, entries ≡ₚ map_to_list env →
           rangeStrings entries = stringOf <$> env).
Proof.
  intros Hraw Hty. unfold MCPServerConfig_UnmarshalJSON.
  rewrite Hraw, Hty.
  unfold MCPServerTypeStdio, MCPServerTypeSSE, MCPServerTypeHTTP.
  destruct (String.eqb_spec serverType "stdio") as [->|Hstdio].
  { eexists. split; [reflexivity|]. simpl. split; [done|].
    split; [|split; [by intros [|]|split; [done|]]].
    - intros _. split; [done|]. split.
      { by destruct (raw !! "args") as [[]|]. }
      split; [|done].
      destruct (raw !! "env") as [[| | | | |env]|]; try done.
      by rewrite (rangeStrings_any_order _ (map_to_list _)) by done.
    - exact rangeStrings_any_order. }
  destruct (String.eqb_spec serverType "sse") as [->|Hsse].
  { eexists. split; [reflexivity|]. simpl. split; [done|].
    split; [done|]. split; [|split; [done|exact rangeStrings_any_order]].
    intros _. split; [done|]. split; [done|]. split; [|done].
    destruct (raw !! "headers") as [[| | | | |hs]|]; try done.
    by rewrite (rangeStrings_any_order _ (map_to_list _)) by done. }
  destruct (String.eqb_spec serverType "http") as [->|Hhttp].
  { eexists. split; [reflexivity|]. simpl. split; [done|].
    split; [done|]. split; [|split; [done|exact rangeStrings_any_order]].
    intros _. split; [done|]. split; [done|]. split; [|done].
    destruct (raw !! "headers") as [[| | | | |hs]|]; try done.
    by rewrite (rangeStrings_any_order _ (map_to_list _)) by done. }
  eexists. split; [reflexivity|]. simpl. split; [done|].
  split; [done|]. split; [by intros [|]|].
  split; [done|exact rangeStrings_any_order].
Qed.


End ConfigFacts.

(** ** Writing to the child *)

Section WriteFacts.
Context `{GoValues, JSONSyntax, !EncodingJSON}.

Lemma string_app_cons (c : ascii) (s t : string) :
  String c s +:+ t = String c (s +:+ t).
Proof. reflexivity. Qed.

Lemma string_app_nil_l (t : string) : "" +:+ t = t.
Proof. reflexivity. Qed.

Lemma string_app_nil_r (s : string) : s +:+ "" = s.
Proof.
  induction s as [|c s IH]; [done|]. by rewrite string_app_cons, IH.
Qed.

(** The transport with [s] written to the child's standard input. *)
Definition written (s : string) (t : transport) : transport :=
  set_stdin (fun p => mkStdin false (stdin_written p +:+ s)) t.

Lemma written_written (s1 s2 : string) (t : transport) :
  written s2 (written s1 t) = written (s1 +:+ s2) t.
Proof.
  unfold written, set_stdin. simpl. by rewrite string_app_assoc.
Qed.

(** A transport whose child can be written to. *)
Definition writable (t : transport) : Prop :=
  stdin_closed (stdin t) = false ∧ Cmd_Process (cmd t) = ProcRunning.

Lemma sendMessage_writable (message : Message)
    (parentToolUseID sessionID data : string) (t : transport) :
  Marshal (mkInputMessage "user" message parentToolUseID sessionID) = Ok data →
  writable t →
  sendMessage message parentToolUseID sessionID t
  = (None, written (data +:+ newline) t).
Proof.
  intros Hdata [Hopen Hrun]. unfold sendMessage. rewrite Hdata.
  rewrite !stdin_Write_Ok by done. fold (written data t).
  fold (written newline (written data t)). by rewrite written_written.
Qed.

(** The envelope [SendMessage] builds around a prompt. *)
Definition userInput (sessionID prompt : string) : InputMessage :=
  mkInputMessage "user" (MsgUser (mkUserMessage MessageRoleUser prompt))
                 "" sessionID.

(** [SendMessage] called with each prompt in turn, up to the first call
    that does not return [nil]. *)
Fixpoint SendMessages (prompts : list string) (c : Client)
    : attempt (option error * Client) :=
  match prompts with
  | [] => Done (None, c)
  | prompt :: rest =>
      match SendMessage prompt c with
      | Done (None, c') => SendMessages rest c'
      | other => other
      end
  end.

(** What was written to the child of a client so far. *)
Definition stdin_of (c : Client) : string :=
  match Client_transport c with
  | Some t => stdin_written (stdin t)
  | None => ""
  end.

(** The frames as they go down the pipe, each with its newline. *)
Definition framed (frames : list string) : string :=
  String.concat "" ((fun data => data +:+ newline) <$> frames).

Lemma framed_cons (data : string) (frames : list string) :
  framed (data :: frames) = (data +:+ newline) +:+ framed frames.
Proof.
  unfold framed. simpl. destruct frames; simpl; [|done].
  by rewrite string_app_nil_r.
Qed.

(** X8.  On a connected client whose child can be written to, a series
    of [SendMessage] calls all succeed and leave on the child's standard
    input, after what was there, the JSON envelope of each prompt
    followed by one newline, in the order of the calls: one frame per
    line, none lost, none interleaved.  The client stays connected and
    its message history is not touched. *)
Theorem SendMessage_writes_one_line_per_call (prompts frames : list string)
    (c : Client) (t : transport) :
  state_of c = Some Connected →
  Client_transport c = Some t → writable t →
  Forall2 (fun prompt data =>
             Marshal (userInput (Options_SessionID (Client_options c)) prompt)
             = Ok data) prompts frames →
  ∃ c', SendMessages prompts c = Done (None, c')
      ∧ stdin_of c' = stdin_of c +:+ framed frames
      ∧ state_of c' = Some Connected
      ∧ Client_messages c' = Client_messages c
      ∧ Client_options c' = Client_options c.
Proof.
  intros Hstate Ht Hw Hframes.
  remember (Options_SessionID (Client_options c)) as sessionID eqn:Hsid.
  revert c t Hsid Hstate Ht Hw.
  induction Hframes as [|prompt data prompts frames Hdata _ IH];
    intros c t Hsid Hstate Ht Hw.
  - exists c. simpl. unfold framed. simpl. by rewrite string_app_nil_r.
  - subst sessionID. destruct (state_flags c) as [Hconn _].
    destruct (Hconn Hstate) as [Hclosed Hconnected].
    assert (SendMessage prompt c
            = Done (None, with_transport (written (data +:+ newline) t) c))
      as Hsend.
    { unfold SendMessage. rewrite Hclosed, Hconnected, Ht. simpl.
      unfold userInput in Hdata.
      by rewrite (sendMessage_writable _ _ _ data) by done. }
    destruct (IH (with_transport (written (data +:+ newline) t) c)
                 (written (data +:+ newline) t))
      as (c' & Hrest & Hin & Hst & Hmsgs & Hopts).
    + done.
    + unfold state_of. simpl. by rewrite Hclosed, Hconnected.
    + done.
    + by destruct Hw.
    + exists c'. simpl. rewrite Hsend. split; [done|].
      split; [|done]. rewrite Hin, framed_cons. unfold stdin_of. rewrite Ht.
      simpl. by rewrite !string_app_assoc.
Qed.

(** X9.  Once the child's standard input was closed, by [closeStdin] as
    [Query] does or by [close], [sendMessage] writes nothing: it fails
    with a connection error, [Failed to send message], and leaves the
    transport as it found it. *)
Theorem sendMessage_after_close_writes_nothing (message : Message)
    (parentToolUseID sessionID data : string) (t : transport) :
  Marshal (mkInputMessage "user" message parentToolUseID sessionID) = Ok data →
  (∃ t' cause,
     closeStdin t = (None, t')
     ∧ sendMessage message parentToolUseID sessionID t'
       = (Some (NewCLIConnectionError "Failed to send message" cause), t'))
  ∧ (never_closed t →
     ∃ t' cause,
       close t = Done (None, t')
       ∧ sendMessage message parentToolUseID sessionID t'
         = (Some (NewCLIConnectionError "Failed to send message" cause), t')
       ∧ stdin_written (stdin t') = stdin_written (stdin t)).
Proof.
  intros Hdata. split.
  - eexists _, _. split; [reflexivity|].
    unfold sendMessage. rewrite Hdata. reflexivity.
  - intros Hfresh.
    destruct (runTeardown_never_closed t Hfresh) as (t1 & Hrun & _).
    pose proof Hrun as Hrun'.
    destruct Hfresh as (Honce & Hd & Hm & He).
    unfold teardown in Hrun'. simpl in Hrun'. rewrite Hd in Hrun'.
    unfold chan_close in Hrun'. simpl in Hrun'. rewrite Hm in Hrun'.
    simpl in Hrun'. rewrite He in Hrun'. injection Hrun' as <-.
    eexists _, _. unfold close. rewrite Honce, Hrun.
    split; [reflexivity|]. split; [|done].
    unfold sendMessage. rewrite Hdata. reflexivity.
Qed.

End WriteFacts.

(** ** Control requests, answered *)

Section AnswerFacts.
Context `{GoValues, JSONSyntax, !EncodingJSON}.

(** The other goroutine is the reader, taking [line] off the child's
    output while the call of [sendInterrupt] waits. *)
Definition reader_takes (picks : list bool) (line : string)
    (t : transport) : transport :=
  match reader_steps picks t (mkReader [line] None AtScan) with
  | Done (_, t', _) => t'
  | _ => t
  end.

(** What [sendInterrupt] returns for a response. *)
Definition interruptOutcome (resp : ControlResponse) : option error :=
  if ControlResponse_Success resp then None
  else Some (Errorf ("interrupt failed: " +:+ ControlResponse_Error resp)).

(** X10.  An interrupt is completed by the response line the child
    prints.  While the call waits (not cancelled, five seconds not yet
    over), the reader takes a line that is a control response with the
    identifier of the call; it puts the response in the slot the call
    registered, and the call returns: [nil] for a response that reports
    success, the error [interrupt failed: ...] with the response's error
    text otherwise.  The request went out as one line, and the slot is
    gone from the table. *)
Theorem sendInterrupt_completed_by_its_response (now : Z) (w : waiting)
    (t : transport) (data line : string) (resp : ControlResponse)
    (pick1 pick2 : bool) :
  Marshal (interruptRequest now t) = Ok data →
  stdin_closed (stdin t) = false → Cmd_Process (cmd t) = ProcRunning →
  done t = false →
  Z.of_nat (String.length line) < maxBufferSize →
  classify line = Done (RouteResponse resp) →
  ControlResponse_RequestID resp = interruptID now t →
  during w = reader_takes [pick1; pick2] line →
  ctx_err w = None → elapsed w < interruptTimeout →
  ∃ t', sendInterrupt now w t = Done (interruptOutcome resp, t')
      ∧ controlResp t' !! interruptID now t = None
      ∧ stdin_written (stdin t')
        = stdin_written (stdin t) +:+ data +:+ newline
      ∧ chan_buf (messages t') = chan_buf (messages t)
      ∧ chan_buf (errors t') = chan_buf (errors t).
Proof.
  intros Hdata Hopen Hrun Hdone Hsize Hline Hid Hduring Hctx Htime.
  unfold sendInterrupt. fold (interruptID now t).
  change (mkControlRequest "control_request" (interruptID now t)
                           ControlRequestTypeInterrupt)
    with (interruptRequest now t).
  rewrite Hdata. rewrite !stdin_Write_Ok by done.
  set (t2 := set_stdin _ (set_stdin _ _)).
  assert (during w t2
          = set_controlResp
              (<[interruptID now t := mkChan [resp] 1 false]> (controlResp t2))
              t2) as Hafter.
  { rewrite Hduring. unfold reader_takes, reader_steps.
    rewrite reader_step_scan by done. rewrite Hline.
    unfold reader_step. simpl pc. cbv iota. rewrite Hid.
    assert (controlResp t2 !! interruptID now t = Some (make_chan 1)) as ->
      by apply lookup_insert_eq.
    reflexivity. }
  rewrite Hafter.
  assert (controlResp
            (set_controlResp
               (<[interruptID now t := mkChan [resp] 1 false]>
                  (controlResp t2)) t2) !! interruptID now t
          = Some (mkChan [resp] 1 false)) as Hslot
    by apply lookup_insert_eq.
  unfold interrupt_ready. rewrite Hctx, Hslot. simpl.
  destruct (Z.leb_spec interruptTimeout (elapsed w)); [lia|].
  simpl. rewrite choose_singleton. unfold interruptOutcome.
  destruct (ControlResponse_Success resp); simpl;
    (eexists; split; [reflexivity|]; simpl;
     split; [apply lookup_delete_eq|];
     split; [by rewrite string_app_assoc|done]).
Qed.

(** The characters [Sprintf_d] prints: digits and the sign. *)
Fixpoint no_underscore (s : string) : Prop :=
  match s with
  | EmptyString => True
  | String c rest => c ≠ "_"%char ∧ no_underscore rest
  end.

Lemma no_underscore_uint (d : Decimal.uint) :
  no_underscore (NilEmpty.string_of_uint d).
Proof. induction d; simpl; done. Qed.

Lemma no_underscore_Sprintf_d (n : Z) : no_underscore (Sprintf_d n).
Proof.
  unfold Sprintf_d, NilZero.string_of_int, NilZero.string_of_uint.
  destruct (Z.to_int n) as [d|d]; destruct d; simpl;
    repeat split; try done; apply no_underscore_uint.
Qed.

Lemma Sprintf_d_inj (a b : Z) : Sprintf_d a = Sprintf_d b → a = b.
Proof.
  unfold Sprintf_d. intros Heq.
  assert (∀ n, NilZero.int_of_string (NilZero.string_of_int (Z.to_int n))
               = Some (Z.to_int n)) as Hround.
  { intros n. apply NilZero.isi; destruct n; simpl; try done;
      intros [= Hnil]; by apply Unsigned.to_uint_nonnil in Hnil. }
  pose proof (Hround a) as Ha. rewrite Heq, Hround in Ha.
  injection Ha as Ha. by rewrite <- (of_to a), <- (of_to b), Ha.
Qed.

(** Two texts with no underscore in them, each followed by an
    underscore and more: equal wholes have equal parts. *)
Lemma split_at_underscore (a a' b b' : string) :
  no_underscore a → no_underscore a' →
  a +:+ String "_" b = a' +:+ String "_" b' → a = a' ∧ b = b'.
Proof.
  revert a'. induction a as [|c a IH]; intros [|c' a'] Ha Ha' Heq;
    rewrite ?string_app_nil_l, ?string_app_cons in Heq.
  - by injection Heq as ->.
  - injection Heq as <- _. simpl in Ha'. by destruct Ha'.
  - injection Heq as -> _. simpl in Ha. by destruct Ha.
  - injection Heq as -> Heq. simpl in Ha, Ha'.
    destruct (IH a') as [-> ->]; [tauto..|done|done].
Qed.

(** X11.  The request identifier determines the counter and the clock
    reading it was built from: two identifiers are equal only when both
    numbers are.  So the identifiers of two calls of [sendInterrupt] on a
    transport differ, whatever the clock says, since the counter has
    moved on; a response can only be matched with the call it answers. *)
Theorem requestID_is_unique_per_call (t : transport) :
  (∀ counter now counter' now',
     requestID_string counter now = requestID_string counter' now' →
     counter = counter' ∧ now = now')
  ∧ (∀ now now' k, 0 < k →
       interruptID now t
       ≠ interruptID now' (set_requestID (requestID t + k) t)).
Proof.
  assert (∀ counter now counter' now',
            requestID_string counter now = requestID_string counter' now' →
            counter = counter' ∧ now = now') as Hinj.
  { intros c n c' n'. unfold requestID_string.
    rewrite !string_app_cons, string_app_nil_l. intros [= Heq].
    apply split_at_underscore in Heq as [Hc Hn];
      try apply no_underscore_Sprintf_d.
    split; by apply Sprintf_d_inj. }
  split; [done|]. intros now now' k Hk. unfold interruptID. simpl.
  intros [Heq _]%Hinj. lia.
Qed.

End AnswerFacts.

(** ** Shutting down, in full *)

Section TeardownFacts.
Context `{GoValues, JSONSyntax, !EncodingJSON}.

(** [close] on a transport that was never closed, statement by
    statement. *)
Lemma close_never_closed (t : transport) :
  never_closed t →
  ∃ t', close t = Done (None, t')
      ∧ Cmd_Process (cmd t') = ProcExited true
      ∧ stdin_closed (stdin t') = true
      ∧ stdout_closed t' = true ∧ stderr_closed t' = true
      ∧ done t' = true ∧ closeOnce t' = OnceDone
      ∧ queues_closed t'
      ∧ chan_buf (messages t') = chan_buf (messages t)
      ∧ chan_buf (errors t') = chan_buf (errors t)
      ∧ stderrBuf t' = stderrBuf t
      ∧ controlResp t' = controlResp t
      ∧ stdin_written (stdin t') = stdin_written (stdin t)
      ∧ requestID t' = requestID t.
Proof.
  intros (Honce & Hd & Hm & He). unfold close. rewrite Honce.
  unfold teardown. simpl. rewrite Hd. unfold chan_close. simpl.
  rewrite Hm. simpl. rewrite He. eexists. split; [reflexivity|].
  simpl. repeat split.
Qed.

(** X12.  [close] on a transport that was never closed goes through
    without a panic and returns [nil]; afterwards the child is killed and
    reaped, its three pipes are closed on this side, the shutdown signal
    is set and both queues are closed.  What was queued stays queued: the
    messages and errors not yet received, the captured diagnostics, the
    pending control slots and what was written to the child are all as
    before; a receive on either queue then yields what is queued, in
    order, and never blocks. *)
Theorem close_reaps_the_child_and_keeps_what_was_queued (t : transport) :
  never_closed t →
  ∃ t', close t = Done (None, t')
      ∧ Cmd_Process (cmd t') = ProcExited true
      ∧ stdin_closed (stdin t') = true
      ∧ stdout_closed t' = true ∧ stderr_closed t' = true
      ∧ done t' = true ∧ closeOnce t' = OnceDone
      ∧ queues_closed t'
      ∧ chan_buf (messages t') = chan_buf (messages t)
      ∧ chan_buf (errors t') = chan_buf (errors t)
      ∧ stderrBuf t' = stderrBuf t
      ∧ controlResp t' = controlResp t
      ∧ stdin_written (stdin t') = stdin_written (stdin t)
      ∧ requestID t' = requestID t
      ∧ chan_recv (messages t')
        = match chan_buf (messages t) with
          | msg :: rest =>
              Done (Some msg, mkChan rest (chan_cap (messages t)) true)
          | [] => Done (None, messages t')
          end.
Proof.
  intros Hfresh.
  destruct (close_never_closed t Hfresh)
    as (t' & Hclose & Hp & Hi & Ho & He & Hd & Hon & Hq & Hm & Hrest).
  exists t'. split_and!; try done; try apply Hrest.
  destruct Hfresh as (Honce & Hd0 & Hm0 & He0).
  unfold close in Hclose. rewrite Honce in Hclose.
  unfold teardown in Hclose. simpl in Hclose. rewrite Hd0 in Hclose.
  unfold chan_close in Hclose. simpl in Hclose. rewrite Hm0 in Hclose.
  simpl in Hclose. rewrite He0 in Hclose. injection Hclose as <-.
  unfold chan_recv. simpl. by destruct (chan_buf (messages t)).
Qed.

End TeardownFacts.

(** ** The message reader, from end to end *)

Section DeliveryFacts.
Context `{GoValues, JSONSyntax, !EncodingJSON}.

(** A send that went through appended to an open queue with room. *)
Lemma select_send_appends {A : Type} (pick_done : bool) (ch ch' : chan A)
    (x : A) (t : transport) :
  select_send pick_done ch x t = Done (Some ch') →
  ch' = mkChan (chan_buf ch ++ [x]) (chan_cap ch) false
  ∧ (length (chan_buf ch) < chan_cap ch)%nat.
Proof.
  unfold select_send, chan_send, send_ready.
  destruct (chan_closed ch); simpl.
  { destruct (done t), pick_done; done. }
  destruct (Nat.ltb_spec (length (chan_buf ch)) (chan_cap ch));
    destruct (done t), pick_done; intros [= <-]; done.
Qed.

(** What the reader's steps leave of a transport: the queues grown by
    what was pushed, everything else but the control slots as it was. *)
Definition reader_effect (t : transport) (evs : list event) (t' : transport)
    : Prop :=
  chan_buf (messages t') = chan_buf (messages t) ++ pushed_messages evs
  ∧ chan_buf (errors t') = chan_buf (errors t) ++ pushed_errors evs
  ∧ chan_cap (messages t') = chan_cap (messages t)
  ∧ chan_cap (errors t') = chan_cap (errors t)
  ∧ ((length (chan_buf (messages t)) ≤ chan_cap (messages t))%nat →
     (length (chan_buf (messages t')) ≤ chan_cap (messages t'))%nat)
  ∧ ((length (chan_buf (errors t)) ≤ chan_cap (errors t))%nat →
     (length (chan_buf (errors t')) ≤ chan_cap (errors t'))%nat)
  ∧ cmd t' = cmd t ∧ stdin t' = stdin t ∧ stderrBuf t' = stderrBuf t
  ∧ requestID t' = requestID t ∧ done t' = done t.

Lemma reader_effect_refl (t : transport) : reader_effect t [] t.
Proof. unfold reader_effect. simpl. by rewrite !app_nil_r. Qed.

Lemma reader_effect_step (pick_done : bool) (t : transport) (r : reader)
    (ev : event) (t' : transport) (r' : reader) :
  reader_step pick_done t r = Done (ev, t', r') → reader_effect t [ev] t'.
Proof.
  unfold reader_step. destruct r as [lines err pc0]. simpl.
  destruct pc0 as [|[e|m|resp|]|e|].
  - destruct lines as [|line rest].
    { destruct err; intros [= <- <- <-]; apply reader_effect_refl. }
    destruct (maxBufferSize <=? Z.of_nat (String.length line));
      [intros [= <- <- <-]; apply reader_effect_refl|].
    destruct (done t); [intros [= <- <- <-]; apply reader_effect_refl|].
    destruct (classify line) as [[| | |]| |]; try done;
      intros [= <- <- <-]; apply reader_effect_refl.
  - destruct (select_send pick_done (errors t) e t) as [[ch|]| |] eqn:Hs;
      intros [= <- <- <-]; [|apply reader_effect_refl].
    apply select_send_appends in Hs as [-> Hroom].
    unfold reader_effect. simpl. rewrite app_nil_r, length_app. simpl.
    repeat split; try done. lia.
  - destruct (select_send pick_done (messages t) m t) as [[ch|]| |] eqn:Hs;
      intros [= <- <- <-]; [|apply reader_effect_refl].
    apply select_send_appends in Hs as [-> Hroom].
    unfold reader_effect. simpl. rewrite app_nil_r, length_app. simpl.
    repeat split; try done. lia.
  - destruct (controlResp t !! ControlResponse_RequestID resp) as [ch|].
    + destruct (chan_send ch resp); intros [= <- <- <-].
      unfold reader_effect. simpl. by rewrite !app_nil_r.
    + intros [= <- <- <-]; apply reader_effect_refl.
  - intros [= <- <- <-]; apply reader_effect_refl.
  - destruct (select_send pick_done (errors t) e t) as [[ch|]| |] eqn:Hs;
      intros [= <- <- <-]; [|apply reader_effect_refl].
    apply select_send_appends in Hs as [-> Hroom].
    unfold reader_effect. simpl. rewrite app_nil_r, length_app. simpl.
    repeat split; try done. lia.
  - intros [= <- <- <-]; apply reader_effect_refl.
Qed.

Lemma pushed_messages_cons (ev : event) (evs : list event) :
  pushed_messages (ev :: evs) = pushed_messages [ev] ++ pushed_messages evs.
Proof. unfold pushed_messages. by destruct ev. Qed.

Lemma pushed_errors_cons (ev : event) (evs : list event) :
  pushed_errors (ev :: evs) = pushed_errors [ev] ++ pushed_errors evs.
Proof. unfold pushed_errors. by destruct ev. Qed.

Lemma reader_effect_steps (picks : list bool) (t : transport) (r : reader)
    (evs : list event) (t' : transport) (r' : reader) :
  reader_steps picks t r = Done (evs, t', r') → reader_effect t evs t'.
Proof.
  revert t r evs. induction picks as [|p picks IH]; intros t r evs; simpl.
  - intros [= <- <- <-]. apply reader_effect_refl.
  - destruct (reader_step p t r) as [[[ev t1] r1]| |] eqn:Hstep; [|done..].
    destruct (reader_steps picks t1 r1) as [[[evs1 t2] r2]| |] eqn:Hrest;
      [|done..].
    intros [= <- <- <-].
    apply reader_effect_step in Hstep. apply IH in Hrest.
    destruct Hstep as (Hm1 & He1 & Hcm1 & Hce1 & Hbm1 & Hbe1 & ? & ? & ? & ? & ?).
    destruct Hrest as (Hm2 & He2 & Hcm2 & Hce2 & Hbm2 & Hbe2 & ? & ? & ? & ? & ?).
    unfold reader_effect. split_and!; try congruence.
    + by rewrite (pushed_messages_cons ev evs1), Hm2, Hm1, app_assoc.
    + by rewrite (pushed_errors_cons ev evs1), He2, He1, app_assoc.
    + intros Hb. by apply Hbm2, Hbm1.
    + intros Hb. by apply Hbe2, Hbe1.
Qed.

(** X13.  The reader puts what it pushes at the back of the queues, in
    the order it pushed: after any number of its steps the message queue
    holds what it held followed by the messages pushed, the error queue
    likewise; nothing is dropped, doubled or reordered, and a queue never
    holds more than its capacity.  The reader touches nothing else of the
    transport but the control slots.  On a transport fresh from
    [newTransport], with nobody receiving, the queues hold exactly what
    was pushed: at most 100 messages and 10 errors. *)
Theorem reader_fills_the_queues_in_order (picks : list bool) (t : transport)
    (r : reader) (evs : list event) (t' : transport) (r' : reader) :
  reader_steps picks t r = Done (evs, t', r') →
  chan_buf (messages t') = chan_buf (messages t) ++ pushed_messages evs
  ∧ chan_buf (errors t') = chan_buf (errors t) ++ pushed_errors evs
  ∧ ((length (chan_buf (messages t)) ≤ chan_cap (messages t))%nat →
     (length (chan_buf (messages t')) ≤ chan_cap (messages t))%nat)
  ∧ ((length (chan_buf (errors t)) ≤ chan_cap (errors t))%nat →
     (length (chan_buf (errors t')) ≤ chan_cap (errors t))%nat)
  ∧ (cmd t' = cmd t ∧ stdin t' = stdin t ∧ stderrBuf t' = stderrBuf t
     ∧ requestID t' = requestID t ∧ done t' = done t)
  ∧ (∀ os options streaming,
       newTransport os options streaming = Ok t →
       chan_buf (messages t') = pushed_messages evs
       ∧ chan_buf (errors t') = pushed_errors evs
       ∧ (length (pushed_messages evs) ≤ 100)%nat
       ∧ (length (pushed_errors evs) ≤ 10)%nat).
Proof.
  intros Hsteps. apply reader_effect_steps in Hsteps.
  destruct Hsteps as (Hm & He & Hcm & Hce & Hbm & Hbe & Hrest).
  split; [done|]. split; [done|].
  split; [intros Hb; rewrite <- Hcm; auto|].
  split; [intros Hb; rewrite <- Hce; auto|]. split; [done|].
  intros os options streaming Hnew.
  assert (chan_buf (messages t) = [] ∧ chan_cap (messages t) = 100%nat
          ∧ chan_buf (errors t) = [] ∧ chan_cap (errors t) = 10%nat)
    as (Hm0 & Hcm0 & He0 & Hce0).
  { unfold newTransport, startTransport in Hnew.
    destruct (findCLI os); [|done].
    destruct (StdinPipe_err os); [done|].
    destruct (StdoutPipe_err os); [done|].
    destruct (StderrPipe_err os); [done|].
    destruct (Start_err os); [done|]. by injection Hnew as <-. }
  rewrite Hm0 in Hm. rewrite He0 in He. simpl in Hm, He.
  split; [done|]. split; [done|].
  rewrite <- Hm, <- He. rewrite Hm0, Hcm0 in Hbm. rewrite He0, Hce0 in Hbe.
  rewrite Hcm, Hcm0 in Hbm. rewrite Hce, Hce0 in Hbe.
  split; [apply Hbm|apply Hbe]; simpl; lia.
Qed.

(** The error the reader reports for a line its buffer cannot hold. *)
Definition tooLong : error :=
  NewCLIConnectionError "Error reading stdout" ErrTooLong.

(** Where the reader can be once it met a line that is too long. *)
Definition after_overlong (first : reader) (r : reader) : Prop :=
  r = first ∨ r = mkReader [] None (AtScanErr tooLong)
  ∨ r = mkReader [] None Returned.

(** The errors it may still push from there. *)
Definition errors_left (r : reader) : list error :=
  match pc r with
  | Returned => []
  | _ => [tooLong]
  end.

Lemma overlong_step (pick_done : bool) (t : transport) (line : string)
    (rest : list string) (err : option error) (r : reader)
    (ev : event) (t' : transport) (r' : reader) :
  maxBufferSize ≤ Z.of_nat (String.length line) →
  after_overlong (mkReader (line :: rest) err AtScan) r →
  reader_step pick_done t r = Done (ev, t', r') →
  pushed_messages [ev] = []
  ∧ after_overlong (mkReader (line :: rest) err AtScan) r'
  ∧ pushed_errors [ev] ++ errors_left r' `prefix_of` errors_left r.
Proof.
  intros Hlong [->|[->| ->]]; unfold reader_step; simpl.
  - destruct (Z.leb_spec maxBufferSize (Z.of_nat (String.length line)));
      [|lia].
    intros [= <- <- <-]. split; [done|]. split; [|done]. right; left. done.
  - destruct (select_send pick_done (errors t) tooLong t) as [[ch|]| |];
      intros [= <- <- <-]; (split; [done|]);
      (split; [by right; right|]); simpl; [done|apply prefix_nil].
  - intros [= <- <- <-]. split; [done|]. split; [|done]. by right; right.
Qed.

Lemma overlong_run (t : transport) (line : string) (rest : list string)
    (err : option error) (r : reader) (evs : list event) (t' : transport)
    (r' : reader) :
  maxBufferSize ≤ Z.of_nat (String.length line) →
  run t r evs t' r' →
  after_overlong (mkReader (line :: rest) err AtScan) r →
  pushed_messages evs = []
  ∧ pushed_errors evs `prefix_of` errors_left r
  ∧ after_overlong (mkReader (line :: rest) err AtScan) r'.
Proof.
  intros Hlong Hrun.
  induction Hrun as [t r|pick_done t r ev t1 r1 evs t2 r2 Hstep _ IH
                    |t t1 r evs t2 r2 _ IH]; intros Hinv.
  - split; [done|]. split; [apply prefix_nil|done].
  - destruct (overlong_step _ _ line rest err _ _ _ _ Hlong Hinv Hstep)
      as (Hnone & Hinv1 & Hleft).
    destruct (IH Hinv1) as (Hmsgs & Herrs & Hinv2).
    split; [by rewrite pushed_messages_cons, Hnone, Hmsgs|].
    split; [|done]. rewrite pushed_errors_cons.
    etrans; [|exact Hleft]. by apply prefix_app.
  - by apply IH.
Qed.

(** X14.  A line of 1 MiB or more ends the reading.  Whatever follows
    it on the child's output and whatever the other goroutines do: from
    the moment the reader meets the line it pushes no message at all, and
    at most one error, the connection error for the scanner's
    [token too long]; the line itself and every line after it are lost.
    With shutdown not signalled and room in the error queue the error is
    pushed and the reader returns, in two steps. *)
Theorem overlong_line_ends_the_reading (t : transport) (line : string)
    (rest : list string) (err : option error) (evs : list event)
    (t' : transport) (r' : reader) :
  maxBufferSize ≤ Z.of_nat (String.length line) →
  run t (mkReader (line :: rest) err AtScan) evs t' r' →
  pushed_messages evs = []
  ∧ pushed_errors evs `prefix_of` [tooLong]
  ∧ (r' = mkReader (line :: rest) err AtScan ∨ stdout_lines r' = [])
  ∧ (∀ pick1 pick2, done t = false → has_room (errors t) →
       reader_steps [pick1; pick2] t (mkReader (line :: rest) err AtScan)
       = Done ([EvNone; EvError tooLong], push_error tooLong t,
               mkReader [] None Returned)).
Proof.
  intros Hlong Hrun.
  destruct (overlong_run _ line rest err _ _ _ _ Hlong Hrun) as (Hm & He & Hinv);
    [by left|].
  split; [done|]. split; [done|]. split.
  - destruct Hinv as [->|[->| ->]]; [by left|by right..].
  - intros pick1 pick2 Hdone Hroom. unfold reader_steps, reader_step.
    simpl.
    destruct (Z.leb_spec maxBufferSize (Z.of_nat (String.length line)));
      [|lia].
    simpl. fold tooLong. by rewrite select_send_room.
Qed.

(** Steps the reader has ahead of it, at most, once shutdown was
    signalled. *)
Definition steps_to_return (r : reader) : nat :=
  match pc r with
  | Returned => 0
  | AtScanErr _ => 1
  | AtScan => 2
  | Holding _ => 3
  end.

(** The message the reader stands ready to push. *)
Definition held_message (r : reader) : list Message :=
  match pc r with
  | Holding (SendMsg m) => [m]
  | _ => []
  end.

(** How many errors it may push before it returns, at most. *)
Definition errors_ahead (r : reader) : nat :=
  match pc r with
  | Returned => 0
  | Holding (SendError _) => 2
  | _ => 1
  end.

Lemma shutdown_step (pick_done : bool) (t : transport) (r : reader)
    (ev : event) (t' : transport) (r' : reader) :
  done t = true →
  reader_step pick_done t r = Done (ev, t', r') →
  done t' = true
  ∧ (steps_to_return r' < steps_to_return r
     ∨ steps_to_return r' = 0 ∧ steps_to_return r = 0)%nat
  ∧ pushed_messages [ev] ++ held_message r' `prefix_of` held_message r
  ∧ (length (pushed_errors [ev]) + errors_ahead r' ≤ errors_ahead r)%nat
  ∧ (stdout_lines r' = stdout_lines r ∨ pc r = AtScan).
Proof.
  intros Hdone. unfold reader_step, steps_to_return, held_message,
    errors_ahead.
  destruct r as [lines err pc0]. simpl.
  destruct pc0 as [|[e|m|resp|]|e|].
  - destruct lines as [|line rest].
    { destruct err; intros [= <- <- <-]; simpl;
        repeat split; auto; lia. }
    destruct (maxBufferSize <=? Z.of_nat (String.length line)).
    { intros [= <- <- <-]; simpl; repeat split; auto; lia. }
    rewrite Hdone. intros [= <- <- <-]; simpl; repeat split; auto; lia.
  - destruct (select_send pick_done (errors t) e t) as [[ch|]| |];
      intros [= <- <- <-]; simpl; repeat split; auto; lia.
  - destruct (select_send pick_done (messages t) m t) as [[ch|]| |];
      intros [= <- <- <-]; simpl; repeat split; auto; try lia.
    apply prefix_nil.
  - destruct (controlResp t !! ControlResponse_RequestID resp) as [ch|].
    + destruct (chan_send ch resp); intros [= <- <- <-]; simpl;
        repeat split; auto; lia.
    + intros [= <- <- <-]; simpl; repeat split; auto; lia.
  - intros [= <- <- <-]; simpl; repeat split; auto; lia.
  - destruct (select_send pick_done (errors t) e t) as [[ch|]| |];
      intros [= <- <- <-]; simpl; repeat split; auto; lia.
  - intros [= <- <- <-]; simpl; repeat split; auto; lia.
Qed.

Lemma shutdown_steps (picks : list bool) (t : transport) (r : reader)
    (evs : list event) (t' : transport) (r' : reader) :
  done t = true →
  reader_steps picks t r = Done (evs, t', r') →
  done t' = true
  ∧ (steps_to_return r' + length picks ≤ steps_to_return r
     ∨ steps_to_return r' = 0)%nat
  ∧ pushed_messages evs `prefix_of` held_message r
  ∧ (length (pushed_errors evs) ≤ errors_ahead r)%nat.
Proof.
  revert t r evs. induction picks as [|p picks IH]; intros t r evs Hdone;
    simpl.
  - intros [= <- <- <-]. split; [done|]. split; [left; lia|].
    split; [apply prefix_nil|simpl; lia].
  - destruct (reader_step p t r) as [[[ev t1] r1]| |] eqn:Hstep; [|done..].
    destruct (reader_steps picks t1 r1) as [[[evs1 t2] r2]| |] eqn:Hrest;
      [|done..].
    intros [= <- <- <-].
    destruct (shutdown_step _ _ _ _ _ _ Hdone Hstep)
      as (Hdone1 & Hless & Hheld & Herrs & _).
    destruct (IH _ _ _ Hdone1 Hrest) as (Hdone2 & Hsteps & Hmsgs & Herrs2).
    split; [done|]. split; [lia|]. split.
    + rewrite pushed_messages_cons. etrans; [|exact Hheld].
      by apply prefix_app.
    + rewrite pushed_errors_cons, length_app. lia.
Qed.

(** X15.  Shutdown stops the reader.  Once the shutdown signal is set,
    the reader on its own decodes no further line: from the scan it
    returns without pushing any message, and in all it pushes at most the
    one message it was already holding and at most two errors (one it was
    holding, and the scanner's); it has returned after three steps at
    most, two from the scan, and it leaves the signal set. *)
Theorem reader_stops_after_shutdown (picks : list bool) (t : transport)
    (r : reader) (evs : list event) (t' : transport) (r' : reader) :
  done t = true →
  reader_steps picks t r = Done (evs, t', r') →
  pushed_messages evs `prefix_of` held_message r
  ∧ (pc r = AtScan → pushed_messages evs = [])
  ∧ (length (pushed_messages evs) + length (pushed_errors evs) ≤ 2)%nat
  ∧ ((3 ≤ length picks)%nat → pc r' = Returned)
  ∧ (pc r = AtScan → (2 ≤ length picks)%nat → pc r' = Returned)
  ∧ done t' = true.
Proof.
  intros Hdone Hsteps.
  destruct (shutdown_steps _ _ _ _ _ _ Hdone Hsteps)
    as (Hdone' & Hcount & Hmsgs & Herrs).
  assert (∀ r0 : reader, steps_to_return r0 = 0%nat → pc r0 = Returned)
    as Hzero.
  { intros r0. unfold steps_to_return. by destruct (pc r0). }
  split; [done|]. split; [|split; [|split; [|split; [|done]]]].
  - intros Hpc. unfold held_message in Hmsgs. rewrite Hpc in Hmsgs.
    by apply prefix_nil_inv in Hmsgs.
  - apply prefix_length in Hmsgs.
    unfold held_message in Hmsgs. unfold errors_ahead in Herrs.
    destruct (pc r) as [|[]| |]; simpl in *; lia.
  - intros Hlen. apply Hzero.
    assert (steps_to_return r ≤ 3)%nat
      by (unfold steps_to_return; destruct (pc r); lia). lia.
  - intros Hpc Hlen. apply Hzero. unfold steps_to_return in Hcount at 2.
    rewrite Hpc in Hcount. lia.
Qed.

(** The error a line has the reader report, if any. *)
Definition reported_error (line : string) : option error :=
  match classify line with
  | Done (SendError e) => Some e
  | _ => None
  end.

(** The error the reader reports when the stream ends with [err]. *)
Definition scan_error (err : option error) : list error :=
  match err with
  | Some e => [NewCLIConnectionError "Error reading stdout" e]
  | None => []
  end.

Lemma reader_steps_returned (picks : list bool) (t : transport) :
  ∃ evs, reader_steps picks t (mkReader [] None Returned)
         = Done (evs, t, mkReader [] None Returned)
       ∧ pushed_messages evs = [] ∧ pushed_errors evs = [].
Proof.
  induction picks as [|p picks [evs (Hsteps & Hm & He)]]; simpl.
  - by exists [].
  - rewrite Hsteps. by exists (EvNone :: evs).
Qed.

Lemma reader_steps_cons (p : bool) (picks : list bool) (t : transport)
    (r : reader) (ev : event) (t1 : transport) (r1 : reader)
    (evs : list event) (t2 : transport) (r2 : reader) :
  reader_step p t r = Done (ev, t1, r1) →
  reader_steps picks t1 r1 = Done (evs, t2, r2) →
  reader_steps (p :: picks) t r = Done (ev :: evs, t2, r2).
Proof. intros Hstep Hrest. simpl. by rewrite Hstep, Hrest. Qed.

(** The end of the stream: the reader reports the read error, if there
    is one, and returns. *)
Lemma reader_steps_end (picks : list bool) (t : transport)
    (err : option error) :
  done t = false → chan_closed (errors t) = false →
  (length (chan_buf (errors t)) + length (scan_error err)
   ≤ chan_cap (errors t))%nat →
  (2 ≤ length picks)%nat →
  ∃ evs t', reader_steps picks t (mkReader [] err AtScan)
            = Done (evs, t', mkReader [] None Returned)
          ∧ pushed_messages evs = []
          ∧ pushed_errors evs = scan_error err
          ∧ chan_buf (messages t') = chan_buf (messages t)
          ∧ chan_buf (errors t') = chan_buf (errors t) ++ scan_error err.
Proof.
  intros Hdone Hopen Hroom Hlen.
  destruct picks as [|p1 [|p2 picks]];
    [simpl in Hlen; lia|simpl in Hlen; lia|]. clear Hlen.
  destruct err as [e|].
  - set (E := NewCLIConnectionError "Error reading stdout" e).
    assert (has_room (errors t)) as Hhas.
    { split; [done|]. simpl in Hroom. lia. }
    destruct (reader_steps_returned picks (push_error E t))
      as (evs & Hsteps & Hm & He).
    exists (EvNone :: EvError E :: evs), (push_error E t). split.
    { apply (reader_steps_cons _ _ _ _ _ t (mkReader [] None (AtScanErr E)));
        [reflexivity|].
      apply (reader_steps_cons _ _ _ _ _ (push_error E t)
                               (mkReader [] None Returned));
        [|exact Hsteps].
      unfold reader_step. simpl pc. cbv iota.
      rewrite (select_send_room _ _ _ _ Hdone Hhas). reflexivity. }
    rewrite (pushed_messages_cons EvNone), (pushed_messages_cons (EvError E)).
    rewrite (pushed_errors_cons EvNone), (pushed_errors_cons (EvError E)).
    rewrite Hm, He. done.
  - destruct (reader_steps_returned (p2 :: picks) t)
      as (evs & Hsteps & Hm & He).
    exists (EvNone :: evs), t. split.
    { apply (reader_steps_cons _ _ _ _ _ t (mkReader [] None Returned));
        [reflexivity|exact Hsteps]. }
    rewrite (pushed_messages_cons EvNone), (pushed_errors_cons EvNone).
    rewrite Hm, He. simpl. by rewrite app_nil_r.
Qed.

Lemma reported_errors_cons (line : string) (rest : list string) :
  omap reported_error (line :: rest)
  = match classify line with
    | Done (SendError e) => e :: omap reported_error rest
    | _ => omap reported_error rest
    end.
Proof.
  simpl. unfold reported_error at 1.
  by destruct (classify line) as [[| | |]| |].
Qed.

(** X16.  With room in the queues the reader delivers everything.  On
    a transport that is open, with no interrupt waiting, whose queues have
    room for what the stream holds: for lines that fit the buffer and
    that the parser decides on, the reader, given steps enough (two per
    line and two more), works through the whole stream and returns.  The
    messages it pushed are then the conversation frames of the stream,
    all of them, in order; the errors it pushed are the ones the lines
    call for, in order, then the read error the stream ended with, if
    any; and the queues hold just that after what they held. *)
Theorem reader_delivers_the_whole_stream (picks : list bool) (t : transport)
    (lines : list string) (err : option error) :
  done t = false → controlResp t = ∅ →
  chan_closed (messages t) = false → chan_closed (errors t) = false →
  Forall (fun line => Z.of_nat (String.length line) < maxBufferSize
                      ∧ ∃ p, classify line = Done p) lines →
  (length (chan_buf (messages t)) + length (omap conversation_message lines)
   ≤ chan_cap (messages t))%nat →
  (length (chan_buf (errors t)) + length (omap reported_error lines)
   + length (scan_error err) ≤ chan_cap (errors t))%nat →
  (2 * length lines + 2 ≤ length picks)%nat →
  ∃ evs t',
    reader_steps picks t (mkReader lines err AtScan)
    = Done (evs, t', mkReader [] None Returned)
    ∧ pushed_messages evs = omap conversation_message lines
    ∧ pushed_errors evs = omap reported_error lines ++ scan_error err
    ∧ chan_buf (messages t')
      = chan_buf (messages t) ++ omap conversation_message lines
    ∧ chan_buf (errors t')
      = chan_buf (errors t) ++ omap reported_error lines ++ scan_error err.
Proof.
  revert picks t.
  induction lines as [|line rest IH];
    intros picks t Hdone Hslots Hmopen Heopen Hlines Hmroom Heroom Hlen.
  - simpl in Hmroom, Heroom, Hlen.
    destruct (reader_steps_end picks t err)
      as (evs & t' & Hsteps & Hm & He & Hbm & Hbe); try done; try lia.
    exists evs, t'. simpl. by rewrite app_nil_r.
  - apply Forall_cons in Hlines as [[Hsize [p Hp]] Hlines].
    rewrite conversation_messages_cons in Hmroom |- *.
    rewrite reported_errors_cons in Heroom |- *.
    destruct picks as [|p1 picks]; [simpl in Hlen; lia|].
    pose proof (reader_step_scan p1 t line rest err Hsize Hdone) as Hscan.
    rewrite Hp in Hscan |- *. rewrite Hp in Hmroom, Heroom.
    simpl in Hlen.
    destruct p as [e|m|resp|].
    + destruct picks as [|p2 picks]; [simpl in Hlen; lia|]. simpl in Hlen.
      assert (has_room (errors t)) as Hhas.
      { split; [done|]. simpl in Heroom. lia. }
      destruct (IH picks (push_error e t))
        as (evs & t' & Hsteps & Hm & He & Hbm & Hbe); try done.
      { simpl in Heroom |- *. rewrite length_app. simpl. lia. }
      { lia. }
      exists (EvNone :: EvError e :: evs), t'. split.
      { apply (reader_steps_cons _ _ _ _ _ t
                 (mkReader rest err (Holding (SendError e))));
          [exact Hscan|].
        apply (reader_steps_cons _ _ _ _ _ (push_error e t)
                 (mkReader rest err AtScan)); [|exact Hsteps].
        by apply reader_step_send_error. }
      rewrite (pushed_messages_cons EvNone),
        (pushed_messages_cons (EvError e)).
      rewrite (pushed_errors_cons EvNone), (pushed_errors_cons (EvError e)).
      rewrite Hm, He, Hbm, Hbe. simpl. by rewrite <- !app_assoc.
    + destruct picks as [|p2 picks]; [simpl in Hlen; lia|]. simpl in Hlen.
      assert (has_room (messages t)) as Hhas.
      { split; [done|]. simpl in Hmroom. lia. }
      destruct (IH picks (push_message m t))
        as (evs & t' & Hsteps & Hm & He & Hbm & Hbe); try done.
      { simpl in Hmroom |- *. rewrite length_app. simpl. lia. }
      { lia. }
      exists (EvNone :: EvMessage m :: evs), t'. split.
      { apply (reader_steps_cons _ _ _ _ _ t
                 (mkReader rest err (Holding (SendMsg m))));
          [exact Hscan|].
        apply (reader_steps_cons _ _ _ _ _ (push_message m t)
                 (mkReader rest err AtScan)); [|exact Hsteps].
        by apply reader_step_send_message. }
      rewrite (pushed_messages_cons EvNone),
        (pushed_messages_cons (EvMessage m)).
      rewrite (pushed_errors_cons EvNone), (pushed_errors_cons (EvMessage m)).
      rewrite Hm, He, Hbm, Hbe. simpl. by rewrite <- !app_assoc.
    + destruct picks as [|p2 picks]; [simpl in Hlen; lia|]. simpl in Hlen.
      destruct (IH picks t)
        as (evs & t' & Hsteps & Hm & He & Hbm & Hbe); try done.
      { lia. }
      exists (EvNone :: EvDropped resp :: evs), t'. split.
      { apply (reader_steps_cons _ _ _ _ _ t
                 (mkReader rest err (Holding (RouteResponse resp))));
          [exact Hscan|].
        apply (reader_steps_cons _ _ _ _ _ t (mkReader rest err AtScan));
          [|exact Hsteps].
        unfold reader_step. simpl pc. cbv iota.
        by rewrite Hslots, lookup_empty. }
      rewrite (pushed_messages_cons EvNone),
        (pushed_messages_cons (EvDropped resp)).
      rewrite (pushed_errors_cons EvNone),
        (pushed_errors_cons (EvDropped resp)).
      rewrite Hm, He. done.
    + destruct (IH picks t)
        as (evs & t' & Hsteps & Hm & He & Hbm & Hbe); try done.
      { lia. }
      exists (EvNone :: evs), t'. split.
      { apply (reader_steps_cons _ _ _ _ _ t (mkReader rest err AtScan));
          [exact Hscan|exact Hsteps]. }
      rewrite (pushed_messages_cons EvNone), (pushed_errors_cons EvNone).
      rewrite Hm, He. done.
Qed.

End DeliveryFacts.

(** ** Draining the diagnostics *)

Section CollectFacts.

Definition is_tick (p : poll) : Prop :=
  match p with
  | TickerC _ _ => True
  | TimerC _ => False
  end.

(** A tick at which the buffer was [n] bytes long. *)
Definition tick_of_size (n : Z) (p : poll) : Prop :=
  match p with
  | TickerC seen _ => Z.of_nat (length seen) = n
  | TimerC _ => False
  end.

(** What [String()] read at a poll. *)
Definition poll_buf (p : poll) : list byte :=
  match p with
  | TimerC buf => buf
  | TickerC _ buf => buf
  end.

Lemma tick_of_size_is_tick (n : Z) (p : poll) : tick_of_size n p → is_tick p.
Proof. by destruct p. Qed.

(** Where the loop returns: at the timer, or at a tick that ends a run
    of ticks at the same size, long enough to bring the count to three. *)
Lemma collectStderr_loop_returns (lastSize stableCount : Z)
    (polls : list poll) (s : string) :
  0 ≤ stableCount ≤ 2 →
  collectStderr_loop lastSize stableCount polls = Some s →
  (∃ before buf after,
     polls = before ++ TimerC buf :: after ∧ Forall is_tick before
     ∧ s = string_of_bytes buf)
  ∨ (∃ before run p after n,
       polls = before ++ run ++ p :: after ∧ Forall is_tick before
       ∧ Forall (tick_of_size n) (run ++ [p])
       ∧ s = string_of_bytes (poll_buf p)
       ∧ (length (run ++ [p]) = 3%nat
          ∨ (Z.of_nat (length (run ++ [p])) = 3 - stableCount
             ∧ before = [] ∧ n = lastSize))).
Proof.
  revert lastSize stableCount.
  induction polls as [|[buf|seen buf] polls IH]; intros lastSize sc Hsc;
    simpl; [done| |].
  - intros [= <-]. left. by exists [], buf, polls.
  - destruct (Z.eqb_spec (Z.of_nat (length seen)) lastSize) as [Heq|Hne].
    + destruct (Z.leb_spec 3 (sc + 1)) as [Hthree|Hless].
      * intros [= <-]. right.
        exists [], [], (TickerC seen buf), polls, lastSize. simpl.
        split; [done|]. split; [done|].
        split; [by apply Forall_singleton|]. split; [done|].
        right. split; [lia|done].
      * intros Hrest. destruct (IH lastSize (sc + 1)) as
          [(before & b & after & -> & Htick & ->)
          |(before & run & p & after & n & -> & Htick & Hrun & -> & Hlen)];
          [lia|done| |].
        { left. exists (TickerC seen buf :: before), b, after.
          split; [done|]. split; [by constructor|done]. }
        right. destruct Hlen as [Hlen|(Hlen & -> & ->)].
        { exists (TickerC seen buf :: before), run, p, after, n.
          split; [done|]. split; [by constructor|]. split; [done|].
          split; [done|]. by left. }
        exists [], (TickerC seen buf :: run), p, after, lastSize.
        split; [done|]. split; [done|].
        split; [by constructor|]. split; [done|].
        right. split; [|done]. simpl in Hlen |- *. lia.
    + intros Hrest.
      destruct (IH (Z.of_nat (length seen)) 0) as
        [(before & b & after & -> & Htick & ->)
        |(before & run & p & after & n & -> & Htick & Hrun & -> & Hlen)];
        [lia|done| |].
      { left. exists (TickerC seen buf :: before), b, after.
        split; [done|]. split; [by constructor|done]. }
      right. exists (TickerC seen buf :: before), run, p, after, n.
      split; [done|]. split; [by constructor|]. split; [done|].
      split; [done|]. left. destruct Hlen as [Hlen|(Hlen & _)]; lia.
Qed.

Lemma collectStderr_loop_timer (lastSize stableCount : Z)
    (before : list poll) (buf : list byte) (after : list poll) :
  Forall is_tick before →
  is_Some (collectStderr_loop lastSize stableCount
             (before ++ TimerC buf :: after)).
Proof.
  intros Hticks. revert lastSize stableCount.
  induction Hticks as [|[b|seen b] before Htick _ IH];
    intros lastSize sc; simpl; [by eexists|done|].
  destruct (Z.of_nat (length seen) =? lastSize); [|apply IH].
  destruct (3 <=? sc + 1); [by eexists|apply IH].
Qed.

(** X17.  [collectStderr] returns the buffer as it reads it at the
    moment it stops, and it stops only at the timer or at a tick that is
    the third in a row to find the buffer at one and the same length.  So
    on ticks alone it never returns before the third tick; once the timer
    fires it always returns; and with nothing captured at all it returns
    at the third tick. *)
Theorem collectStderr_waits_for_three_equal_ticks (polls : list poll) :
  (∀ s, collectStderr polls = Some s →
     (∃ before buf after,
        polls = before ++ TimerC buf :: after ∧ Forall is_tick before
        ∧ s = string_of_bytes buf)
     ∨ (∃ before seen1 buf1 seen2 buf2 seen3 buf3 after,
          polls = before ++ TickerC seen1 buf1 :: TickerC seen2 buf2
                         :: TickerC seen3 buf3 :: after
          ∧ Forall is_tick before
          ∧ length seen1 = length seen2 ∧ length seen2 = length seen3
          ∧ s = string_of_bytes buf3))
  ∧ (Forall is_tick polls → (length polls < 3)%nat →
     collectStderr polls = None)
  ∧ (∀ before buf after,
       polls = before ++ TimerC buf :: after → Forall is_tick before →
       is_Some (collectStderr polls))
  ∧ (∀ buf1 buf2 buf3 after,
       polls = TickerC [] buf1 :: TickerC [] buf2 :: TickerC [] buf3 :: after →
       collectStderr polls = Some (string_of_bytes buf3)).
Proof.
  assert (∀ s, collectStderr polls = Some s →
     (∃ before buf after,
        polls = before ++ TimerC buf :: after ∧ Forall is_tick before
        ∧ s = string_of_bytes buf)
     ∨ (∃ before seen1 buf1 seen2 buf2 seen3 buf3 after,
          polls = before ++ TickerC seen1 buf1 :: TickerC seen2 buf2
                         :: TickerC seen3 buf3 :: after
          ∧ Forall is_tick before
          ∧ length seen1 = length seen2 ∧ length seen2 = length seen3
          ∧ s = string_of_bytes buf3)) as Hreturns.
  { intros s Hs. unfold collectStderr in Hs.
    apply collectStderr_loop_returns in Hs; [|lia].
    destruct Hs
      as [Htimer|(before & run & p & after & n & -> & Htick & Hrun & -> & Hlen)];
      [by left|]. right.
    assert (length (run ++ [p]) = 3%nat) as Hthree
      by (destruct Hlen as [?|(? & _)]; lia).
    rewrite length_app in Hthree. simpl in Hthree.
    destruct run as [|q1 [|q2 [|]]]; simpl in Hthree; try lia.
    apply Forall_app in Hrun as [Hrun Hp].
    apply Forall_cons in Hrun as [H1 Hrun].
    apply Forall_cons in Hrun as [H2 _].
    apply Forall_cons in Hp as [Hp _].
    destruct q1 as [?|seen1 buf1], q2 as [?|seen2 buf2], p as [?|seen3 buf3];
      simpl in H1, H2, Hp; try done.
    exists before, seen1, buf1, seen2, buf2, seen3, buf3, after.
    split; [done|]. split; [done|]. split; [lia|]. split; [lia|done]. }
  split; [done|]. split; [|split].
  - intros Hticks Hshort.
    destruct (collectStderr polls) as [s|] eqn:Hs; [|done].
    destruct (Hreturns s eq_refl)
      as [(before & buf & after & -> & _)
         |(before & ? & ? & ? & ? & ? & ? & after & -> & _)].
    + apply Forall_app in Hticks as [_ Hticks].
      by apply Forall_cons in Hticks as [? _].
    + rewrite length_app in Hshort. simpl in Hshort. lia.
  - intros before buf after -> Hticks. by apply collectStderr_loop_timer.
  - by intros buf1 buf2 buf3 after ->.
Qed.

End CollectFacts.

(** ** The session client, in use *)

Section SessionFacts.
Context `{GoValues, JSONSyntax, !EncodingJSON}.

Definition is_result (m : Message) : Prop :=
  match m with
  | MsgResult _ => True
  | _ => False
  end.

(** The client with [msgs] added to its history, one by one. *)
Definition recorded (msgs : list Message) (c : Client) : Client :=
  fold_left (fun c msg => record_message msg c) msgs c.

Lemma recorded_messages (msgs : list Message) (c : Client) :
  recorded msgs c
  = mkClient (Client_transport c) (Client_options c)
             (Client_messages c ++ msgs) (Client_closed c)
             (Client_connected c).
Proof.
  unfold recorded. revert c. induction msgs as [|m msgs IH]; intros c; simpl.
  - rewrite app_nil_r. by destruct c.
  - rewrite IH. simpl. by rewrite <- app_assoc.
Qed.

(** What ends the wait of [WaitForResult], with what it returns. *)
Definition wait_outcome (stop : received)
    : option (option ResultMessage * option error * list Message) :=
  match stop with
  | RecvCtxDone err => Some (None, Some err, [])
  | RecvErr err => Some (None, err, [])
  | RecvMsg None => Some (None, Some ErrChannelClosed, [])
  | RecvMsg (Some (MsgResult res)) => Some (Some res, None, [MsgResult res])
  | RecvMsg (Some _) => None
  end.

Lemma WaitForResult_loop_messages (msgs : list Message)
    (rest : list received) (c : Client) :
  Forall (fun m => ¬ is_result m) msgs →
  WaitForResult_loop ((RecvMsg ∘ Some <$> msgs) ++ rest) c
  = WaitForResult_loop rest (recorded msgs c).
Proof.
  intros Hnone. revert c.
  induction Hnone as [|m msgs Hm _ IH]; intros c; simpl; [done|].
  rewrite IH. by destruct m.
Qed.

(** X18.  [WaitForResult] on a connected client takes messages off the
    queue until the first result message, adding each one to the client's
    history in the order received, the result included, and returns that
    result with no error.  What ends the wait before a result does is the
    caller's context (its error is returned), the closing of the message
    queue (the error [message channel closed]), or a receive from the
    error queue, whose value is returned as it is: an error, or [nil] once
    that queue is closed, so that the call can return neither a result nor
    an error.  The messages taken before that stay in the history.  While
    only messages that are no result arrive, the call keeps waiting. *)
Theorem WaitForResult_stops_at_the_first_result (msgs : list Message)
    (c : Client) :
  not_connected c = false →
  Forall (fun m => ¬ is_result m) msgs →
  (∀ stop rest res err last,
     wait_outcome stop = Some (res, err, last) →
     WaitForResult ((RecvMsg ∘ Some <$> msgs) ++ stop :: rest) c
     = Some (res, err, recorded (msgs ++ last) c))
  ∧ WaitForResult (RecvMsg ∘ Some <$> msgs) c = None
  ∧ (∀ rest,
       WaitForResult ((RecvMsg ∘ Some <$> msgs) ++ RecvErr None :: rest) c
       = Some (None, None, recorded msgs c))
  ∧ Client_messages (recorded msgs c) = Client_messages c ++ msgs.
Proof.
  intros Hconn Hnone. unfold WaitForResult. rewrite Hconn.
  split; [|split; [|split]].
  - intros stop rest res err last Hstop.
    rewrite WaitForResult_loop_messages by done.
    destruct stop as [e|e|[[]|]]; simplify_eq/=;
      rewrite ?app_nil_r; try done.
    unfold recorded. by rewrite fold_left_app.
  - rewrite <- (app_nil_r (_ <$> msgs)).
    by rewrite WaitForResult_loop_messages.
  - intros rest. by rewrite WaitForResult_loop_messages.
  - by rewrite recorded_messages.
Qed.

(** A transport fresh from [newTransport]. *)
Lemma newTransport_fresh (os : launch) (options : ClaudeCodeOptions)
    (streaming : bool) (t : transport) :
  newTransport os options streaming = Ok t →
  never_closed t ∧ writable t ∧ stdin_written (stdin t) = ""
  ∧ chan_buf (messages t) = [] ∧ chan_buf (errors t) = []
  ∧ controlResp t = ∅ ∧ isStreaming t = streaming
  ∧ ∃ cliPath, findCLI os = Ok cliPath ∧ Cmd_Path (cmd t) = cliPath.
Proof.
  unfold newTransport, startTransport.
  destruct (findCLI os) as [cliPath|]; [|done].
  destruct (StdinPipe_err os); [done|].
  destruct (StdoutPipe_err os); [done|].
  destruct (StderrPipe_err os); [done|].
  destruct (Start_err os); [done|]. intros [= <-].
  repeat split. by exists cliPath.
Qed.

(** X19.  [Connect] on an unconnected client.  When the launch fails,
    [Connect] returns the launch error and leaves the client exactly as
    it was, so it can be tried again; in particular, with no CLI to be
    found on the host, the error is the not-found error with the eight
    locations searched.  When the launch succeeds the client is connected
    from then on, whatever [Connect] returns: with no prompt it returns
    [nil] and nothing is written to the child; with a prompt the envelope
    of the prompt and a newline are written, and if the envelope cannot
    be encoded [Connect] returns the encoder's error with the client
    connected all the same. *)
Theorem Connect_connects_once_the_child_runs (os : launch) (prompt : string)
    (c : Client) :
  state_of c = Some Unconnected →
  (∀ e, newTransport os (Client_options c) true = Err e →
     Connect os prompt c = (Some e, c))
  ∧ (∀ h e1 e2,
       OS.LookPath h "claude" = Err e1 →
       OS.LookPath h "claude-code" = Err e2 →
       Forall (fun q => OS.Stat h q ≠ None) (OS.searchPaths h) →
       Connect (launch_on h os) prompt c
       = (Some (NewCLINotFoundError (OS.searchPaths h)), c))
  ∧ (∀ t, newTransport os (Client_options c) true = Ok t →
       ∃ err c',
         Connect os prompt c = (err, c')
         ∧ state_of c' = Some Connected
         ∧ Client_messages c' = Client_messages c
         ∧ Client_options c' = Client_options c
         ∧ (prompt = "" → err = None ∧ Client_transport c' = Some t)
         ∧ (∀ data,
              prompt ≠ "" →
              Marshal (userInput (Options_SessionID (Client_options c)) prompt)
              = Ok data →
              err = None
              ∧ Client_transport c' = Some (written (data +:+ newline) t))
         ∧ (∀ e,
              prompt ≠ "" →
              Marshal (userInput (Options_SessionID (Client_options c)) prompt)
              = Err e →
              err = Some e ∧ Client_transport c' = Some t)).
Proof.
  intros Hstate. destruct (state_flags c) as (_ & Hunconn & _).
  destruct (Hunconn Hstate) as [Hclosed Hconnected].
  unfold Connect. rewrite Hclosed, Hconnected.
  split; [|split].
  - by intros e ->.
  - intros h e1 e2 Hlook1 Hlook2 Hnone. unfold newTransport, launch_on. simpl.
    unfold OS.findCLI. rewrite Hlook1, Hlook2.
    by apply firstExisting_none in Hnone as ->.
  - intros t Hnew. rewrite Hnew.
    destruct (newTransport_fresh _ _ _ _ Hnew) as (_ & Hw & _).
    destruct (String.eqb_spec prompt "") as [->|Hprompt]; simpl.
    + eexists _, _. split; [reflexivity|]. unfold state_of. simpl.
      split_and!; try done; by intros ? [].
    + unfold userInput.
      destruct (Marshal (mkInputMessage "user"
                  (MsgUser (mkUserMessage MessageRoleUser prompt)) ""
                  (Options_SessionID (Client_options c))))
        as [data|e] eqn:Hdata.
      * rewrite (sendMessage_writable _ _ _ data) by done.
        eexists _, _. split; [reflexivity|]. unfold state_of. simpl.
        split_and!; try done. by intros ? _ [= <-].
      * unfold sendMessage. rewrite Hdata.
        eexists _, _. split; [reflexivity|]. unfold state_of. simpl.
        split_and!; try done. by intros ? _ [= <-].
Qed.

(** X20.  A session from beginning to end.  A client that [Connect]
    left connected, on a client fresh from [NewClient], is closed by
    [Close] without error and without a panic: the client is closed and
    not connected, its transport is torn down (the child killed and
    reaped, its standard input closed, the shutdown signal set, both
    queues closed), and a second [Close] changes nothing and returns
    [nil] again.  [Close] keeps the history, which was empty. *)
Theorem Connect_then_Close_releases_the_child (os : launch) (prompt : string)
    (options : option ClaudeCodeOptions) (err : option error) (c1 : Client) :
  Connect os prompt (NewClient options) = (err, c1) →
  state_of c1 = Some Connected →
  ∃ c2 t2,
    Close c1 = Done (None, c2)
    ∧ state_of c2 = Some Closed
    ∧ Client_transport c2 = Some t2
    ∧ Cmd_Process (cmd t2) = ProcExited true
    ∧ stdin_closed (stdin t2) = true
    ∧ done t2 = true ∧ queues_closed t2
    ∧ Client_messages c2 = []
    ∧ Close c2 = Done (None, c2).
Proof.
  unfold Connect. simpl.
  destruct (newTransport os _ true) as [t|e] eqn:Hnew;
    [|by intros [= <- <-]].
  destruct (newTransport_fresh _ _ _ _ Hnew) as (Hfresh & Hw & _).
  assert (∀ t1, never_closed t1 →
            ∀ c, c = mkClient (Some t1)
                       (match options with
                        | Some o => o
                        | None => emptyOptions
                        end) [] false true →
            ∃ c2 t2,
              Close c = Done (None, c2)
              ∧ state_of c2 = Some Closed
              ∧ Client_transport c2 = Some t2
              ∧ Cmd_Process (cmd t2) = ProcExited true
              ∧ stdin_closed (stdin t2) = true
              ∧ done t2 = true ∧ queues_closed t2
              ∧ Client_messages c2 = []
              ∧ Close c2 = Done (None, c2)) as Hclose.
  { intros t1 Hf c ->.
    destruct (close_never_closed t1 Hf)
      as (t2 & Hc & Hproc & Hin & _ & _ & Hd & _ & Hq & _).
    unfold Close. simpl. rewrite Hc. eexists _, t2.
    split; [reflexivity|]. repeat split; try done; apply Hq. }
  destruct (negb (String.eqb prompt "")).
  - destruct (sendMessage _ _ _ t) as [err' t1] eqn:Hsend.
    intros [= <- <-] _. apply (Hclose t1); [|done].
    unfold sendMessage in Hsend.
    destruct (Marshal _) as [data|e]; [|by injection Hsend as <- <-].
    destruct Hw as [Hopen Hrun].
    rewrite !stdin_Write_Ok in Hsend by done.
    injection Hsend as <- <-. exact Hfresh.
  - intros [= <- <-] _. by apply (Hclose t).
Qed.

End SessionFacts.

(** ** The one-shot query, in general *)

Section QueryOutcomes.
Context `{GoValues, JSONSyntax, !EncodingJSON}.

(** A receive that leaves the loop of [Query] running: a message, a
    receive from the closed message queue, a [nil] from the error
    queue. *)
Definition quiet (s : selected) : Prop :=
  match s with
  | SelMsg _ | SelErr None => True
  | _ => False
  end.

(** The messages among what the loop received. *)
Definition gathered (sels : list selected) : list Message :=
  omap (fun s => match s with SelMsg (Some msg) => Some msg | _ => None end)
       sels.

(** The last result message among [msgs]. *)
Definition last_result (msgs : list Message) : option ResultMessage :=
  last (omap (fun msg => match msg with
                         | MsgResult res => Some res
                         | _ => None
                         end) msgs).

Lemma last_result_snoc (msgs : list Message) (msg : Message) :
  last_result (msgs ++ [msg])
  = match msg with
    | MsgResult res => Some res
    | _ => last_result msgs
    end.
Proof.
  unfold last_result. rewrite omap_app. simpl.
  destruct msg; simpl; rewrite ?app_nil_r; try done. apply last_snoc.
Qed.

Lemma Query_loop_quiet (before rest : list selected) (msgs : list Message) :
  Forall quiet before →
  Query_loop (before ++ rest) msgs (last_result msgs)
  = Query_loop rest (msgs ++ gathered before)
               (last_result (msgs ++ gathered before)).
Proof.
  intros Hquiet. revert msgs.
  induction Hquiet as [|s before Hs _ IH]; intros msgs; simpl.
  - by rewrite app_nil_r.
  - destruct s as [e| |[e|]|[msg|]|e]; try done; try apply IH.
    change (gathered (SelMsg (Some msg) :: before))
      with (msg :: gathered before).
    replace (msgs ++ msg :: gathered before)
      with ((msgs ++ [msg]) ++ gathered before)
      by by rewrite <- app_assoc.
    rewrite <- IH, last_result_snoc. by destruct msg.
Qed.

(** What the loop of [Query] leaves with when it receives [stop] after
    the messages [msgs]; nothing for a receive that leaves it running. *)
Definition query_outcome (stop : selected) (msgs : list Message)
    : option (result (list Message * option ResultMessage)) :=
  match stop with
  | SelCtxDone err => Some (Err err)
  | SelTimeout => Some (Err (Errorf "query timeout after 30 minutes"))
  | SelErr (Some err) => Some (Err err)
  | SelWaitDone (Some err) => Some (Err err)
  | SelWaitDone None => Some (Ok (msgs, last_result msgs))
  | SelErr None | SelMsg _ => None
  end.

(** X21.  [Query], once the child runs, is decided by the first thing
    its loop receives that is not a message: the caller's cancellation,
    the 30 minute timeout, an error from the error queue or the failure
    of the child (a non-zero exit) make it return that error alone,
    whatever messages came before, a result message included; the clean
    exit of the child makes it return the result.  The result then holds
    every message received until then, in order; as [Result] the last
    result message among them ([nil] when there is none); as [Stdout] the
    texts of the text blocks of the assistant messages joined by
    newlines, other messages and other blocks adding nothing; and as
    [Stderr] what [collectStderr] drained.  While only messages arrive,
    the loop has not left.  When the launch fails, [Query] returns the
    launch error at once. *)
Theorem Query_is_decided_by_the_first_event_after_the_messages
    (os : launch) (prompt : string) (options : option ClaudeCodeOptions)
    (before : list selected) (polls : list poll) :
  Forall quiet before →
  (∀ t stop after outcome,
     newTransportForQuery os (default emptyOptions options) prompt = Ok t →
     query_outcome stop (gathered before) = Some outcome →
     Query os prompt options (before ++ stop :: after) polls
     = match outcome with
       | Err err => Some (Err err)
       | Ok (msgs, res) =>
           match collectStderr polls with
           | Some stderr =>
               Some (Ok {| QueryResult_Messages := msgs;
                           QueryResult_Result := res;
                           QueryResult_Stdout :=
                             newline_join
                               (concat (texts_of_message <$> msgs));
                           QueryResult_Stderr := stderr |})
           | None => None
           end
       end)
  ∧ Query_loop before [] None = None
  ∧ (∀ sels e,
       newTransportForQuery os (default emptyOptions options) prompt = Err e →
       Query os prompt options sels polls = Some (Err e)).
Proof.
  intros Hquiet. split; [|split].
  - intros t stop after outcome Hnew Hstop. unfold Query.
    assert (match options with Some o => o | None => emptyOptions end
            = default emptyOptions options) as -> by by destruct options.
    rewrite Hnew. simpl closeStdin. cbv iota beta.
    change (Query_loop (before ++ stop :: after) [] None)
      with (Query_loop (before ++ stop :: after) [] (last_result [])).
    rewrite Query_loop_quiet by done. simpl app.
    destruct stop as [e| |[e|]|[msg|]|[e|]]; simplify_eq/=; try done.
    destruct (collectStderr polls) as [stderr|]; [|done].
    do 2 f_equal. rewrite textParts_messages, Join_concat.
    change (map texts_of_message (gathered before))
      with (texts_of_message <$> gathered before).
    unfold newline_join.
    by destruct (concat (texts_of_message <$> gathered before)).
  - change (Query_loop before [] None)
      with (Query_loop before [] (last_result [])).
    rewrite <- (app_nil_r before), Query_loop_quiet by done. done.
  - intros sels e Hnew. unfold Query.
    assert (match options with Some o => o | None => emptyOptions end
            = default emptyOptions options) as -> by by destruct options.
    by rewrite Hnew.
Qed.

End QueryOutcomes.

(** ** The forwarding goroutines *)

Section ForwardingFacts.
Context `{GoValues, JSONSyntax, !EncodingJSON}.

Lemma StreamMessages_loop_history (turns : list streamed) (c : Client)
    (out : list Message) (closed : bool) (c' : Client) :
  StreamMessages_loop turns c = (out, closed, c') →
  (c' = recorded out c
   ∨ ∃ msg, c' = recorded (out ++ [msg]) c ∧ closed = true)
  ∧ out `prefix_of`
      omap (fun turn => match turn with
                        | StreamMsg (Some msg) _ => Some msg
                        | _ => None
                        end) turns.
Proof.
  revert c out closed c'.
  induction turns as [|[|[msg|] taken] turns IH]; intros c out closed c';
    simpl.
  - intros [= <- <- <-]. split; [by left|done].
  - intros [= <- <- <-]. split; [by left|apply prefix_nil].
  - destruct taken.
    + destruct (StreamMessages_loop turns (record_message msg c))
        as [[out1 closed1] c1] eqn:Hrest.
      intros [= <- <- <-].
      destruct (IH _ _ _ _ Hrest) as [Hhist Hpre]. split.
      * destruct Hhist as [->|(last & -> & ->)]; [by left|].
        right. by exists last.
      * by apply prefix_cons.
    + intros [= <- <- <-]. split; [|apply prefix_nil].
      right. by exists msg.
  - intros [= <- <- <-]. split; [by left|apply prefix_nil].
Qed.

Lemma ReceiveResponse_loop_history (turns : list responded) (c : Client)
    (out : list Message) (closed : bool) (c' : Client) :
  ReceiveResponse_loop turns c = (out, closed, c') →
  (c' = recorded out c
   ∨ ∃ msg, c' = recorded (out ++ [msg]) c ∧ closed = true)
  ∧ out `prefix_of`
      omap (fun turn => match turn with
                        | RespMsg (Some msg) _ => Some msg
                        | _ => None
                        end) turns
  ∧ (∀ init last, out = init ++ [last] →
       Forall (fun m => ¬ is_result m) init
       ∧ (is_result last → closed = true)).
Proof.
  revert c out closed c'.
  induction turns as [|[| |[msg|] taken] turns IH]; intros c out closed c';
    simpl.
  - intros [= <- <- <-]. split; [by left|]. split; [done|].
    intros init last Heq. by destruct init.
  - intros [= <- <- <-]. split; [by left|]. split; [apply prefix_nil|].
    intros init last Heq. by destruct init.
  - intros [= <- <- <-]. split; [by left|]. split; [apply prefix_nil|].
    intros init last Heq. by destruct init.
  - destruct taken.
    + assert (is_result msg ∨ ¬ is_result msg) as [Hres|Hres]
        by (destruct msg; simpl; auto).
      * destruct msg; try done. intros [= <- <- <-].
        split; [by left|]. split; [by apply prefix_cons, prefix_nil|].
        intros init last Heq. destruct init as [|? [|]]; simplify_eq/=.
        by split.
      * destruct (ReceiveResponse_loop turns (record_message msg c))
          as [[out1 closed1] c1] eqn:Hrest.
        assert ((out, closed, c') = (msg :: out1, closed1, c1) →
                out = msg :: out1 ∧ closed = closed1 ∧ c' = c1) as Hinj
          by (by intros [= -> -> ->]).
        intros Heq.
        assert (out = msg :: out1 ∧ closed = closed1 ∧ c' = c1)
          as (-> & -> & ->).
        { apply Hinj. rewrite <- Heq. by destruct msg. }
        destruct (IH _ _ _ _ Hrest) as (Hhist & Hpre & Hlast).
        split; [|split].
        -- destruct Hhist as [->|(last & -> & ->)]; [by left|].
           right. by exists last.
        -- by apply prefix_cons.
        -- intros init last Heq'. destruct init as [|m0 init].
           ++ simplify_eq/=. by split.
           ++ simplify_eq/=. destruct (Hlast init last eq_refl).
              split; [by constructor|done].
    + intros [= <- <- <-]. split; [right; by exists msg|].
      split; [apply prefix_nil|]. intros init last Heq. by destruct init.
  - intros [= <- <- <-]. split; [by left|]. split; [apply prefix_nil|].
    intros init last Heq. by destruct init.
Qed.

(** X22.  The goroutines behind [StreamMessages] and [ReceiveResponse]
    record every message in the client's history before they pass it on:
    what the consumer got from the channel is, in order, a beginning of
    what came off the transport's queue, and the history has grown by
    exactly those messages, or by those and one more, the message that
    was taken off the queue and recorded when the context ended before
    the consumer took it (the channel is closed then).  On the channel of
    [ReceiveResponse] no message follows a result message: a result is
    the last message sent and the channel is closed after it. *)
Theorem forwarding_records_before_it_delivers (c : Client) :
  (∀ turns out closed c',
     StreamMessages_loop turns c = (out, closed, c') →
     (Client_messages c' = Client_messages c ++ out
      ∨ ∃ msg, Client_messages c' = Client_messages c ++ out ++ [msg]
               ∧ closed = true)
     ∧ out `prefix_of`
         omap (fun turn => match turn with
                           | StreamMsg (Some msg) _ => Some msg
                           | _ => None
                           end) turns)
  ∧ (∀ turns out closed c',
       ReceiveResponse_loop turns c = (out, closed, c') →
       (Client_messages c' = Client_messages c ++ out
        ∨ ∃ msg, Client_messages c' = Client_messages c ++ out ++ [msg]
                 ∧ closed = true)
       ∧ out `prefix_of`
           omap (fun turn => match turn with
                             | RespMsg (Some msg) _ => Some msg
                             | _ => None
                             end) turns
       ∧ (∀ init last, out = init ++ [last] →
            Forall (fun m => ¬ is_result m) init
            ∧ (is_result last → closed = true))).
Proof.
  split.
  - intros turns out closed c' Hloop.
    destruct (StreamMessages_loop_history _ _ _ _ _ Hloop) as [Hhist Hpre].
    split; [|done].
    destruct Hhist as [->|(msg & -> & ->)]; rewrite recorded_messages; simpl;
      [by left|right; by exists msg].
  - intros turns out closed c' Hloop.
    destruct (ReceiveResponse_loop_history _ _ _ _ _ Hloop)
      as (Hhist & Hpre & Hlast).
    split; [|done].
    destruct Hhist as [->|(msg & -> & ->)]; rewrite recorded_messages; simpl;
      [by left|right; by exists msg].
Qed.

End ForwardingFacts.

(** ** The diagnostic reader, from end to end *)

Section DiagnosticFacts.
Context `{GoValues, JSONSyntax, !EncodingJSON}.

(** [readStderr] run on its own, one scheduler pick per step. *)
Fixpoint readStderr_steps (picks : list bool) (t : transport)
    (reads : list stderrRead) (pc : stderr_pc)
    : attempt (transport * list stderrRead * stderr_pc) :=
  match picks with
  | [] => Done (t, reads, pc)
  | pick_done :: picks' =>
      match readStderr_step pick_done t reads pc with
      | Done (t', reads', pc') => readStderr_steps picks' t' reads' pc'
      | WouldBlock => WouldBlock
      | Panic => Panic
      end
  end.

(** What the reader reports when a read ends with [err]. *)
Definition read_failure (err : error) : list error :=
  if isEOF err then []
  else [NewCLIConnectionError "Error reading stderr" err].

Lemma stderrWrite_keeps (chunk : list byte) (t : transport) :
  done (stderrWrite chunk t) = done t
  ∧ errors (stderrWrite chunk t) = errors t
  ∧ messages (stderrWrite chunk t) = messages t.
Proof.
  unfold stderrWrite. destruct (0 <? length chunk)%nat; [|done].
  by destruct (_ <=? _).
Qed.

Lemma readStderr_chunks_keeps (chunks : list (list byte)) (t : transport) :
  done (readStderr_chunks chunks t) = done t
  ∧ errors (readStderr_chunks chunks t) = errors t
  ∧ messages (readStderr_chunks chunks t) = messages t.
Proof.
  unfold readStderr_chunks. revert t.
  induction chunks as [|c chunks IH]; intros t; simpl; [done|].
  destruct (IH (stderrWrite c t)) as (-> & -> & ->).
  apply stderrWrite_keeps.
Qed.

Lemma readStderr_steps_returned (picks : list bool) (t : transport)
    (reads : list stderrRead) :
  readStderr_steps picks t reads StderrReturned
  = Done (t, reads, StderrReturned).
Proof. induction picks as [|p picks IH]; simpl; done. Qed.

Lemma readStderr_steps_cons (p : bool) (picks : list bool) (t : transport)
    (reads : list stderrRead) (pc : stderr_pc) (t' : transport)
    (reads' : list stderrRead) (pc' : stderr_pc) :
  readStderr_step p t reads pc = Done (t', reads', pc') →
  readStderr_steps (p :: picks) t reads pc
  = readStderr_steps picks t' reads' pc'.
Proof. intros Hstep. simpl. by rewrite Hstep. Qed.

Lemma readStderr_step_read (p : bool) (t : transport) (rd : stderrRead)
    (rest : list stderrRead) :
  done t = false →
  readStderr_step p t (rd :: rest) AtRead
  = Done (stderrWrite (read_data rd) t, rest,
          match read_err rd with
          | None => AtRead
          | Some err =>
              if isEOF err then StderrReturned
              else AtReadErr
                     (NewCLIConnectionError "Error reading stderr" err)
          end).
Proof.
  intros Hdone. unfold readStderr_step. rewrite Hdone.
  destruct (read_err rd) as [err|]; [|done]. by destruct (isEOF err).
Qed.

(** X23.  The diagnostic reader, with shutdown not signalled, takes in
    read after read until one of them fails.  It stores the data of every
    read, the failing one included, as far as the cap allows; when the
    failure is the end of the child's output it returns without a word,
    and when it is anything else it pushes one connection error,
    [Error reading stderr], on the error queue (which has room) and
    returns.  It reads nothing after the failing read, and the message
    queue is not touched. *)
Theorem readStderr_reads_until_a_read_fails (picks : list bool)
    (t : transport) (chunks : list (list byte)) (last : list byte)
    (err : error) (unread : list stderrRead) :
  done t = false →
  (isEOF err = false → has_room (errors t)) →
  (length chunks + 2 ≤ length picks)%nat →
  let reads := ((fun chunk => mkStderrRead chunk None) <$> chunks)
               ++ mkStderrRead last (Some err) :: unread in
  ∃ t', readStderr_steps picks t reads AtRead
        = Done (t', unread, StderrReturned)
      ∧ stderrBuf t' = stderrBuf (readStderr_chunks (chunks ++ [last]) t)
      ∧ chan_buf (errors t') = chan_buf (errors t) ++ read_failure err
      ∧ messages t' = messages t.
Proof.
  intros Hdone Hroom Hlen reads. subst reads. revert picks t Hdone Hroom Hlen.
  induction chunks as [|chunk chunks IH]; intros picks t Hdone Hroom Hlen.
  - destruct picks as [|p1 [|p2 picks]]; simpl in Hlen; try lia.
    simpl fmap. simpl app.
    rewrite (readStderr_steps_cons _ _ _ _ _ _ _ _
               (readStderr_step_read p1 t _ unread Hdone)).
    simpl read_data. simpl read_err.
    destruct (stderrWrite_keeps last t) as (Hd & He & Hm).
    unfold read_failure. destruct (isEOF err) eqn:Heof.
    + rewrite readStderr_steps_returned.
      eexists. split; [reflexivity|]. unfold readStderr_chunks. simpl.
      rewrite He, Hm, app_nil_r. done.
    + assert (readStderr_step p2 (stderrWrite last t) unread
                (AtReadErr (NewCLIConnectionError "Error reading stderr" err))
              = Done (push_error
                        (NewCLIConnectionError "Error reading stderr" err)
                        (stderrWrite last t), unread, StderrReturned))
        as Hstep.
      { unfold readStderr_step.
        rewrite select_send_room;
          [done|by rewrite Hd|by rewrite He; apply Hroom]. }
      rewrite (readStderr_steps_cons _ _ _ _ _ _ _ _ Hstep).
      rewrite readStderr_steps_returned.
      eexists. split; [reflexivity|]. unfold readStderr_chunks. simpl.
      rewrite He, Hm. done.
  - destruct picks as [|p1 picks]; simpl in Hlen; [lia|].
    simpl fmap. simpl app.
    rewrite (readStderr_steps_cons _ _ _ _ _ _ _ _
               (readStderr_step_read p1 t _ _ Hdone)).
    simpl read_data. simpl read_err.
    destruct (stderrWrite_keeps chunk t) as (Hd & He & Hm).
    destruct (IH picks (stderrWrite chunk t))
      as (t' & Hsteps & Hbuf & Herr & Hmsg).
    + by rewrite Hd.
    + by rewrite He.
    + lia.
    + exists t'. split; [exact Hsteps|]. rewrite Hbuf, Herr, Hmsg, He, Hm.
      done.
Qed.

End DiagnosticFacts.

(** ** Panics *)

Section PanicFacts.
Context `{GoValues, JSONSyntax, !EncodingJSON}.

Lemma select_send_panics {A : Type} (pick_done : bool) (ch : chan A) (x : A)
    (t : transport) :
  select_send pick_done ch x t = Panic → chan_closed ch = true.
Proof.
  unfold select_send, chan_send, send_ready.
  destruct (chan_closed ch); [done|]. simpl.
  destruct (length (chan_buf ch) <? chan_cap ch)%nat, (done t), pick_done;
    done.
Qed.

(** X24.  A step of the message reader panics only in two ways: in the
    decoder, on the line it is taking in, or in a send on a channel that
    has been closed (the message queue for a message, the error queue for
    an error, the slot for a control response).  While [close] has not
    closed the queues the reader's sends never panic; on a queue that
    [close] has closed, a reader that still holds a message does panic
    when its [select] takes the send. *)
Theorem reader_panics_only_at_a_closed_channel (pick_done : bool)
    (t : transport) (r : reader) :
  reader_step pick_done t r = Panic →
  (∃ line rest, pc r = AtScan ∧ stdout_lines r = line :: rest
                ∧ done t = false ∧ classify line = Panic)
  ∨ (∃ m, pc r = Holding (SendMsg m)
          ∧ chan_closed (messages t) = true ∧ pick_done && done t = false)
  ∨ (∃ e, (pc r = Holding (SendError e) ∨ pc r = AtScanErr e)
          ∧ chan_closed (errors t) = true ∧ pick_done && done t = false)
  ∨ (∃ resp ch, pc r = Holding (RouteResponse resp)
                ∧ controlResp t !! ControlResponse_RequestID resp = Some ch
                ∧ chan_closed ch = true).
Proof.
  assert (∀ A (ch : chan A) (x : A),
            select_send pick_done ch x t = Panic →
            chan_closed ch = true ∧ pick_done && done t = false) as Hsend.
  { intros A ch x Hp. split; [by eapply select_send_panics|].
    unfold select_send, chan_send, send_ready in Hp.
    destruct (chan_closed ch); simpl in Hp;
      [|destruct (length (chan_buf ch) <? chan_cap ch)%nat];
      destruct (done t), pick_done; done. }
  unfold reader_step. destruct r as [lines err pc0]. simpl.
  destruct pc0 as [|[e|m|resp|]|e|]; try done.
  - destruct lines as [|line rest]; [by destruct err|].
    destruct (maxBufferSize <=? Z.of_nat (String.length line)); [done|].
    destruct (done t) eqn:Hd; [done|].
    destruct (classify line) as [[| | |]| |] eqn:Hc; try done.
    intros _. left. by exists line, rest.
  - destruct (select_send pick_done (errors t) e t) as [[ch|]| |] eqn:Hs;
      try done.
    intros _. right; right; left. exists e. destruct (Hsend _ _ _ Hs).
    split; [by left|done].
  - destruct (select_send pick_done (messages t) m t) as [[ch|]| |] eqn:Hs;
      try done.
    intros _. right; left. exists m. by destruct (Hsend _ _ _ Hs).
  - destruct (controlResp t !! ControlResponse_RequestID resp) as [ch|] eqn:Hl;
      [|done].
    unfold chan_send. destruct (chan_closed ch) eqn:Hc.
    + intros _. right; right; right. by exists resp, ch.
    + by destruct (length (chan_buf ch) <? chan_cap ch)%nat.
  - destruct (select_send pick_done (errors t) e t) as [[ch|]| |] eqn:Hs;
      try done.
    intros _. right; right; left. exists e. destruct (Hsend _ _ _ Hs).
    split; [by right|done].
Qed.

End PanicFacts.

(** ** Iterating *)

Section IteratorFacts.
Context `{GoValues, JSONSyntax, !EncodingJSON}.

(** [Next] called again and again, as the callers of [IterateMessages]
    do, until it returns an error, no message, or a result message; it
    is given what its [select] receives, call by call. *)
Fixpoint Next_until_result (recvs : list received) (c : Client)
    : attempt (option (option ResultMessage * option error * Client)) :=
  match recvs with
  | [] => Done None
  | recv :: rest =>
      match Next recv c with
      | Done (Some (MsgResult res), None, c') =>
          Done (Some (Some res, None, c'))
      | Done (Some _, None, c') => Next_until_result rest c'
      | Done (_, err, c') => Done (Some (None, err, c'))
      | WouldBlock => WouldBlock
      | Panic => Panic
      end
  end.

(** X25.  On a connected client, iterating [Next] until the first
    result message does what [WaitForResult] does: given the same
    receives, the two return the same result and the same error, leave the
    same history behind, and are still waiting in the same cases.  On a
    client without a transport the first [Next] panics, where
    [WaitForResult] fails with the not-connected error. *)
Theorem Next_iterated_is_WaitForResult (recvs : list received) (c : Client) :
  (not_connected c = false →
   Next_until_result recvs c = Done (WaitForResult recvs c))
  ∧ (Client_transport c = None →
     WaitForResult recvs c = Some (None, Some ErrNotConnected, c)
     ∧ ∀ recv rest, recvs = recv :: rest → Next_until_result recvs c = Panic).
Proof.
  split.
  - intros Hconn. unfold WaitForResult. rewrite Hconn.
    assert (∃ t, Client_transport c = Some t) as Ht.
    { unfold not_connected in Hconn. apply orb_false_iff in Hconn as [_ Ht].
      destruct (Client_transport c) as [t|]; [by exists t|done]. }
    clear Hconn. revert c Ht.
    induction recvs as [|recv recvs IH]; intros c [t Ht]; simpl; [done|].
    unfold Next. rewrite Ht.
    destruct recv as [e|[e|]|[msg|]]; try done.
    destruct msg; try done; apply IH; by exists t.
  - intros Ht. split.
    + unfold WaitForResult, not_connected. rewrite Ht.
      by rewrite orb_true_r.
    + intros recv rest ->. simpl. unfold Next. by rewrite Ht.
Qed.

End IteratorFacts.

(* ===================================================================== *)
(** * Part III. The model run on sample input *)
(* ===================================================================== *)

Section Examples.
#[local] Existing Instances JSON.values JSON.syntax JSON.encoding.

(** The reader's verdict on the sample lines. *)
Example classify_line_reply :
  classify line_reply = Done (SendMsg (MsgAssistantPtr turn_reply)).
Proof. vm_compute. reflexivity. Qed.

Example classify_line_two_parts :
  classify line_two_parts = Done (SendMsg (MsgAssistantPtr turn_two_parts)).
Proof. vm_compute. reflexivity. Qed.

Example classify_line_result :
  classify line_result = Done (SendMsg (MsgResult result_s1)).
Proof. vm_compute. reflexivity. Qed.

Example classify_line_control_response :
  classify line_control_response = Done (RouteResponse response_req_1_42).
Proof. vm_compute. reflexivity. Qed.

Example classify_line_not_json :
  classify line_not_json
  = Done (SendError (NewCLIJSONDecodeError line_not_json JSON.SyntaxError)).
Proof. vm_compute. reflexivity. Qed.

(** A payload [null] never reaches [UnmarshalJSON] through the reader,
    and would make it panic: its [aux] pointer is left [nil]. *)
Example UnmarshalJSON_null : AssistantMessage_UnmarshalJSON "null" = Panic.
Proof. vm_compute. reflexivity. Qed.

(** An object with white space in it is not the empty payload. *)
Example classify_spaced_object :
  classify (JSON.dq "{'type':'assistant','message':{ }}")
  = Done (SendMsg (MsgAssistantPtr (mkAssistantMessage "" []))).
Proof. vm_compute. reflexivity. Qed.

Example sample_transport_spawned :
  startTransport launch_ok "/usr/local/bin/claude" []
                 "CLAUDE_CODE_ENTRYPOINT=sdk-go" emptyOptions true
  = Ok sample_transport.
Proof. reflexivity. Qed.

(** C1 on the two-part reply of the test-suite. *)
Lemma Query_stdout_two_parts :
  ∃ r, Query launch_ok "Multi-part response" None
         [SelMsg (Some (MsgAssistantPtr turn_two_parts));
          SelMsg (Some (MsgResult result_s1)); SelWaitDone None]
         [TimerC []]
       = Some (Ok r)
     ∧ QueryResult_Stdout r = "First part" +:+ newline +:+ "Second part"
     ∧ QueryResult_Result r = Some result_s1.
Proof.
  destruct (Query_stdout_is_newline_join launch_ok "Multi-part response" None
              [TimerC []] "" "/usr/local/bin/claude" [turn_two_parts]
              result_s1)
    as (r & Hquery & Hstdout & _ & _ & Hresult & _); try reflexivity.
  exists r. split; [exact Hquery|]. split; [|exact Hresult].
  rewrite Hstdout. reflexivity.
Defined.

(** C2 on a stream with a control response between two frames, a slot
    being registered under its identifier. *)
Definition transport_with_slot : transport :=
  set_controlResp {[ "req_1_42" := make_chan 1 ]} sample_transport.

Lemma control_response_goes_to_its_slot :
  ∃ evs t' r',
    reader_steps [false; false; false; false; false; false]
      transport_with_slot
      (mkReader [line_reply; line_control_response; line_result] None AtScan)
    = Done (evs, t', r')
    ∧ pushed_messages evs `prefix_of`
        omap conversation_message
             [line_reply; line_control_response; line_result]
    ∧ pushed_messages evs = [MsgAssistantPtr turn_reply; MsgResult result_s1]
    ∧ chan_buf (messages t') = [MsgAssistantPtr turn_reply; MsgResult result_s1]
    ∧ controlResp t' !! "req_1_42"
      = Some (mkChan [response_req_1_42] 1 false).
Proof.
  destruct (reader_steps [false; false; false; false; false; false]
              transport_with_slot
              (mkReader [line_reply; line_control_response; line_result]
                        None AtScan))
    as [[[evs t'] r']| |] eqn:Hsteps;
    [|vm_compute in Hsteps; discriminate..].
  destruct (control_responses_never_reach_the_message_queue
              transport_with_slot
              [line_reply; line_control_response; line_result] None
              evs t' r' (reader_steps_run _ _ _ _ _ _ Hsteps))
    as (Hprefix & _).
  exists evs, t', r'. split; [reflexivity|]. split; [exact Hprefix|].
  vm_compute in Hsteps. injection Hsteps as <- <- <-.
  repeat split; vm_compute; reflexivity.
Defined.

(** C3 on the line [not json] between two frames of the test-suite. *)
Lemma not_json_between_two_frames :
  reader_steps [false; false; false; false; false; false] sample_transport
    (mkReader [line_reply; line_not_json; line_result] None AtScan)
  = Done ([EvNone; EvMessage (MsgAssistantPtr turn_reply); EvNone;
           EvError (NewCLIJSONDecodeError line_not_json JSON.SyntaxError);
           EvNone; EvMessage (MsgResult result_s1)],
          push_message (MsgResult result_s1)
            (push_error (NewCLIJSONDecodeError line_not_json JSON.SyntaxError)
               (push_message (MsgAssistantPtr turn_reply) sample_transport)),
          mkReader [] None AtScan).
Proof.
  refine (proj1 (malformed_line_is_reported_and_skipped
                   [false; false; false; false; false; false]
                   sample_transport line_reply line_not_json line_result []
                   None (MsgAssistantPtr turn_reply) (MsgResult result_s1)
                   JSON.SyntaxError _ _ _ _ _ _ _ _ _ _ _ _)).
  - reflexivity.
  - reflexivity.
  - reflexivity.
  - simpl. lia.
  - split; [reflexivity|simpl; lia].
  - vm_compute. reflexivity.
  - vm_compute. reflexivity.
  - vm_compute. reflexivity.
  - vm_compute. reflexivity.
  - vm_compute. reflexivity.
  - discriminate.
  - vm_compute. reflexivity.
Defined.

(** C4 on a call that nobody answers or cancels, five seconds in. *)
Definition nobody_answers : waiting :=
  mkWaiting (fun t => t) None interruptTimeout CaseResp.

Lemma unanswered_interrupt_times_out :
  ∃ t', sendInterrupt 42 nobody_answers sample_transport
        = Done (Some (Errorf "interrupt request timeout"), t')
      ∧ controlResp t' !! "req_1_42" = None.
Proof.
  destruct (sendInterrupt_times_out_and_deregisters 42 nobody_answers
              sample_transport) as (_ & _ & Hunanswered & _).
  destruct (Hunanswered
              (JSON.dq "{'type':'control_request','request_id':'req_1_42','request':{'subtype':'interrupt'}}"))
    as [_ Hlate].
  - vm_compute. reflexivity.
  - reflexivity.
  - reflexivity.
  - vm_compute. reflexivity.
  - reflexivity.
  - apply Hlate. reflexivity.
Defined.

(** C5 on two callers: the first goes through the teardown, the second
    returns once the first is done. *)
Lemma two_callers_of_close :
  ∃ t cs,
    closers_run [0; 0; 0; 0; 0; 0; 0; 0; 0; 0; 0; 1]%nat sample_transport
                [Calling; Calling]
    = Some (t, cs)
    ∧ cs = [CloserReturned true None; CloserReturned false None]
    ∧ teardowns cs = 1%nat
    ∧ queues_closed t.
Proof.
  destruct (closers_run [0; 0; 0; 0; 0; 0; 0; 0; 0; 0; 0; 1]%nat
              sample_transport [Calling; Calling])
    as [[t cs]|] eqn:Hrun; [|vm_compute in Hrun; discriminate].
  destruct (close_is_idempotent_and_closes_queues 2 12 sample_transport t cs)
    as (_ & _ & _ & Hback & _).
  - repeat split.
  - exact (closers_run_closing _ _ _ _ _ Hrun).
  - exists t, cs. split; [reflexivity|].
    assert (cs = [CloserReturned true None; CloserReturned false None])
      as Hcs by (vm_compute in Hrun; by injection Hrun as <- <-).
    split; [exact Hcs|].
    destruct (Hback 0%nat true None) as (_ & Hclosed & Hone).
    + by rewrite Hcs.
    + split; [exact Hone|exact Hclosed].
Defined.

(** C6 does not hold as stated: after reads that fill the buffer, the
    next byte, the newest, is dropped, so the buffer is the first 10 MiB
    of the output and not a suffix of it. *)
Lemma newest_bytes_are_dropped :
  Forall (fun chunk => (0 < length chunk ≤ 4096)%nat) overflowing_reads
  ∧ maxStderrSize < Z.of_nat (length (concat overflowing_reads))
  ∧ stderrBuf (readStderr_chunks overflowing_reads sample_transport)
    = concat (replicate 2560 (replicate 4096 "a"%byte))
  ∧ stderrBuf (readStderr_chunks overflowing_reads sample_transport)
      `prefix_of` concat overflowing_reads
  ∧ ¬ (stderrBuf (readStderr_chunks overflowing_reads sample_transport)
         `suffix_of` concat overflowing_reads).
Proof.
  destruct (full_buffer_drops_next 2560 4096 "a"%byte "b"%byte
              sample_transport)
    as (Hbuf & Hlen & Hpre & Hsuf);
    [reflexivity|discriminate|apply Nat.lt_0_succ..|reflexivity|].
  unfold overflowing_reads.
  split; [|split; [exact Hlen|split; [exact Hbuf|split]]].
  - apply Forall_app. split.
    + apply Forall_replicate. rewrite length_replicate.
      split; [apply Nat.lt_0_succ|apply Nat.le_refl].
    + apply Forall_singleton.
      change (length ["b"%byte]) with 1%nat.
      split; [apply Nat.lt_0_succ|].
      apply le_n_S, Nat.le_0_l.
  - rewrite Hbuf. exact Hpre.
  - rewrite Hbuf. exact Hsuf.
Qed.

(** C7 does not hold as stated: on an unconnected client
    [StreamMessages] hands back a closed channel and no error, and on a
    closed client [WaitForResult] fails as not connected. *)
Lemma client_state_machine_differs :
  state_of (NewClient None) = Some Unconnected
  ∧ observe OpStreamMessages (NewClient None) = Stream ClosedChannel
  ∧ state_of (closed_client (NewClient None)) = Some Closed
  ∧ observe (OpWaitForResult []) (closed_client (NewClient None))
    = Failed ErrNotConnected
  ∧ observe OpStreamMessages (closed_client (NewClient None))
    = Stream ClosedChannel
  ∧ ErrNotConnected ≠ ErrClosed
  ∧ ¬ state_machine_as_specified.
Proof.
  repeat split; try discriminate.
  intros (_ & Hunconnected & _).
  specialize (Hunconnected (NewClient None) OpStreamMessages eq_refl I).
  discriminate.
Qed.

(** C8 on frames whose payload is [{}], [null], or missing. *)
Lemma keep_alive_frames_are_skipped :
  reader_step false sample_transport
    (mkReader [line_empty_object; line_null; line_no_payload] None AtScan)
  = Done (EvNone, sample_transport,
          mkReader [line_null; line_no_payload] None AtScan)
  ∧ reader_step false sample_transport
      (mkReader [line_null; line_no_payload] None AtScan)
    = Done (EvNone, sample_transport, mkReader [line_no_payload] None AtScan)
  ∧ reader_step false sample_transport
      (mkReader [line_no_payload] None AtScan)
    = Done (EvNone, sample_transport, mkReader [] None AtScan).
Proof.
  split; [|split].
  - refine (proj2 (proj2 (empty_payload_produces_nothing false
              sample_transport line_empty_object [line_null; line_no_payload]
              None (mkStreamMessage "assistant" "{}") _ _ _ _))).
    + vm_compute. reflexivity.
    + vm_compute. reflexivity.
    + vm_compute. reflexivity.
    + right; right. reflexivity.
  - refine (proj2 (proj2 (empty_payload_produces_nothing false
              sample_transport line_null [line_no_payload]
              None (mkStreamMessage "user" "null") _ _ _ _))).
    + vm_compute. reflexivity.
    + vm_compute. reflexivity.
    + vm_compute. reflexivity.
    + right; left. reflexivity.
  - refine (proj2 (proj2 (empty_payload_produces_nothing false
              sample_transport line_no_payload []
              None (mkStreamMessage "system" "") _ _ _ _))).
    + vm_compute. reflexivity.
    + vm_compute. reflexivity.
    + vm_compute. reflexivity.
    + left. reflexivity.
Defined.

(** C9 on one read of two bytes into the empty buffer. *)
Lemma two_bytes_fit :
  stderr_bounded
    (stderrWrite ["a"%byte; "b"%byte] sample_transport)
  ∧ stderrBuf (stderrWrite ["a"%byte; "b"%byte] sample_transport)
    = ["a"%byte; "b"%byte].
Proof.
  split; [|reflexivity].
  refine (proj1 (readStderr_keeps_buffer_within_cap false sample_transport
                   [mkStderrRead ["a"%byte; "b"%byte] None] AtRead
                   (stderrWrite ["a"%byte; "b"%byte] sample_transport)
                   [] AtRead _ _)).
  - unfold stderr_bounded. simpl. unfold maxStderrSize. lia.
  - reflexivity.
Defined.

(** C10 on a payload with four blocks that do not decode and one that
    does. *)
Lemma mixed_blocks_keep_the_good_one :
  ∃ m, AssistantMessage_UnmarshalJSON payload_mixed_blocks = Done (Ok m)
     ∧ AssistantMessage_Content m = [BlockText (mkTextBlock "text" "ok")].
Proof.
  destruct (UnmarshalJSON_skips_undecodable_blocks payload_mixed_blocks
              aux_mixed_blocks)
    as (m & Hm & _ & Hcontent & _).
  - vm_compute. reflexivity.
  - exists m. split; [exact Hm|]. rewrite Hcontent.
    vm_compute. reflexivity.
Defined.

End Examples.

Section ExtraExamples.
#[local] Existing Instances JSON.values JSON.syntax JSON.encoding
  JSONConfig.config.

(** X3 on the payload of the result frame of the test-suite: it came in
    a [system] frame, and its subtype is [result]. *)
Lemma result_payload_gives_a_ResultMessage :
  parseMessage "system" payload_result = Done (Ok (Some (MsgResult result_s1)))
  ∧ (∃ base, Unmarshal (T := subtypeBase) payload_result = Ok base
             ∧ base_Subtype base = "result")
  ∧ GetType (MsgResult result_s1) = "result".
Proof.
  assert (parseMessage "system" payload_result
          = Done (Ok (Some (MsgResult result_s1)))) as Hparse
    by (vm_compute; reflexivity).
  destruct (parseMessage_gives_the_type_of_the_frame
              "system" payload_result (MsgResult result_s1) Hparse)
    as (_ & (_ & _ & Hbase) & _).
  split; [exact Hparse|]. split; [exact Hbase|reflexivity].
Defined.

(** X5 on the document without a type of the test-suite: nothing of it
    reaches the configuration. *)
Lemma document_without_type_is_not_stored :
  MCPServerConfig_UnmarshalJSON config_without_type zeroConfig
  = Some (None, zeroConfig).
Proof.
  destruct (UnmarshalJSON_without_type_stores_nothing
              config_without_type zeroConfig
              (match Unmarshal config_without_type with
               | Ok raw => raw
               | Err _ => ∅
               end))
    as (err & Hdecode & Hnil & _).
  - vm_compute. reflexivity.
  - intros serverType. vm_compute. discriminate.
  - reflexivity.
  - reflexivity.
  - rewrite Hdecode. apply f_equal, (f_equal (fun e => (e, zeroConfig))).
    apply Hnil. eexists. vm_compute. reflexivity.
Defined.

(** X6 on the stdio document of the test-suite. *)
Lemma stdio_document_is_stored :
  ∃ c', MCPServerConfig_UnmarshalJSON config_stdio zeroConfig = Some (None, c')
      ∧ MCPServerConfig_Type c' = "stdio"
      ∧ MCPServerConfig_Command c' = "node"
      ∧ MCPServerConfig_Args c' = Some ["server.js"]
      ∧ MCPServerConfig_Env c' = Some {[ "NODE_ENV" := "production" ]}
      ∧ MCPServerConfig_URL c' = "".
Proof.
  destruct (UnmarshalJSON_with_type_sets_the_fields_of_its_kind
              config_stdio zeroConfig
              (match Unmarshal config_stdio with
               | Ok raw => raw
               | Err _ => ∅
               end) "stdio")
    as (c' & Hdecode & Hty & Hstdio & _).
  - vm_compute. reflexivity.
  - vm_compute. reflexivity.
  - destruct (Hstdio eq_refl) as (Hcommand & Hargs & Henv & Hurl & _).
    exists c'. split; [exact Hdecode|]. split; [exact Hty|].
    split; [rewrite Hcommand; vm_compute; reflexivity|].
    split; [rewrite Hargs; vm_compute; reflexivity|].
    split; [rewrite Henv; vm_compute; reflexivity|].
    rewrite Hurl. reflexivity.
Defined.


(** X8 on two prompts sent one after the other. *)
Lemma two_prompts_make_two_lines :
  ∃ c', SendMessages ["Hello"; "And again"] sample_client = Done (None, c')
      ∧ stdin_of c'
        = JSON.dq "{'type':'user','message':{'role':'user','content':'Hello'}}"
          +:+ newline
          +:+ JSON.dq "{'type':'user','message':{'role':'user','content':'And again'}}"
          +:+ newline.
Proof.
  destruct (SendMessage_writes_one_line_per_call
              ["Hello"; "And again"]
              [JSON.dq "{'type':'user','message':{'role':'user','content':'Hello'}}";
               JSON.dq "{'type':'user','message':{'role':'user','content':'And again'}}"]
              sample_client sample_transport)
    as (c' & Hsent & Hin & _).
  - reflexivity.
  - reflexivity.
  - split; reflexivity.
  - repeat constructor.
  - exists c'. split; [exact Hsent|]. rewrite Hin. vm_compute. reflexivity.
Defined.

(** X9 on the sample transport. *)
Lemma nothing_is_sent_after_close :
  ∃ t' cause,
    close sample_transport = Done (None, t')
    ∧ sendMessage (MsgUser (mkUserMessage MessageRoleUser "Too late")) "" "" t'
      = (Some (NewCLIConnectionError "Failed to send message" cause), t')
    ∧ stdin_written (stdin t') = "".
Proof.
  destruct (sendMessage_after_close_writes_nothing
              (MsgUser (mkUserMessage MessageRoleUser "Too late")) "" ""
              (JSON.dq "{'type':'user','message':{'role':'user','content':'Too late'}}")
              sample_transport)
    as (_ & Hclosed).
  - vm_compute. reflexivity.
  - destruct Hclosed as (t' & cause & Hclose & Hsend & Hin).
    + repeat split.
    + exists t', cause. split; [exact Hclose|]. split; [exact Hsend|].
      exact Hin.
Defined.

(** X10: the interrupt of the sample transport, answered by the control
    response line of the test-suite. *)
Definition reader_answers : waiting :=
  mkWaiting (reader_takes [false; false] line_control_response) None 0
            CaseTimeAfter.

Lemma answered_interrupt_returns_nil :
  ∃ t', sendInterrupt 42 reader_answers sample_transport = Done (None, t')
      ∧ controlResp t' !! "req_1_42" = None.
Proof.
  destruct (sendInterrupt_completed_by_its_response 42 reader_answers
              sample_transport
              (JSON.dq "{'type':'control_request','request_id':'req_1_42','request':{'subtype':'interrupt'}}")
              line_control_response response_req_1_42 false false)
    as (t' & Hsent & Hgone & _).
  - vm_compute. reflexivity.
  - reflexivity.
  - reflexivity.
  - reflexivity.
  - vm_compute. reflexivity.
  - vm_compute. reflexivity.
  - vm_compute. reflexivity.
  - reflexivity.
  - reflexivity.
  - reflexivity.
  - exists t'. split; [exact Hsent|exact Hgone].
Defined.

(** X12 on the sample transport with a message waiting in the queue. *)
Definition transport_with_backlog : transport :=
  set_messages (mkChan [MsgAssistantPtr turn_reply] 100 false)
               sample_transport.

Lemma close_keeps_the_backlog :
  ∃ t', close transport_with_backlog = Done (None, t')
      ∧ Cmd_Process (cmd t') = ProcExited true
      ∧ chan_buf (messages t') = [MsgAssistantPtr turn_reply]
      ∧ chan_closed (messages t') = true.
Proof.
  destruct (close_reaps_the_child_and_keeps_what_was_queued
              transport_with_backlog)
    as (t' & Hclose & Hreaped & _ & _ & _ & _ & _ & Hclosed & Hkept & _).
  - repeat split.
  - exists t'. split; [exact Hclose|]. split; [exact Hreaped|].
    split; [exact Hkept|apply Hclosed].
Defined.

(** X13 on two frames of the test-suite. *)
Lemma two_frames_are_queued_in_order :
  ∃ evs t' r',
    reader_steps [false; false; false; false] sample_transport
      (mkReader [line_reply; line_result] None AtScan)
    = Done (evs, t', r')
    ∧ chan_buf (messages t') = pushed_messages evs
    ∧ pushed_messages evs = [MsgAssistantPtr turn_reply; MsgResult result_s1].
Proof.
  destruct (reader_steps [false; false; false; false] sample_transport
              (mkReader [line_reply; line_result] None AtScan))
    as [[[evs t'] r']| |] eqn:Hsteps;
    [|vm_compute in Hsteps; discriminate..].
  destruct (reader_fills_the_queues_in_order _ _ _ _ _ _ Hsteps)
    as (Hqueue & _).
  exists evs, t', r'. split; [reflexivity|]. split; [exact Hqueue|].
  vm_compute in Hsteps. injection Hsteps as <- <- <-. reflexivity.
Defined.

(** X14 on a line of 1 MiB, with a frame after it. *)
Definition line_of_1MiB : string :=
  string_of_list_ascii (replicate (1024 * 1024) "a"%char).

Lemma length_line_of_1MiB :
  Z.of_nat (String.length line_of_1MiB) = maxBufferSize.
Proof.
  unfold line_of_1MiB.
  assert (∀ l, String.length (string_of_list_ascii l) = length l) as ->.
  { induction l as [|c l IH]; simpl; [reflexivity|]. by rewrite IH. }
  rewrite length_replicate, Nat2Z.inj_mul. reflexivity.
Defined.

Lemma line_of_1MiB_ends_the_reading :
  reader_steps [false; false] sample_transport
    (mkReader [line_of_1MiB; line_reply] None AtScan)
  = Done ([EvNone; EvError tooLong], push_error tooLong sample_transport,
          mkReader [] None Returned).
Proof.
  destruct (overlong_line_ends_the_reading sample_transport line_of_1MiB
              [line_reply] None [] sample_transport
              (mkReader [line_of_1MiB; line_reply] None AtScan))
    as (_ & _ & _ & Hsteps).
  - rewrite length_line_of_1MiB. apply Z.le_refl.
  - apply run_refl.
  - apply Hsteps; [reflexivity|]. split; [reflexivity|].
    apply Nat.lt_0_succ.
Defined.

(** X15 on the sample transport with the shutdown signal set. *)
Lemma nothing_is_decoded_after_shutdown :
  ∃ evs t' r',
    reader_steps [false; false] (set_done true sample_transport)
      (mkReader [line_reply; line_result] None AtScan)
    = Done (evs, t', r')
    ∧ pushed_messages evs = [] ∧ pc r' = Returned.
Proof.
  destruct (reader_steps [false; false] (set_done true sample_transport)
              (mkReader [line_reply; line_result] None AtScan))
    as [[[evs t'] r']| |] eqn:Hsteps;
    [|vm_compute in Hsteps; discriminate..].
  destruct (reader_stops_after_shutdown [false; false]
              (set_done true sample_transport)
              (mkReader [line_reply; line_result] None AtScan) evs t' r'
              eq_refl Hsteps)
    as (_ & Hnone & _ & _ & Hreturned & _).
  exists evs, t', r'. split; [reflexivity|].
  split; [exact (Hnone eq_refl)|].
  apply Hreturned; [reflexivity|]. apply Nat.le_refl.
Defined.

(** X16 on a stream of four lines: a frame, a line that is not JSON, a
    control response nobody waits for, and the result. *)
Lemma four_lines_are_worked_through :
  ∃ evs t',
    reader_steps (replicate 10 false) sample_transport
      (mkReader [line_reply; line_not_json; line_control_response;
                 line_result] None AtScan)
    = Done (evs, t', mkReader [] None Returned)
    ∧ pushed_messages evs = [MsgAssistantPtr turn_reply; MsgResult result_s1]
    ∧ pushed_errors evs
      = [NewCLIJSONDecodeError line_not_json JSON.SyntaxError].
Proof.
  destruct (reader_delivers_the_whole_stream (replicate 10 false)
              sample_transport
              [line_reply; line_not_json; line_control_response; line_result]
              None)
    as (evs & t' & Hsteps & Hmsgs & Herrs & _).
  - reflexivity.
  - reflexivity.
  - reflexivity.
  - reflexivity.
  - repeat constructor; try (vm_compute; reflexivity);
      eexists; vm_compute; reflexivity.
  - vm_compute. repeat constructor.
  - vm_compute. repeat constructor.
  - vm_compute. repeat constructor.
  - exists evs, t'. split; [exact Hsteps|].
    split; [rewrite Hmsgs|rewrite Herrs]; vm_compute; reflexivity.
Defined.

(** X18 on a reply followed by the result. *)
Lemma the_result_ends_the_wait :
  ∃ c', WaitForResult [RecvMsg (Some (MsgAssistantPtr turn_reply));
                       RecvMsg (Some (MsgResult result_s1));
                       RecvMsg (Some (MsgAssistantPtr turn_two_parts))]
                      sample_client
        = Some (Some result_s1, None, c')
      ∧ Client_messages c' = [MsgAssistantPtr turn_reply; MsgResult result_s1].
Proof.
  destruct (WaitForResult_stops_at_the_first_result
              [MsgAssistantPtr turn_reply] sample_client)
    as (Hstop & _).
  - reflexivity.
  - repeat constructor. intros [].
  - exists (recorded ([MsgAssistantPtr turn_reply] ++ [MsgResult result_s1])
                      sample_client).
    split; [|reflexivity].
    exact (Hstop (RecvMsg (Some (MsgResult result_s1)))
                 [RecvMsg (Some (MsgAssistantPtr turn_two_parts))]
                 (Some result_s1) None [MsgResult result_s1] eq_refl).
Defined.

(** X19 on a new client and a launch that succeeds, without a prompt. *)
Lemma new_client_connects :
  ∃ c', Connect launch_ok "" (NewClient None) = (None, c')
      ∧ state_of c' = Some Connected.
Proof.
  destruct (newTransport launch_ok (Client_options (NewClient None)) true)
    as [t|e] eqn:Hnew; [|vm_compute in Hnew; discriminate].
  destruct (Connect_connects_once_the_child_runs launch_ok "" (NewClient None))
    as (_ & _ & Hruns).
  - reflexivity.
  - destruct (Hruns t Hnew) as (err & c' & Hconnect & Hstate & _ & _ & Hnil & _).
    exists c'. destruct (Hnil eq_refl) as [-> _].
    split; [exact Hconnect|exact Hstate].
Defined.

(** X20 on the same session, closed. *)
Lemma session_is_closed_down :
  ∃ c1 c2 t2,
    Connect launch_ok "Hello" (NewClient None) = (None, c1)
    ∧ Close c1 = Done (None, c2)
    ∧ state_of c2 = Some Closed
    ∧ Client_transport c2 = Some t2
    ∧ Cmd_Process (cmd t2) = ProcExited true
    ∧ queues_closed t2.
Proof.
  destruct (Connect launch_ok "Hello" (NewClient None)) as [err c1]
    eqn:Hconnect.
  assert (err = None) as ->
    by (vm_compute in Hconnect; by injection Hconnect as <- _).
  destruct (Connect_then_Close_releases_the_child launch_ok "Hello" None
              None c1 Hconnect)
    as (c2 & t2 & Hclose & Hstate & Ht & Hreaped & _ & _ & Hqueues & _).
  - vm_compute in Hconnect. injection Hconnect as <-. reflexivity.
  - exists c1, c2, t2. split; [reflexivity|]. split; [exact Hclose|].
    split; [exact Hstate|]. split; [exact Ht|].
    split; [exact Hreaped|exact Hqueues].
Defined.

(** X21 on a child that printed its reply and its result and then
    exited with code 1: the caller gets the error alone. *)
Lemma failed_exit_hides_the_result :
  Query launch_ok "Hi" None
    [SelMsg (Some (MsgAssistantPtr turn_reply));
     SelMsg (Some (MsgResult result_s1));
     SelWaitDone (Some (NewProcessError 1 "" ""))]
    [TimerC []]
  = Some (Err (NewProcessError 1 "" "")).
Proof.
  destruct (newTransportForQuery launch_ok (default emptyOptions None) "Hi")
    as [t|e] eqn:Hnew; [|vm_compute in Hnew; discriminate].
  destruct (Query_is_decided_by_the_first_event_after_the_messages
              launch_ok "Hi" None
              [SelMsg (Some (MsgAssistantPtr turn_reply));
               SelMsg (Some (MsgResult result_s1))]
              [TimerC []])
    as (Hdecided & _).
  - repeat constructor.
  - exact (Hdecided t (SelWaitDone (Some (NewProcessError 1 "" ""))) []
                    (Err (NewProcessError 1 "" "")) Hnew eq_refl).
Defined.

(** X23 on two reads and the end of the output. *)
Lemma diagnostics_up_to_the_end_of_output :
  ∃ t', readStderr_steps [false; false; false; false] sample_transport
          [mkStderrRead ["w"%byte] None; mkStderrRead ["a"%byte] None;
           mkStderrRead ["r"%byte] (Some EOF)] AtRead
        = Done (t', [], StderrReturned)
      ∧ stderrBuf t' = ["w"%byte; "a"%byte; "r"%byte]
      ∧ chan_buf (errors t') = [].
Proof.
  destruct (readStderr_reads_until_a_read_fails [false; false; false; false]
              sample_transport [["w"%byte]; ["a"%byte]] ["r"%byte] EOF [])
    as (t' & Hsteps & Hbuf & Herrs & _).
  - reflexivity.
  - discriminate.
  - apply Nat.le_refl.
  - exists t'. split; [exact Hsteps|]. split; [rewrite Hbuf|rewrite Herrs];
      reflexivity.
Defined.

(** X24: after [close], a reader that still holds a message panics when
    its [select] takes the send. *)
Definition closed_transport : transport :=
  match close sample_transport with
  | Done (_, t) => t
  | _ => sample_transport
  end.

Lemma send_on_the_closed_queue_panics :
  reader_step false closed_transport
    (mkReader [] None (Holding (SendMsg (MsgAssistantPtr turn_reply))))
  = Panic
  ∧ chan_closed (messages closed_transport) = true.
Proof.
  assert (reader_step false closed_transport
            (mkReader [] None (Holding (SendMsg (MsgAssistantPtr turn_reply))))
          = Panic) as Hpanic by reflexivity.
  split; [exact Hpanic|].
  destruct (reader_panics_only_at_a_closed_channel _ _ _ Hpanic)
    as [(line & rest & Hpc & _)|[(m & _ & Hclosed & _)
       |[(e & [Hpc|Hpc] & _)|(resp & ch & Hpc & _)]]];
    [discriminate Hpc|exact Hclosed|discriminate Hpc..].
Defined.

(** X25 on a reply followed by the result. *)
Lemma iterating_finds_the_result :
  ∃ c', Next_until_result [RecvMsg (Some (MsgAssistantPtr turn_reply));
                           RecvMsg (Some (MsgResult result_s1))]
                          sample_client
        = Done (Some (Some result_s1, None, c'))
      ∧ Client_messages c' = [MsgAssistantPtr turn_reply; MsgResult result_s1].
Proof.
  destruct (Next_iterated_is_WaitForResult
              [RecvMsg (Some (MsgAssistantPtr turn_reply));
               RecvMsg (Some (MsgResult result_s1))] sample_client)
    as (Hsame & _).
  eexists. rewrite (Hsame eq_refl). split; reflexivity.
Defined.

(** A host with nothing on its PATH and the CLI under the user's
    [.npm] directory: the second of the fixed locations. *)
Definition sample_host : OS.host :=
  {| OS.LookPath := fun file =>
       Err (errorString ("exec: " +:+ file
                         +:+ ": executable file not found in $PATH"));
     OS.Getenv := fun name => if String.eqb name "HOME" then "/home/u" else "";
     OS.Stat := fun path =>
       if String.eqb path "/home/u/.npm/bin/claude" then None
       else Some (errorString ("stat " +:+ path
                               +:+ ": no such file or directory"));
     OS.filepath_Join := String.concat "/" |}.

Example findCLI_sample_host :
  OS.findCLI sample_host = Ok "/home/u/.npm/bin/claude".
Proof. reflexivity. Qed.

Example requestID_string_1_42 : requestID_string 1 42 = "req_1_42".
Proof. reflexivity. Qed.

Example Error_of_a_decode_error :
  Error (NewCLIJSONDecodeError line_not_json JSON.SyntaxError)
  = "Failed to decode JSON from CLI output: not json: invalid character looking for beginning of value".
Proof. reflexivity. Qed.

(** A quiet child: [collectStderr] returns at the third tick. *)
Example collectStderr_quiet :
  collectStderr [TickerC [] []; TickerC [] []] = None
  ∧ collectStderr [TickerC [] []; TickerC [] []; TickerC [] []] = Some "".
Proof. split; reflexivity. Qed.

(** An unknown frame type is an error for the reader. *)
Example classify_unknown_type :
  classify (JSON.dq "{'type':'tool','message':{'x':1}}")
  = Done (SendError
            (NewMessageParseError "tool" (JSON.dq "{'x':1}")
               (Errorf "unknown message type: tool"))).
Proof. vm_compute. reflexivity. Qed.

End ExtraExamples.
